(** * distinct-until-changed-immutable: the clone engine and the distinct filter

    A shallow embedding of [src/deep-copy.ts] and
    [src/distinct-until-changed-immutable.ts] over an explicit JavaScript
    heap, the properties of the specification proved (or refuted) on it, and
    what the code guarantees beside them: the shape of a clone class by class,
    the two modes of [copy] compared, and the filter over a whole source. *)

From Stdlib Require Import ZArith Lia Ascii String.
From stdpp Require Import base option list strings.

Open Scope list_scope.

(** ** Values and heap objects *)

Abbreviation loc := nat (only parsing).

(** A JavaScript value.  Numbers are the integer-valued ones; functions are
    opaque and carry only their identity; every other object lives in the heap
    and is denoted by its location. *)
Inductive value :=
| VUndefined
| VNull
| VBoolean (b : bool)
| VNumber (n : Z)
| VString (s : string)
| VSymbol (id : nat)
| VFunction (id : nat)
| VObject (l : loc).

#[global] Instance value_eq_dec : EqDecision value.
Proof. solve_decision. Defined.

Inductive jstype :=
| TUndefined | TObject | TBoolean | TNumber | TString | TSymbol | TFunction.

#[global] Instance jstype_eq_dec : EqDecision jstype.
Proof. solve_decision. Defined.

(** [typeof v] *)
Definition typeof (v : value) : jstype :=
  match v with
  | VUndefined => TUndefined
  | VNull => TObject
  | VBoolean _ => TBoolean
  | VNumber _ => TNumber
  | VString _ => TString
  | VSymbol _ => TSymbol
  | VFunction _ => TFunction
  | VObject _ => TObject
  end.

(** [!!v] *)
Definition truthy (v : value) : bool :=
  match v with
  | VUndefined | VNull => false
  | VBoolean b => b
  | VNumber n => negb (n =? 0)%Z
  | VString s => negb (bool_decide (s = ""%string))
  | VSymbol _ | VFunction _ | VObject _ => true
  end.

(** Property keys: strings and symbols. *)
Inductive pkey :=
| KString (s : string)
| KSymbol (id : nat).

#[global] Instance pkey_eq_dec : EqDecision pkey.
Proof. solve_decision. Defined.

(** A property with its attributes: a data property holding [dvalue], or an
    accessor property, whose getter returns [dvalue] and does nothing else
    ([writable] then says nothing). *)
Record descriptor := Descriptor {
  dvalue : value;
  enumerable : bool;
  writable : bool;
  configurable : bool;
  accessor : bool;
}.

#[global] Instance descriptor_eq_dec : EqDecision descriptor.
Proof. solve_decision. Defined.

Record RegExpFlags := {
  global : bool;
  ignoreCase : bool;
  multiline : bool;
  unicode : bool;
  sticky : bool;
}.

#[global] Instance RegExpFlags_eq_dec : EqDecision RegExpFlags.
Proof. solve_decision. Defined.

(** What [new constructor()] does, for the constructor of an instance that is
    none of the built-in types below: [getCleanClone] calls it when the source
    text of the constructor holds [[native code]]. *)
Inductive construction :=
| Scripted                                   (* no [native code] in the source text *)
| NativeThrows                               (* native code, and the call throws *)
| NativeGives (own : list (pkey * descriptor)).
                                             (* native code: the own properties of
                                                the instance, as for [new String()] *)

#[global] Instance construction_eq_dec : EqDecision construction.
Proof. solve_decision. Defined.

(** What the prototype chain and the internal slots of an object say: the
    constructor it inherits, and the internal data of the built-in types
    [handleCopy] dispatches on.  An object belongs to exactly one class; an
    instance of a subclass of a built-in type is not among them. *)
Inductive class :=
| ClsObject                                  (* inherits from Object.prototype only *)
| ClsNull                                    (* no prototype: Object.create(null) *)
| ClsCustom (ctor : nat) (new : construction)
                                             (* instance of any other constructor *)
| ClsArray (elems : list value)              (* dense, every element a plain data property *)
| ClsDate (time : Z)
| ClsRegExp (source : string) (flags : RegExpFlags) (lastIndex : Z)
| ClsMap (entries : list (value * value))
| ClsSet (members : list value)
| ClsFile (name type : string) (bits : list Z)
| ClsView (buffer : loc) (byteOffset byteLength : nat) (bytesPerElement : nat)
                                             (* a typed array, or a DataView: one byte *)
| ClsArrayBuffer (bytes : list Z)
| ClsPromise                                 (* a promise: [then] is inherited *)
| ClsError
| ClsWeakMap
| ClsWeakSet.

#[global] Instance class_eq_dec : EqDecision class.
Proof. solve_decision. Defined.

Record obj := Obj {
  cls : class;
  props : list (pkey * descriptor);
}.

#[global] Instance obj_eq_dec : EqDecision obj.
Proof. solve_decision. Defined.

(** The heap: location [l] holds the [l]-th object; allocation appends. *)
Abbreviation heap := (list obj) (only parsing).

(** ** Property access *)

Fixpoint getOwnPropertyDescriptor (ps : list (pkey * descriptor)) (k : pkey)
  : option descriptor :=
  match ps with
  | [] => None
  | (k', d) :: ps' =>
      if decide (k' = k) then Some d else getOwnPropertyDescriptor ps' k
  end.

Definition data_property (v : value) : descriptor :=
  Descriptor v true true true false.

(** [clone[key] = v] where it sets or creates an own data property *)
Fixpoint assign (ps : list (pkey * descriptor)) (k : pkey) (v : value)
  : list (pkey * descriptor) :=
  match ps with
  | [] => [(k, data_property v)]
  | (k', d) :: ps' =>
      if decide (k' = k)
      then (k', Descriptor v (enumerable d) (writable d) (configurable d) (accessor d)) :: ps'
      else (k', d) :: assign ps' k v
  end.

(** [defineProperty(clone, property, descriptor)] where it is accepted *)
Fixpoint defineProperty (ps : list (pkey * descriptor)) (k : pkey) (d : descriptor)
  : list (pkey * descriptor) :=
  match ps with
  | [] => [(k, d)]
  | (k', d') :: ps' =>
      if decide (k' = k) then (k', d) :: ps' else (k', d') :: defineProperty ps' k d
  end.

Definition is_string_key (k : pkey) : bool :=
  match k with KString _ => true | KSymbol _ => false end.

Definition getOwnPropertyNames (ps : list (pkey * descriptor)) : list (pkey * descriptor) :=
  filter (fun kd => is_string_key kd.1 = true) ps.

Definition getOwnPropertySymbols (ps : list (pkey * descriptor)) : list (pkey * descriptor) :=
  filter (fun kd => is_string_key kd.1 = false) ps.

(** [typeof object.then === 'function']: an own [then] property holding a
    function, or the [then] every promise inherits. *)
Definition has_callable_then (o : obj) : bool :=
  match cls o with
  | ClsPromise => true
  | _ =>
      match getOwnPropertyDescriptor (props o) (KString "then") with
      | Some d => bool_decide (typeof (dvalue d) = TFunction)
      | None => false
      end
  end.

(** [clone[index] = v] on an array: in range the slot is overwritten, at the
    end the array grows, beyond it the gap is filled with holes. *)
Definition array_assign (elems : list value) (index : nat) (v : value) : list value :=
  if decide (index < length elems)%nat then <[index := v]> elems
  else elems ++ replicate (index - length elems) VUndefined ++ [v].

(** [map.set(key, v)] *)
Fixpoint map_set (entries : list (value * value)) (k v : value) : list (value * value) :=
  match entries with
  | [] => [(k, v)]
  | (k', v') :: es =>
      if decide (k' = k) then (k', v) :: es else (k', v') :: map_set es k v
  end.

(** [set.add(v)] *)
Definition set_add (members : list value) (v : value) : list value :=
  if decide (v ∈ members) then members else members ++ [v].

(** ** The clone engine ([src/deep-copy.ts]) *)

Inductive exception := TypeError | RangeError.

(** How a step of the code on one object ends: normally, by an exception, or
    out of what this development follows (the constructor of an instance is a
    function of the program that runs, or the prototype of a clone is an
    object of the heap). *)
Inductive completion (A : Type) :=
| Normal (a : A)
| Throw (e : exception)
| Unmodelled.
Arguments Normal {A} a.
Arguments Throw {A} e.
Arguments Unmodelled {A}.

(** One call of [copy] runs against the heap and its own cache of visited
    objects ([createCache]: a [WeakSet], or an array of the visited values
    searched with [indexOf]).  Nothing in [copy] catches an exception, so a
    computation that throws has no result; nor has one that leaves what is
    followed, runs out of fuel or meets a dangling reference. *)
Record cstate := CState {
  st_heap : heap;
  st_cache : list loc;
}.

Definition M (S A : Type) : Type := S -> option (A * S).

Definition ret {S A} (a : A) : M S A := fun s => Some (a, s).

Definition bind {S A B} (m : M S A) (f : A -> M S B) : M S B :=
  fun s => match m s with
           | Some (a, s') => f a s'
           | None => None
           end.

Notation "'let*' x ':=' m 'in' k" := (bind m (fun x => k))
  (at level 10, x pattern, m at level 100, k at level 200).
Notation "m ';;' k" := (bind m (fun _ => k))
  (at level 100, k at level 200, right associativity).

Definition stuck {S A} : M S A := fun _ => None.

Definition throw {S A} (e : exception) : M S A := fun _ => None.

Definition complete_with {S A} (r : completion A) : M S A :=
  fun s => match r with
           | Normal a => Some (a, s)
           | Throw _ | Unmodelled => None
           end.

Fixpoint forEach {S A} (f : A -> M S unit) (xs : list A) : M S unit :=
  match xs with
  | [] => ret tt
  | x :: xs' => f x ;; forEach f xs'
  end.

Definition createCache : list loc := [].

Definition cache_has (l : loc) : M cstate bool :=
  fun s => Some (bool_decide (l ∈ st_cache s), s).

Definition cache_add (l : loc) : M cstate unit :=
  fun s => Some (tt, CState (st_heap s) (st_cache s ++ [l])).

Definition load (l : loc) : M cstate obj :=
  fun s => match st_heap s !! l with
           | Some o => Some (o, s)
           | None => None
           end.

Definition alloc (o : obj) : M cstate loc :=
  fun s => Some (length (st_heap s), CState (st_heap s ++ [o]) (st_cache s)).

(** An operation on the object at [l] that may throw. *)
Definition update (l : loc) (f : obj -> completion obj) : M cstate unit :=
  fun s => match st_heap s !! l with
           | Some o =>
               match f o with
               | Normal o' => Some (tt, CState (<[l := o']> (st_heap s)) (st_cache s))
               | Throw _ | Unmodelled => None
               end
           | None => None
           end.

(** One that cannot. *)
Definition modify (l : loc) (f : obj -> obj) : M cstate unit :=
  update l (fun o => Normal (f o)).

Definition always {A} (f : A -> value -> obj -> obj) (x : A) (v : value) (o : obj)
  : completion obj :=
  Normal (f x v o).

(** [object[name]] for an own property; [None] when the object has none of
    that name and the prototype chain is asked. *)
Definition own_property (o : obj) (name : string) : option value :=
  match getOwnPropertyDescriptor (props o) (KString name) with
  | Some d => Some (dvalue d)
  | None => None
  end.

(** [object.constructor]: an own property of that name, or the constructor the
    object inherits, which its class tells.  The functions among the values
    are functions of the program: none is a built-in constructor, and the
    source text of none holds [[native code]]. *)
Inductive constructor :=
| Inherited
| Shadowed (v : value).

Definition constructor_of (o : obj) : constructor :=
  match own_property o "constructor" with
  | Some v => Shadowed v
  | None => Inherited
  end.

(** [constructor === Object] *)
Definition constructor_is_Object (o : obj) : bool :=
  match constructor_of o, cls o with
  | Inherited, ClsObject => true
  | _, _ => false
  end.

(** [new constructor(...)] for an instance of a built-in type, as far as the
    constructor decides: the one the instance inherits is the built-in one; a
    value that is no function is no constructor. *)
Definition construct (o : obj) : completion unit :=
  match constructor_of o with
  | Inherited => Normal tt
  | Shadowed (VFunction _) => Unmodelled
  | Shadowed _ => Throw TypeError
  end.

Definition is_array (o : obj) : bool :=
  match cls o with ClsArray _ => true | _ => false end.

(** An empty instance of the same class. *)
Definition blank (c : class) : class :=
  match c with
  | ClsArray _ => ClsArray []
  | ClsMap _ => ClsMap []
  | ClsSet _ => ClsSet []
  | c => c
  end.

(** [create(prototype)] with [prototype = object.__proto__ ||
    getPrototypeOf(object)]: an own property [__proto__] that is truthy takes
    the place of the prototype, and [create] throws unless it is an object.
    An object made with the prototype of a built-in type is no instance of the
    type. *)
Definition create_prototype (object : obj) : completion obj :=
  match own_property object "__proto__" with
  | Some v =>
      if truthy v then
        match v with
        | VObject _ | VFunction _ => Unmodelled
        | _ => Throw TypeError
        end
      else
        match cls object with
        | ClsObject | ClsNull | ClsCustom _ _ => Normal (Obj (cls object) [])
        | _ => Unmodelled
        end
  | None =>
      match cls object with
      | ClsObject | ClsNull | ClsCustom _ _ => Normal (Obj (cls object) [])
      | _ => Unmodelled
      end
  end.

(** The own properties of an instance made by a constructor: each key once,
    and no object among the values. *)
Definition self_contained (own : list (pkey * descriptor)) : bool :=
  forallb (fun kd : pkey * descriptor =>
             match dvalue kd.2 with VObject _ => false | _ => true end) own &&
  bool_decide (NoDup own.*1).

(** [getCleanClone]: no constructor gives [create(null)]; the [Object]
    constructor a plain [{}], or [create(prototype)]; a constructor with
    native code a new instance, and [create(prototype)] if it throws; any
    other [create(prototype)].  [Function.prototype.toString] is called on
    [object.constructor] outside [try], and throws when that is no function.
    Of the built-in types only arrays get here, in strict mode; with
    [create(null)] the clone of an array would be no array. *)
Definition getCleanClone (object : obj) : completion obj :=
  match constructor_of object with
  | Shadowed v =>
      if negb (truthy v) then
        (* !object.constructor *)
        if is_array object then Unmodelled else Normal (Obj ClsNull [])
      else
        match v with
        | VFunction _ => create_prototype object
        | _ => Throw TypeError
        end
  | Inherited =>
      match cls object with
      | ClsNull =>
          (* !object.constructor *)
          Normal (Obj ClsNull [])
      | ClsObject =>
          (* object.constructor === Object *)
          create_prototype object
      | ClsCustom _ Scripted | ClsCustom _ NativeThrows => create_prototype object
      | ClsCustom _ (NativeGives own) =>
          if self_contained own then Normal (Obj (cls object) own) else Unmodelled
      | c => Normal (Obj (blank c) [])
      end
  end.

(** Whether [clone[key] = v] runs the setter of [Object.prototype.__proto__]:
    the clone inherits it and has no own property of that name. *)
Definition runs_proto_setter (k : pkey) (o : obj) : bool :=
  bool_decide (k = KString "__proto__") &&
  negb (bool_decide (cls o = ClsNull)) &&
  negb (bool_decide (is_Some (getOwnPropertyDescriptor (props o) k))).

Definition set_property (k : pkey) (v : value) (o : obj) : obj :=
  Obj (cls o) (assign (props o) k v).

(** What [clone[key] = v] leaves when it returns. *)
Definition assigned (k : pkey) (v : value) (o : obj) : obj :=
  if runs_proto_setter k o then o else set_property k v o.

(** [clone[key] = v], in strict-mode code as a module is: the setter of
    [__proto__] ignores a value that is neither an object nor [null], and
    changes the prototype of the clone otherwise; a read-only property
    throws; the prototype of the clone is taken to hold no other accessor and
    no read-only property. *)
Definition put (k : pkey) (v : value) (o : obj) : completion obj :=
  if runs_proto_setter k o then
    match v with
    | VObject _ | VFunction _ | VNull => Unmodelled
    | _ => Normal (assigned k v o)
    end
  else
    match getOwnPropertyDescriptor (props o) k with
    | Some d =>
        if accessor d then Unmodelled
        else if writable d then Normal (assigned k v o)
        else Throw TypeError
    | None => Normal (assigned k v o)
    end.

Definition define_property (k : pkey) (d : descriptor) (o : obj) : obj :=
  Obj (cls o) (defineProperty (props o) k d).

(** Whether an own property that is not configurable accepts a whole data
    descriptor. *)
Definition accepts (d0 d : descriptor) : bool :=
  negb (accessor d0) && negb (configurable d) &&
  bool_decide (enumerable d = enumerable d0) &&
  (writable d0 || (negb (writable d) && bool_decide (dvalue d = dvalue d0))).

(** [defineProperty(clone, property, descriptor)] with the descriptor of the
    source, to which a [value] was added: a descriptor with a getter or a
    setter and a value throws, and so does one an own property of the clone
    does not accept. *)
Definition define (k : pkey) (d : descriptor) (o : obj) : completion obj :=
  if accessor d then Throw TypeError
  else
    match getOwnPropertyDescriptor (props o) k with
    | Some d0 =>
        if configurable d0 || accepts d0 d then Normal (define_property k d o)
        else Throw TypeError
    | None => Normal (define_property k d o)
    end.

Definition set_index (index : nat) (v : value) (o : obj) : obj :=
  match cls o with
  | ClsArray elems => Obj (ClsArray (array_assign elems index v)) (props o)
  | _ => o
  end.

Definition set_length (n : nat) (o : obj) : obj :=
  match cls o with
  | ClsArray elems =>
      Obj (ClsArray (take n elems ++ replicate (n - length elems) VUndefined)) (props o)
  | _ => o
  end.

(** The elements of an array with their indices; no other object has index
    properties. *)
Definition indexed_elements (o : obj) : list (nat * value) :=
  match cls o with
  | ClsArray elems => imap (fun i x => (i, x)) elems
  | _ => []
  end.

(** [getObjectCloneLoose]: own enumerable string keys ([for .. in] filtered by
    [hasOwnProperty]), then own enumerable symbols; descriptors are not kept. *)
Definition getObjectCloneLoose (object : loc) (handleCopy : value -> M cstate value) : M cstate value :=
  let* o := load object in
  let* clean := complete_with (getCleanClone o) in
  let* clone := alloc clean in
  forEach (fun kd : pkey * descriptor =>
             let* v := handleCopy (dvalue kd.2) in
             update clone (put kd.1 v))
          (filter (fun kd => enumerable kd.2 = true) (getOwnPropertyNames (props o))) ;;
  forEach (fun kd : pkey * descriptor =>
             let* v := handleCopy (dvalue kd.2) in
             update clone (put kd.1 v))
          (filter (fun kd => enumerable kd.2 = true) (getOwnPropertySymbols (props o))) ;;
  ret (VObject clone).

(** The descriptor [getObjectCloneStrict] defines: the one of the source with
    the copied value. *)
Definition with_value (d : descriptor) (v : value) : descriptor :=
  Descriptor v (enumerable d) (writable d) (configurable d) (accessor d).

(** [getObjectCloneStrict]: every own property name and symbol but [callee] and
    [caller], each defined with its original descriptor.  The own property
    names of an array are its indices, then [length], then the others. *)
Definition getObjectCloneStrict (object : loc) (handleCopy : value -> M cstate value) : M cstate value :=
  let* o := load object in
  let* clean := complete_with (getCleanClone o) in
  let* clone := alloc clean in
  forEach (fun ix : nat * value =>
             let* v := handleCopy ix.2 in
             modify clone (set_index ix.1 v))
          (indexed_elements o) ;;
  (if is_array o
   then let* v := handleCopy (VNumber (Z.of_nat (length (indexed_elements o)))) in
        modify clone (set_length (length (indexed_elements o)))
   else ret tt) ;;
  forEach (fun kd : pkey * descriptor =>
             if bool_decide (kd.1 ≠ KString "callee" ∧ kd.1 ≠ KString "caller")
             then let* v := handleCopy (dvalue kd.2) in
                  update clone (define kd.1 (with_value kd.2 v))
             else ret tt)
          (getOwnPropertyNames (props o) ++ getOwnPropertySymbols (props o)) ;;
  ret (VObject clone).

(** [getRegExpFlags] *)
Definition getRegExpFlags (regExp : RegExpFlags) : string :=
  ((if global regExp then "g" else "") ++
   (if ignoreCase regExp then "i" else "") ++
   (if multiline regExp then "m" else "") ++
   (if unicode regExp then "u" else "") ++
   (if sticky regExp then "y" else ""))%string.

Fixpoint has_flag (c : Ascii.ascii) (s : string) : bool :=
  match s with
  | EmptyString => false
  | String c' s' => bool_decide (c' = c) || has_flag c s'
  end.

(** The flags of [new RegExp(source, flags)] *)
Definition parse_flags (s : string) : RegExpFlags :=
  {| global := has_flag "g"%char s;
     ignoreCase := has_flag "i"%char s;
     multiline := has_flag "m"%char s;
     unicode := has_flag "u"%char s;
     sticky := has_flag "y"%char s |}.

Definition getObjectClone (isStrict : bool) :=
  if isStrict then getObjectCloneStrict else getObjectCloneLoose.

(** [handleCopy], the recursive worker of [copy]; [fuel] bounds the depth of
    the recursion. *)
Fixpoint handleCopy (fuel : nat) (isStrict : bool) (objectInHandle : value) : M cstate value :=
  match fuel with
  | O => stuck
  | S fuel' =>
      match objectInHandle with
      | VObject l =>
          let* visited := cache_has l in
          if visited then ret objectInHandle else
          let* o := load l in
          if constructor_is_Object o then
            (* plain objects *)
            cache_add l ;;
            getObjectClone isStrict l (handleCopy fuel' isStrict)
          else
          match cls o with
          | ClsArray elems =>
              (* arrays *)
              cache_add l ;;
              if isStrict then getObjectCloneStrict l (handleCopy fuel' isStrict)
              else
                complete_with (construct o) ;;
                let* clone := alloc (Obj (ClsArray []) []) in
                forEach (fun ix : nat * value =>
                           let* v := handleCopy fuel' isStrict ix.2 in
                           modify clone (set_index ix.1 v))
                        (imap (fun i x => (i, x)) elems) ;;
                ret (VObject clone)
          | ClsDate time =>
              complete_with (construct o) ;;
              let* clone := alloc (Obj (ClsDate time) []) in
              ret (VObject clone)
          | ClsRegExp source flags lastIndex =>
              complete_with (construct o) ;;
              let* clone := alloc (Obj (ClsRegExp source (parse_flags (getRegExpFlags flags)) 0%Z) []) in
              modify clone (fun c => Obj (ClsRegExp source (parse_flags (getRegExpFlags flags)) lastIndex)
                                         (props c)) ;;
              ret (VObject clone)
          | ClsMap entries =>
              cache_add l ;;
              complete_with (construct o) ;;
              let* clone := alloc (Obj (ClsMap []) []) in
              forEach (fun kv : value * value =>
                         let* v := handleCopy fuel' isStrict kv.2 in
                         modify clone (fun c =>
                           match cls c with
                           | ClsMap es => Obj (ClsMap (map_set es kv.1 v)) (props c)
                           | _ => c
                           end))
                      entries ;;
              ret (VObject clone)
          | ClsSet members =>
              cache_add l ;;
              complete_with (construct o) ;;
              let* clone := alloc (Obj (ClsSet []) []) in
              forEach (fun x : value =>
                         let* v := handleCopy fuel' isStrict x in
                         modify clone (fun c =>
                           match cls c with
                           | ClsSet ms => Obj (ClsSet (set_add ms v)) (props c)
                           | _ => c
                           end))
                      members ;;
              ret (VObject clone)
          | ClsFile name type bits =>
              cache_add l ;;
              let* clone := alloc (Obj (ClsFile name type bits) []) in
              ret (VObject clone)
          | ClsView buffer _ _ bytesPerElement =>
              (* new constructor(objectInHandle.buffer.slice(0)): a RangeError
                 unless the elements fill the copied buffer *)
              complete_with (construct o) ;;
              let* b := load buffer in
              match cls b with
              | ClsArrayBuffer bytes =>
                  let* slice := alloc (Obj (ClsArrayBuffer bytes) []) in
                  if bool_decide (length bytes `mod` bytesPerElement = 0) then
                    let* clone := alloc (Obj (ClsView slice 0 (length bytes) bytesPerElement) []) in
                    ret (VObject clone)
                  else throw RangeError
              | _ => stuck
              end
          | ClsArrayBuffer bytes =>
              let* clone := alloc (Obj (ClsArrayBuffer bytes) []) in
              ret (VObject clone)
          | ClsObject | ClsNull | ClsCustom _ _ | ClsPromise | ClsError | ClsWeakMap | ClsWeakSet =>
              (* if the object cannot / should not be cloned, don't *)
              if has_callable_then o
                 || bool_decide (cls o = ClsError)
                 || bool_decide (cls o = ClsWeakMap)
                 || bool_decide (cls o = ClsWeakSet)
              then ret objectInHandle
              else
                (* assume anything left is a custom constructor *)
                cache_add l ;;
                getObjectClone isStrict l (handleCopy fuel' isStrict)
          end
      | _ =>
          (* !objectInHandle || typeof objectInHandle !== 'object' *)
          ret objectInHandle
      end
  end.

(** [copy(object, options)]: the recursion is at most as deep as the number of
    objects of the heap, plus one for the leaf it ends in. *)
Definition copy (object : value) (isStrict : bool) (h : heap) : option (value * heap) :=
  match handleCopy (S (length h)) isStrict object (CState h createCache) with
  | Some (v, s) => Some (v, st_heap s)
  | None => None
  end.

(** [copy.strict] *)
Definition strictCopy (object : value) (h : heap) : option (value * heap) :=
  copy object true h.

Module CopyExamples.

(** [a = {}; a.self = a] *)
Definition cyclic : heap :=
  [Obj ClsObject [(KString "self", data_property (VObject 0))]].

(** [JSON.parse('{"constructor":1,"a":2}')] *)
Definition constructor_key : heap :=
  [Obj ClsObject [(KString "constructor", data_property (VNumber 1));
                  (KString "a", data_property (VNumber 2))]].

(** [new Uint16Array(new ArrayBuffer(5), 0, 2)] *)
Definition odd_buffer : heap :=
  [Obj (ClsArrayBuffer [1; 2; 3; 4; 5]%Z) []; Obj (ClsView 0 0 4 2) []].

End CopyExamples.

(** ** The equality engine *)

(** The dynamic type two composite values must share to be comparable. *)
Inductive dynamic_type :=
| DTObject | DTNull | DTCustom (ctor : nat) | DTArray | DTDate | DTRegExp
| DTMap | DTSet | DTFile | DTView | DTArrayBuffer
| DTPromise | DTError | DTWeakMap | DTWeakSet.

#[global] Instance dynamic_type_eq_dec : EqDecision dynamic_type.
Proof. solve_decision. Defined.

Definition dynamic_type_of (c : class) : dynamic_type :=
  match c with
  | ClsObject => DTObject
  | ClsNull => DTNull
  | ClsCustom ctor _ => DTCustom ctor
  | ClsArray _ => DTArray
  | ClsDate _ => DTDate
  | ClsRegExp _ _ _ => DTRegExp
  | ClsMap _ => DTMap
  | ClsSet _ => DTSet
  | ClsFile _ _ _ => DTFile
  | ClsView _ _ _ _ => DTView
  | ClsArrayBuffer _ => DTArrayBuffer
  | ClsPromise => DTPromise
  | ClsError => DTError
  | ClsWeakMap => DTWeakMap
  | ClsWeakSet => DTWeakSet
  end.

(** The own enumerable properties of an object. *)
Definition enumerable_props (ps : list (pkey * descriptor)) : list (pkey * descriptor) :=
  filter (fun kd => enumerable kd.2 = true) ps.

(** [map.get(key)], keys compared by identity *)
Fixpoint map_get (entries : list (value * value)) (k : value) : option value :=
  match entries with
  | [] => None
  | (k', v) :: es => if decide (k' = k) then Some v else map_get es k
  end.

(** The bytes a binary buffer or a view over one denotes. *)
Definition bytes_of (h : heap) (o : obj) : list Z :=
  match cls o with
  | ClsArrayBuffer bytes => bytes
  | ClsView buffer byteOffset byteLength _ =>
      match h !! buffer with
      | Some (Obj (ClsArrayBuffer bytes) _) => take byteLength (drop byteOffset bytes)
      | _ => []
      end
  | _ => []
  end.

(** The two visited-node caches of one comparison, one per operand. *)
Record estate := EState {
  cacheA : list loc;
  cacheB : list loc;
}.

Definition visited (la lb : loc) : M estate bool :=
  fun s => Some (bool_decide (la ∈ cacheA s) && bool_decide (lb ∈ cacheB s), s).

Definition visit (la lb : loc) : M estate unit :=
  fun s => Some (tt, EState (cacheA s ++ [la]) (cacheB s ++ [lb])).

Fixpoint allM {S A} (f : A -> M S bool) (xs : list A) : M S bool :=
  match xs with
  | [] => ret true
  | x :: xs' => let* b := f x in if b then allM f xs' else ret false
  end.

(** Removes the first member of [ys] the test accepts. *)
Fixpoint remove_match {S} (test : value -> M S bool) (ys : list value)
  : M S (option (list value)) :=
  match ys with
  | [] => ret None
  | y :: ys' =>
      let* b := test y in
      if b then ret (Some ys')
      else let* r := remove_match test ys' in ret (option_map (cons y) r)
  end.

(** Same multiset of members under the given equality. *)
Fixpoint same_members {S} (eq : value -> value -> M S bool) (xs ys : list value)
  : M S bool :=
  match xs with
  | [] => ret (bool_decide (ys = []))
  | x :: xs' =>
      let* r := remove_match (eq x) ys in
      match r with
      | None => ret false
      | Some ys' => same_members eq xs' ys'
      end
  end.

(** Modelled from the spec: [src/deep-equals.ts] is not among the sources, so
    [deepEqual] follows section 4.1 of the specification.  Identical values are
    equal; composite values of differing dynamic type are not; plain and
    custom-constructed objects are compared on their own enumerable keys,
    arrays by position, dates by instant, regular expressions by source and
    flags, maps key by key, sets as multisets, binary buffers and views by
    byte content; a pair of values both met before in the same comparison is
    taken as equal, by a pair of visited-node caches, one per operand. *)
Fixpoint equal (fuel : nat) (h : heap) (a b : value) : M estate bool :=
  match fuel with
  | O => stuck
  | S fuel' =>
      if decide (a = b) then ret true else
      match a, b with
      | VObject la, VObject lb =>
          match h !! la, h !! lb with
          | Some oa, Some ob =>
              let* seen := visited la lb in
              if seen then ret true else
              visit la lb ;;
              if negb (bool_decide (dynamic_type_of (cls oa) = dynamic_type_of (cls ob)))
              then ret false
              else
                match cls oa, cls ob with
                | ClsArray xs, ClsArray ys =>
                    if bool_decide (length xs = length ys)
                    then allM (fun xy : value * value => equal fuel' h xy.1 xy.2) (zip xs ys)
                    else ret false
                | ClsDate t1, ClsDate t2 => ret (t1 =? t2)%Z
                | ClsRegExp s1 f1 _, ClsRegExp s2 f2 _ =>
                    ret (bool_decide (s1 = s2 ∧ f1 = f2))
                | ClsMap e1, ClsMap e2 =>
                    if bool_decide (length e1 = length e2)
                    then allM (fun kv : value * value =>
                                 match map_get e2 kv.1 with
                                 | Some v2 => equal fuel' h kv.2 v2
                                 | None => ret false
                                 end) e1
                    else ret false
                | ClsSet m1, ClsSet m2 =>
                    if bool_decide (length m1 = length m2)
                    then same_members (equal fuel' h) m1 m2
                    else ret false
                | ClsArrayBuffer _, _ | ClsView _ _ _ _, _ =>
                    ret (bool_decide (bytes_of h oa = bytes_of h ob))
                | _, _ =>
                    let ka := enumerable_props (props oa) in
                    let kb := enumerable_props (props ob) in
                    if bool_decide (length ka = length kb)
                    then allM (fun kd : pkey * descriptor =>
                                 match getOwnPropertyDescriptor kb kd.1 with
                                 | Some d => equal fuel' h (dvalue kd.2) (dvalue d)
                                 | None => ret false
                                 end) ka
                    else ret false
                end
          | _, _ => stuck
          end
      | _, _ => ret false
      end
  end.

(** Every level of the recursion adds a new object to one of the caches. *)
Definition deepEqual (h : heap) (a b : value) : option bool :=
  match equal (S (2 * length h)) h a b (EState [] []) with
  | Some (r, _) => Some r
  | None => None
  end.

(** ** The distinct filter ([src/distinct-until-changed-immutable.ts]) *)

(** What a call of a caller-supplied function does: it returns or throws, and
    leaves a heap behind; it has no result if it does not terminate. *)
Inductive outcome (A : Type) :=
| Returns (a : A)
| Throws (err : value).
Arguments Returns {A} a.
Arguments Throws {A} err.

Definition comparator := value -> value -> heap -> option (outcome bool * heap).
Definition selector := value -> heap -> option (outcome value * heap).

Inductive notification :=
| NextN (v : value)
| ErrorN (err : value)
| CompleteN.

#[global] Instance notification_eq_dec : EqDecision notification.
Proof. solve_decision. Defined.

(** The calls one step makes, in order. *)
Inductive call :=
| CallKeySelector (v : value)
| CallCompare (x y : value)
| CallCopy (k : value).

#[global] Instance call_eq_dec : EqDecision call.
Proof. solve_decision. Defined.

(** The downstream consumer: what it received, and whether a terminal
    notification closed it. *)
Record consumer := Consumer {
  received : list notification;
  closed : bool;
}.

Record DistinctUntilChangedSubscriber := Subscriber {
  key : value;
  hasKey : bool;
  compare : comparator;
  keySelector : option selector;
  destination : consumer;
  isStopped : bool;
}.

(** The method [compare] of the class: [deepEqual(x, y)]. *)
Definition default_compare : comparator :=
  fun x y h =>
    match deepEqual h x y with
    | Some r => Some (Returns r, h)
    | None => None
    end.

(** The constructor: a supplied function replaces the method. *)
Definition new_DistinctUntilChangedSubscriber
    (dest : consumer) (cmp : option comparator) (sel : option selector)
  : DistinctUntilChangedSubscriber :=
  Subscriber VUndefined false
             (match cmp with Some f => f | None => default_compare end)
             sel dest false.

(** Modelled from the spec: the reactive-stream runtime ([rxjs]) is an external
    collaborator.  A consumer delivers what it is sent until a terminal
    notification closes it, and a terminal notification sent downstream tears
    the subscription down, which stops the subscriber; [next], [error] and
    [complete] of a stopped subscriber do nothing. *)
Definition consumer_next (v : value) (d : consumer) : consumer :=
  if closed d then d else Consumer (received d ++ [NextN v]) false.

Definition consumer_error (err : value) (d : consumer) : consumer :=
  if closed d then d else Consumer (received d ++ [ErrorN err]) true.

Definition consumer_complete (d : consumer) : consumer :=
  if closed d then d else Consumer (received d ++ [CompleteN]) true.

Definition destination_next (v : value) (this : DistinctUntilChangedSubscriber) :=
  Subscriber (key this) (hasKey this) (compare this) (keySelector this)
             (consumer_next v (destination this)) (isStopped this).

Definition destination_error (err : value) (this : DistinctUntilChangedSubscriber) :=
  Subscriber (key this) (hasKey this) (compare this) (keySelector this)
             (consumer_error err (destination this)) true.

Definition destination_complete (this : DistinctUntilChangedSubscriber) :=
  Subscriber (key this) (hasKey this) (compare this) (keySelector this)
             (consumer_complete (destination this)) true.

Definition set_key (k : value) (this : DistinctUntilChangedSubscriber) :=
  Subscriber k (hasKey this) (compare this) (keySelector this)
             (destination this) (isStopped this).

Definition set_hasKey (b : bool) (this : DistinctUntilChangedSubscriber) :=
  Subscriber (key this) b (compare this) (keySelector this)
             (destination this) (isStopped this).

(** The result of a step: the subscriber, the heap, and the calls made. *)
Definition step_result : Type := DistinctUntilChangedSubscriber * heap * list call.

(** [_next(value)] *)
Definition _next (v : value) (this : DistinctUntilChangedSubscriber) (h : heap)
  : option step_result :=
  (* key = keySelector ? keySelector(value) : value *)
  match (match keySelector this with
         | Some f => option_map (fun r => (r, [CallKeySelector v])) (f v h)
         | None => Some ((Returns v, h), [])
         end) with
  | None => None
  | Some ((Throws err, h1), calls1) => Some (destination_error err this, h1, calls1)
  | Some ((Returns k, h1), calls1) =>
      (* result = false; if (this.hasKey) result = compare(this.key, key)
         else this.hasKey = true *)
      match (if hasKey this
             then option_map (fun r => (r, this, calls1 ++ [CallCompare (key this) k]))
                             (compare this (key this) k h1)
             else Some ((Returns false, h1), set_hasKey true this, calls1)) with
      | None => None
      | Some ((Throws err, h2), this2, calls2) => Some (destination_error err this2, h2, calls2)
      | Some ((Returns result, h2), this2, calls2) =>
          if negb result then
            (* this.key = copy(key); this.destination.next(value) *)
            match copy k false h2 with
            | Some (k', h3) =>
                Some (destination_next v (set_key k' this2), h3, calls2 ++ [CallCopy k])
            | None => None
            end
          else Some (this2, h2, calls2)
      end
  end.

(** An event of the upstream source. *)
Inductive input :=
| INext (v : value)
| IError (err : value)
| IComplete.

(** [next], [error] and [complete] as the subscriber inherits them. *)
Definition next (v : value) (this : DistinctUntilChangedSubscriber) (h : heap)
  : option step_result :=
  if isStopped this then Some (this, h, []) else _next v this h.

Definition error (err : value) (this : DistinctUntilChangedSubscriber)
  : DistinctUntilChangedSubscriber :=
  if isStopped this then this else destination_error err this.

Definition complete (this : DistinctUntilChangedSubscriber)
  : DistinctUntilChangedSubscriber :=
  if isStopped this then this else destination_complete this.

Definition deliver (i : input) (this : DistinctUntilChangedSubscriber) (h : heap)
  : option step_result :=
  match i with
  | INext v => next v this h
  | IError err => Some (error err this, h, [])
  | IComplete => Some (complete this, h, [])
  end.

(** The source delivers its events one after the other. *)
Fixpoint run (inputs : list input) (this : DistinctUntilChangedSubscriber) (h : heap)
  : option step_result :=
  match inputs with
  | [] => Some (this, h, [])
  | i :: rest =>
      match deliver i this h with
      | None => None
      | Some (this1, h1, calls1) =>
          match run rest this1 h1 with
          | None => None
          | Some (this2, h2, calls2) => Some (this2, h2, calls1 ++ calls2)
          end
      end
  end.

(** What the consumer of [source.pipe(distinctUntilChangedImmutable(compare,
    keySelector))] has received once the source has delivered [inputs]. *)
Definition distinctUntilChangedImmutable
    (cmp : option comparator) (sel : option selector) (inputs : list input) (h : heap)
  : option (list notification) :=
  match run inputs (new_DistinctUntilChangedSubscriber (Consumer [] false) cmp sel) h with
  | Some (this, _, _) => Some (received (destination this))
  | None => None
  end.

(** ** Inputs of the test suite *)

Module FilterExamples.

(** [(x, y) => y % 2 === 0] *)
Definition next_is_even : comparator :=
  fun x y h =>
    match y with
    | VNumber n => Some (Returns (Z.rem n 2 =? 0)%Z, h)
    | _ => Some (Returns false, h)
    end.

Definition numbers : list input :=
  [INext (VNumber 1); INext (VNumber 2); INext (VNumber 3);
   INext (VNumber 4); INext (VNumber 5); INext (VNumber 6); IComplete].

(** A two-byte view at offset one of a four-byte buffer. *)
Definition subview : heap :=
  [Obj (ClsArrayBuffer [10; 11; 12; 13]%Z) []; Obj (ClsView 0 1 2 1) []].

End FilterExamples.

(** ** Well-formed heaps *)

Definition value_closed (n : nat) (v : value) : bool :=
  match v with
  | VObject l => bool_decide (l < n)
  | _ => true
  end.

(** Every value an object holds. *)
Definition obj_values (o : obj) : list value :=
  ((fun kd : pkey * descriptor => dvalue kd.2) <$> props o) ++
  match cls o with
  | ClsArray elems => elems
  | ClsMap entries => entries.*1 ++ entries.*2
  | ClsSet members => members
  | _ => []
  end.

(** A view looks at an array buffer of the heap. *)
Definition view_ok (h : heap) (o : obj) : bool :=
  match cls o with
  | ClsView buffer _ _ _ =>
      match h !! buffer with
      | Some (Obj (ClsArrayBuffer _) _) => true
      | _ => false
      end
  | _ => true
  end.

(** An object has each property key once, a map each key once, a set each
    member once. *)
Definition keys_distinct (o : obj) : bool :=
  bool_decide (NoDup (props o).*1) &&
  match cls o with
  | ClsMap entries => bool_decide (NoDup entries.*1)
  | ClsSet members => bool_decide (NoDup members)
  | _ => true
  end.

Definition wf_obj (h : heap) (o : obj) : bool :=
  forallb (value_closed (length h)) (obj_values o) && view_ok h o && keys_distinct o.

(** No dangling reference, and the host's invariants on keys. *)
Definition wf_heap (h : heap) : bool := forallb (wf_obj h) h.

(** ** Heaps on which [copy] does not throw *)

(** The elements of a view fill its buffer: a typed array can be made over a
    copy of the whole buffer. *)
Definition fills (h : heap) (o : obj) : bool :=
  match cls o with
  | ClsView buffer _ _ bytesPerElement =>
      match h !! buffer with
      | Some (Obj (ClsArrayBuffer bytes) _) =>
          bool_decide (length bytes `mod` bytesPerElement = 0)
      | _ => false
      end
  | _ => true
  end.

(** An object no step of [copy] throws on, nor leaves what is followed: it has
    no own property named [constructor] or [__proto__]; in strict mode, no
    accessor property; an instance made by its constructor has no own
    property; a view fills its buffer. *)
Definition tame_obj (isStrict : bool) (h : heap) (o : obj) : bool :=
  bool_decide (own_property o "constructor" = None) &&
  bool_decide (own_property o "__proto__" = None) &&
  (if isStrict then forallb (fun kd : pkey * descriptor => negb (accessor kd.2)) (props o)
   else true) &&
  match cls o with
  | ClsCustom _ (NativeGives own) => bool_decide (own = [])
  | _ => true
  end &&
  fills h o.

Definition tame (isStrict : bool) (h : heap) : bool := forallb (tame_obj isStrict h) h.

(** ** Structural equality as a relation (section 4.1) *)

(** The value of an own enumerable property. *)
Definition enum_lookup (ps : list (pkey * descriptor)) (k : pkey) : option value :=
  match getOwnPropertyDescriptor (enumerable_props ps) k with
  | Some d => Some (dvalue d)
  | None => None
  end.

Definition props_equal (R : value -> value -> Prop) (p q : list (pkey * descriptor)) : Prop :=
  forall k, option_Forall2 R (enum_lookup p k) (enum_lookup q k).

(** One level of the comparison of two objects, the values they hold being
    related by [R]. *)
Definition obj_equal (R : value -> value -> Prop) (h : heap) (oa ob : obj) : Prop :=
  dynamic_type_of (cls oa) = dynamic_type_of (cls ob) /\
  match cls oa, cls ob with
  | ClsArray xs, ClsArray ys => Forall2 R xs ys
  | ClsDate t1, ClsDate t2 => t1 = t2
  | ClsRegExp s1 f1 _, ClsRegExp s2 f2 _ => s1 = s2 /\ f1 = f2
  | ClsMap e1, ClsMap e2 =>
      length e1 = length e2 /\
      forall k, option_Forall2 R (map_get e1 k) (map_get e2 k)
  | ClsSet m1, ClsSet m2 => exists m2', m2' ≡ₚ m2 /\ Forall2 R m1 m2'
  | ClsArrayBuffer _, _ | ClsView _ _ _ _, _ => bytes_of h oa = bytes_of h ob
  | _, _ => props_equal R (props oa) (props ob)
  end.

(** Two values are equal at one level when they are the same value, or refer to
    objects equal at one level. *)
Definition value_equal (R : value -> value -> Prop) (h : heap) (a b : value) : Prop :=
  a = b \/
  exists la lb oa ob,
    a = VObject la /\ b = VObject lb /\
    h !! la = Some oa /\ h !! lb = Some ob /\ obj_equal R h oa ob.

(** Deep structural equality, cycles included: the two values are related by
    some relation every pair of which is equal at one level. *)
Definition deep_equal (h : heap) (a b : value) : Prop :=
  exists R : value -> value -> Prop,
    (forall x y, R x y -> value_equal R h x y) /\ R a b.

(** ** What a clone is made of *)

Definition copied_property (kd : pkey * descriptor) (v : value) : pkey * descriptor :=
  (kd.1, data_property v).

(** The own enumerable names followed by the own enumerable symbols hold the
    own enumerable properties. *)
Definition loose_keys (ps : list (pkey * descriptor)) : list (pkey * descriptor) :=
  filter (fun kd => enumerable kd.2 = true) (getOwnPropertyNames ps) ++
  filter (fun kd => enumerable kd.2 = true) (getOwnPropertySymbols ps).

Definition copied_entry (kv : value * value) (v : value) : value * value := (kv.1, v).

(** What [copy] cannot reproduce: a view that does not cover its whole buffer
    (the clone is a view over all of the copied buffer), and the extra
    properties of a [File]. *)
Definition faithful_obj (h : heap) (o : obj) : bool :=
  match cls o with
  | ClsView buffer byteOffset byteLength _ =>
      match h !! buffer with
      | Some (Obj (ClsArrayBuffer bytes) _) =>
          bool_decide (byteOffset = 0 /\ byteLength = length bytes)
      | _ => false
      end
  | ClsFile _ _ _ => bool_decide (enumerable_props (props o) = [])
  | _ => true
  end.

Definition faithful (h : heap) : bool := forallb (faithful_obj h) h.

(** In strict mode the properties named [callee] and [caller] are skipped;
    an object has them all in its clone when none of the two is enumerable. *)
Definition keeps_keys (o : obj) : bool :=
  forallb (fun kd : pkey * descriptor =>
             bool_decide (kd.1 <> KString "callee" /\ kd.1 <> KString "caller"))
          (enumerable_props (props o)).

(** What a mode of [copy] can reproduce. *)
Definition faithful_in (isStrict : bool) (h : heap) : bool :=
  faithful h && (if isStrict then forallb keeps_keys h else true).

Definition view_in (P : loc -> Prop) (h : heap) (o : obj) : Prop :=
  match cls o with
  | ClsView buffer _ _ _ => P buffer /\ buffer < length h
  | _ => True
  end.

(** The objects [handleCopy] clones into a new object whatever they hold. *)
Definition composite (c : class) : bool :=
  match c with
  | ClsObject | ClsArray _ | ClsMap _ | ClsSet _ => true
  | _ => false
  end.

(** ** The states and the steps of the filter *)

(** The three states of section 4.3. *)
Inductive filter_state := AWAITING_FIRST | HAS_BASELINE | TERMINATED.

Definition state_of (this : DistinctUntilChangedSubscriber) : filter_state :=
  if isStopped this then TERMINATED
  else if hasKey this then HAS_BASELINE else AWAITING_FIRST.

(** Key extraction: the key-selector if there is one, else the value. *)
Definition extract (v : value) (this : DistinctUntilChangedSubscriber) (h : heap)
  : option (outcome value * heap) :=
  match keySelector this with
  | Some f => f v h
  | None => Some (Returns v, h)
  end.

Definition selector_calls (v : value) (this : DistinctUntilChangedSubscriber) : list call :=
  match keySelector this with
  | Some _ => [CallKeySelector v]
  | None => []
  end.

(** What accepting a value does: the key is copied, the value forwarded. *)
Definition accept (v k : value) (this : DistinctUntilChangedSubscriber) (h : heap)
    (calls : list call) : option step_result :=
  match copy k false h with
  | Some (k', h') => Some (destination_next v (set_key k' this), h', calls ++ [CallCopy k])
  | None => None
  end.

(** The outcomes of a step, one by one. *)
Inductive step_case (v : value) (this : DistinctUntilChangedSubscriber) (h : heap)
  : step_result -> Prop :=
| case_selector_throws err h1 :
    extract v this h = Some (Throws err, h1) ->
    step_case v this h (destination_error err this, h1, selector_calls v this)
| case_first k h1 k' h2 :
    extract v this h = Some (Returns k, h1) -> hasKey this = false ->
    copy k false h1 = Some (k', h2) ->
    step_case v this h
      (destination_next v (set_key k' (set_hasKey true this)), h2,
       selector_calls v this ++ [CallCopy k])
| case_compare_throws k h1 err h2 :
    extract v this h = Some (Returns k, h1) -> hasKey this = true ->
    compare this (key this) k h1 = Some (Throws err, h2) ->
    step_case v this h
      (destination_error err this, h2,
       selector_calls v this ++ [CallCompare (key this) k])
| case_duplicate k h1 h2 :
    extract v this h = Some (Returns k, h1) -> hasKey this = true ->
    compare this (key this) k h1 = Some (Returns true, h2) ->
    step_case v this h
      (this, h2, selector_calls v this ++ [CallCompare (key this) k])
| case_distinct k h1 h2 k' h3 :
    extract v this h = Some (Returns k, h1) -> hasKey this = true ->
    compare this (key this) k h1 = Some (Returns false, h2) ->
    copy k false h2 = Some (k', h3) ->
    step_case v this h
      (destination_next v (set_key k' this), h3,
       selector_calls v this ++ [CallCompare (key this) k] ++ [CallCopy k]).

(** ** What the claims about [copy] speak of *)

(** A location reached from a value through the values objects hold. *)
Inductive reachable (h : heap) : value -> loc -> Prop :=
| reach_here l : reachable h (VObject l) l
| reach_step l o v l' :
    h !! l = Some o -> v ∈ obj_values o -> reachable h v l' ->
    reachable h (VObject l) l'.

(** The clone shares none of the objects, arrays, maps and sets of the source. *)
Definition independent (h h' : heap) (v' : value) : Prop :=
  forall l o, h !! l = Some o -> composite (cls o) = true -> ~ reachable h' v' l.

(** What [handleCopy] never clones, when it gets to the test. *)
Definition not_cloneable (o : obj) : bool :=
  has_callable_then o
  || bool_decide (cls o = ClsError)
  || bool_decide (cls o = ClsWeakMap)
  || bool_decide (cls o = ClsWeakSet).

(** The objects an earlier branch of [handleCopy] takes. *)
Definition taken_earlier (c : class) : bool :=
  match c with
  | ClsObject | ClsArray _ | ClsDate _ | ClsRegExp _ _ _ | ClsMap _ | ClsSet _
  | ClsFile _ _ _ | ClsView _ _ _ _ | ClsArrayBuffer _ => true
  | _ => false
  end.

(** ** Subscribers and comparators to try the filter on *)

Module FilterWitness.

Definition fresh : DistinctUntilChangedSubscriber :=
  new_DistinctUntilChangedSubscriber (Consumer [] false)
    (Some FilterExamples.next_is_even) None.

(** The subscriber once it has accepted [1]. *)
Definition after_one : DistinctUntilChangedSubscriber :=
  Subscriber (VNumber 1) true FilterExamples.next_is_even None
             (Consumer [NextN (VNumber 1)] false) false.

(** The comparator of the test suite that throws on ['d']. *)
Definition throws_on_d : comparator :=
  fun x y h =>
    if bool_decide (y = VString "d") then Some (Throws (VString "error"), h)
    else Some (Returns (bool_decide (x = y)), h).

Definition after_c : DistinctUntilChangedSubscriber :=
  Subscriber (VString "c") true throws_on_d None
             (Consumer [NextN (VString "a"); NextN (VString "b"); NextN (VString "c")] false)
             false.

End FilterWitness.

(** The values and functions of the test suite. *)
Module TestSuite.

Definition plain (ps : list (pkey * value)) : obj :=
  Obj ClsObject ((fun kv : pkey * value => (kv.1, data_property kv.2)) <$> ps).

(** [a = {1: {john: ['john']}}], [b] alike, and
    [c = {harry: 'harry', 1: {john: ['john']}}] at locations 0, 3 and 6. *)
Definition nested : heap :=
  [plain [(KString "1", VObject 1)];
   plain [(KString "john", VObject 2)];
   Obj (ClsArray [VString "john"]) [];
   plain [(KString "1", VObject 4)];
   plain [(KString "john", VObject 5)];
   Obj (ClsArray [VString "john"]) [];
   plain [(KString "1", VObject 7); (KString "harry", VString "harry")];
   plain [(KString "john", VObject 8)];
   Obj (ClsArray [VString "john"]) []].

(** [x => x % 2] *)
Definition parity : selector :=
  fun x h =>
    match x with
    | VNumber n => Some (Returns (VNumber (Z.rem n 2)), h)
    | _ => Some (Returns VUndefined, h)
    end.

(** [(x, y) => y % 2 === 1] *)
Definition next_is_odd : comparator :=
  fun x y h =>
    match y with
    | VNumber n => Some (Returns (Z.rem n 2 =? 1)%Z, h)
    | _ => Some (Returns false, h)
    end.

(** The key-selector that throws on ['d']. *)
Definition selector_throws_on_d : selector :=
  fun x h =>
    if bool_decide (x = VString "d") then Some (Throws (VString "error"), h)
    else Some (Returns x, h).

Definition letters : list input :=
  [INext (VString "a"); INext (VString "b"); INext (VString "c");
   INext (VString "d"); INext (VString "e"); INext (VString "f"); IComplete].

End TestSuite.

(** What makes a step fail: the key-selector throws, or the key is extracted
    and the comparator throws. *)
Definition raises (v : value) (this : DistinctUntilChangedSubscriber) (h : heap)
    (err : value) (h' : heap) : Prop :=
  extract v this h = Some (Throws err, h') \/
  exists k h1,
    extract v this h = Some (Returns k, h1) /\ hasKey this = true /\
    compare this (key this) k h1 = Some (Throws err, h').

(** The keys a sequence of calls copies. *)
Definition copies (calls : list call) : list value :=
  omap (fun c => match c with CallCopy k => Some k | _ => None end) calls.

Module MutatingComparator.

(** [x.seen] *)
Definition seen (o : obj) : value :=
  match getOwnPropertyDescriptor (props o) (KString "seen") with
  | Some d => dvalue d
  | None => VUndefined
  end.

(** [(x, y) => { const first = !x.seen; x.seen = true; return first; }] *)
Definition marks_previous : comparator :=
  fun x y h =>
    match x with
    | VObject l =>
        match h !! l with
        | Some o =>
            Some (Returns (negb (truthy (seen o))),
                  <[l := set_property (KString "seen") (VBoolean true) o]> h)
        | None => None
        end
    | _ => Some (Returns true, h)
    end.

End MutatingComparator.

(** ** The shapes of clones *)

(** Whether an object is an array buffer, as a view needs its buffer to be. *)
Definition is_buffer (o : obj) : bool :=
  match cls o with ClsArrayBuffer _ => true | _ => false end.

(** A value and what [handleCopy] returns for it: the value itself or, for an
    object, a location allocated by the call. *)
Definition kept_or_new (lo hi : nat) (v v' : value) : Prop :=
  v' = v \/ exists l l', v = VObject l /\ v' = VObject l' /\ lo <= l' < hi.

(** The results of the calls of one loop, each allocating after the one
    before. *)
Inductive copied {A} (g : A -> value) : nat -> nat -> list A -> list value -> Prop :=
| copied_nil lo hi : lo <= hi -> copied g lo hi [] []
| copied_cons lo mid hi x xs v' vs :
    lo <= mid -> kept_or_new lo mid (g x) v' -> copied g mid hi xs vs ->
    copied g lo hi (x :: xs) (v' :: vs).

(** The keys [getObjectCloneStrict] defines. *)
Definition strict_keys (ps : list (pkey * descriptor)) : list (pkey * descriptor) :=
  filter (fun kd : pkey * descriptor =>
            bool_decide (kd.1 <> KString "callee" /\ kd.1 <> KString "caller") = true)
         (getOwnPropertyNames ps ++ getOwnPropertySymbols ps).

(** The property [getObjectCloneStrict] defines for a property of the source:
    the copied value under the flags of the source. *)
Definition strict_property (kd : pkey * descriptor) (v : value) : pkey * descriptor :=
  (kd.1, with_value kd.2 v).

(** The class of the clone of an array with its elements, of another object as
    it is. *)
Definition with_elements (c : class) (vs : list value) : class :=
  match c with
  | ClsArray _ => ClsArray vs
  | c => c
  end.

(** What [getObjectCloneStrict] does to the length of the clone of an array. *)
Definition with_length (o : obj) (clone : obj) : obj :=
  if is_array o then set_length (length (indexed_elements o)) clone else clone.

(** The objects [handleCopy] hands to [getObjectClone] in either mode: plain
    objects, and the instances of other constructors the pass-through test
    lets through. *)
Definition cloned_by_properties (o : obj) : bool :=
  match cls o with
  | ClsObject => true
  | ClsNull | ClsCustom _ _ => negb (has_callable_then o)
  | _ => false
  end.

(** The objects [handleCopy] builds anew from their internal data. *)
Definition rebuilt (c : class) : bool :=
  match c with
  | ClsDate _ | ClsRegExp _ _ _ | ClsFile _ _ _ | ClsArrayBuffer _ => true
  | _ => false
  end.

(** The objects [copy] returns as they are. *)
Definition passed_through (o : obj) : bool :=
  negb (taken_earlier (cls o)) && not_cloneable o.

(** [typeof v === 'object'] and [v] is not [null] *)
Definition is_object (v : value) : bool :=
  match v with VObject _ => true | _ => false end.

(** An object of the heap that [copy] does not pass through. *)
Definition cloneable_object (h : heap) (v : value) : Prop :=
  exists l o, v = VObject l /\ h !! l = Some o /\ passed_through o = false.

(** ** Sources, consumers and comparators *)

(** The values a consumer received, and the values a source delivers. *)
Definition forwarded (ns : list notification) : list value :=
  omap (fun n => match n with NextN v => Some v | _ => None end) ns.

Definition delivered (inputs : list input) : list value :=
  omap (fun i => match i with INext v => Some v | _ => None end) inputs.

(** A comparator and a key-selector that compute on their arguments and leave
    the heap alone. *)
Definition pure_comparator (f : value -> value -> bool) : comparator :=
  fun x y h => Some (Returns (f x y), h).

Definition pure_selector (g : value -> value) : selector :=
  fun v h => Some (Returns (g v), h).

(** [x => x % 2] as a function of the value alone *)
Definition remainder (v : value) : value :=
  match v with
  | VNumber n => VNumber (Z.rem n 2)
  | _ => VUndefined
  end.

(** The key of a value: what the key-selector makes of it, or the value. *)
Definition key_of (g : option (value -> value)) (v : value) : value :=
  match g with Some f => f v | None => v end.

(** The filter that retains the key itself and not a copy of it: a value
    passes when the comparator does not find its key equal to the key of the
    last value that passed. *)
Fixpoint distinct_from (f : value -> value -> bool) (key : value -> value)
    (previous : value) (vs : list value) : list value :=
  match vs with
  | [] => []
  | v :: vs' =>
      if f previous (key v) then distinct_from f key previous vs'
      else v :: distinct_from f key (key v) vs'
  end.

(** The first value always passes. *)
Definition distinct_until_changed (f : value -> value -> bool) (key : value -> value)
    (vs : list value) : list value :=
  match vs with
  | [] => []
  | v :: vs' => v :: distinct_from f key (key v) vs'
  end.

(** [(p, q) => p === q] *)
Definition same_reference : comparator :=
  fun x y h => Some (Returns (bool_decide (x = y)), h).

(** A comparator that returns or throws on a well-formed heap, and leaves a
    well-formed heap that has lost no object. *)
Definition terminating_comparator (cmp : comparator) : Prop :=
  forall x y h,
    wf_heap h = true -> value_closed (length h) x = true -> value_closed (length h) y = true ->
    exists r h', cmp x y h = Some (r, h') /\ wf_heap h' = true /\ length h <= length h'.

(** The same of a key-selector, whose key is a value of the heap it leaves. *)
Definition terminating_selector (sel : selector) : Prop :=
  forall v h,
    wf_heap h = true -> value_closed (length h) v = true ->
    exists r h', sel v h = Some (r, h') /\ wf_heap h' = true /\ length h <= length h' /\
                 forall k, r = Returns k -> value_closed (length h') k = true.

(** ** Plain data *)

(** A property as an assignment or an object literal makes it, and that
    [getObjectCloneStrict] does not skip. *)
Definition plain_property (kd : pkey * descriptor) : bool :=
  enumerable kd.2 && writable kd.2 && configurable kd.2 && negb (accessor kd.2) &&
  bool_decide (kd.1 <> KString "callee" /\ kd.1 <> KString "caller").

(** An object all of whose properties are plain; an array has its elements
    only. *)
Definition plain_data (o : obj) : bool :=
  forallb plain_property (props o) &&
  (if is_array o then bool_decide (props o = []) else true).

(** ** Objects to try [copy] on *)

Module CloneExamples.

(** [{shown: 1}] with a property [hidden] that is not enumerable and holds the
    array at 1; [[1, o]] with a property [extra] of its own; a map from the
    object to the array; a set; [/a+/g] with [lastIndex] 3 and a property
    [note]; an instance of a constructor of the program. *)
Definition objects : heap :=
  [Obj ClsObject [(KString "shown", data_property (VNumber 1));
                  (KString "hidden", Descriptor (VObject 1) false true true false)];
   Obj (ClsArray [VNumber 1; VObject 0]) [(KString "extra", data_property (VNumber 7))];
   Obj (ClsMap [(VObject 0, VObject 1)]) [];
   Obj (ClsSet [VObject 0; VNumber 3]) [];
   Obj (ClsRegExp "a+" {| global := true; ignoreCase := false; multiline := false;
                          unicode := false; sticky := false |} 3)
       [(KString "note", data_property (VString "x"))];
   Obj (ClsCustom 1 Scripted) [(KString "age", data_property (VNumber 4))]].

End CloneExamples.

(** ** Structural equality: one level at a time *)

Lemma obj_equal_mono (R R' : value -> value -> Prop) h oa ob :
  (forall x y, R x y -> R' x y) -> obj_equal R h oa ob -> obj_equal R' h oa ob.
Proof.
  intros HR [Hty H]. split; [exact Hty|].
  assert (Hopt : forall x y : option value, option_Forall2 R x y -> option_Forall2 R' x y).
  { intros x y Hxy. destruct Hxy; constructor; auto. }
  destruct (cls oa), (cls ob); try exact H; try discriminate Hty.
  all: try (intros k; apply Hopt, H).
  - eapply Forall2_impl; eauto.
  - destruct H as [Hl H]. split; [exact Hl|]. intros k. apply Hopt, H.
  - destruct H as (m2' & Hp & H). exists m2'. split; [exact Hp|].
    eapply Forall2_impl; eauto.
Qed.

(** ** Property lists, maps and sets filled one entry at a time *)

Lemma gopd_elem (L : list (pkey * descriptor)) k d :
  getOwnPropertyDescriptor L k = Some d -> (k, d) ∈ L.
Proof.
  induction L as [|[k' d'] L IH]; simpl; [discriminate|].
  destruct (decide (k' = k)) as [->|Hne].
  - intros [= ->]. left.
  - intros H. right. auto.
Qed.

Lemma gopd_None (L : list (pkey * descriptor)) k :
  getOwnPropertyDescriptor L k = None <-> k ∉ L.*1.
Proof.
  induction L as [|[k' d'] L IH]; simpl.
  - split; [intros _ H; inversion H|reflexivity].
  - destruct (decide (k' = k)) as [->|Hne].
    + split; [discriminate|]. intros H. exfalso. apply H. left.
    + rewrite IH, not_elem_of_cons. split.
      * intros H. split; [congruence|exact H].
      * intros [_ H]. exact H.
Qed.

Lemma gopd_Some (L : list (pkey * descriptor)) k d :
  NoDup L.*1 -> (k, d) ∈ L -> getOwnPropertyDescriptor L k = Some d.
Proof.
  induction L as [|[k' d'] L IH]; simpl; intros Hnd Hin; [inversion Hin|].
  apply NoDup_cons in Hnd as [Hk' Hnd].
  apply elem_of_cons in Hin as [[= -> ->]|Hin].
  - rewrite decide_True by reflexivity. reflexivity.
  - destruct (decide (k' = k)) as [->|Hne]; [|auto].
    exfalso. apply Hk'. apply list_elem_of_fmap. exists (k, d). auto.
Qed.

(** Two lists with the same entries, each key once, answer every lookup
    alike. *)
Lemma gopd_same_entries (L L' : list (pkey * descriptor)) :
  NoDup L.*1 -> NoDup L'.*1 -> (forall x, x ∈ L <-> x ∈ L') ->
  forall k, getOwnPropertyDescriptor L k = getOwnPropertyDescriptor L' k.
Proof.
  intros Hnd Hnd' Hsame k.
  destruct (getOwnPropertyDescriptor L k) as [d|] eqn:E.
  - symmetry. apply gopd_Some; [exact Hnd'|]. apply Hsame, gopd_elem, E.
  - symmetry. apply gopd_None. apply gopd_None in E. intros Hin. apply E.
    apply list_elem_of_fmap in Hin as ([k1 d1] & Hk & Hin). simpl in Hk. subst k1.
    apply list_elem_of_fmap. exists (k, d1). split; [reflexivity|]. apply Hsame, Hin.
Qed.

Lemma assign_new ps k v :
  k ∉ ps.*1 -> assign ps k v = ps ++ [(k, data_property v)].
Proof.
  induction ps as [|[k' d'] ps IH]; simpl; intros Hk; [reflexivity|].
  apply not_elem_of_cons in Hk as [Hne Hk].
  rewrite decide_False by congruence. rewrite IH by exact Hk. reflexivity.
Qed.

Lemma assign_keys ps k v :
  (assign ps k v).*1 = if decide (k ∈ ps.*1) then ps.*1 else ps.*1 ++ [k].
Proof.
  induction ps as [|[k' d'] ps IH]; [reflexivity|].
  cbn [assign]. destruct (decide (k' = k)) as [->|Hne]; rewrite !fmap_cons; cbn [fst].
  - rewrite decide_True by left. reflexivity.
  - rewrite IH. destruct (decide (k ∈ ps.*1)) as [Hin|Hnin].
    + rewrite decide_True by (right; exact Hin). reflexivity.
    + rewrite decide_False; [reflexivity|].
      intros H. apply elem_of_cons in H as [->|H]; contradiction.
Qed.

Lemma defineProperty_keys ps k d :
  (defineProperty ps k d).*1 = if decide (k ∈ ps.*1) then ps.*1 else ps.*1 ++ [k].
Proof.
  induction ps as [|[k' d'] ps IH]; [reflexivity|].
  cbn [defineProperty]. destruct (decide (k' = k)) as [->|Hne]; rewrite !fmap_cons; cbn [fst].
  - rewrite decide_True by left. reflexivity.
  - rewrite IH. destruct (decide (k ∈ ps.*1)) as [Hin|Hnin].
    + rewrite decide_True by (right; exact Hin). reflexivity.
    + rewrite decide_False; [reflexivity|].
      intros H. apply elem_of_cons in H as [->|H]; contradiction.
Qed.

(** The keys a loop still has to set are new to the clone, and none is
    [__proto__]: no assignment throws, and each makes a property. *)
Definition settable (xs : list (pkey * descriptor)) (o : obj) : Prop :=
  NoDup xs.*1 /\
  Forall (fun kd : pkey * descriptor =>
            kd.1 <> KString "__proto__" /\ kd.1 ∉ (props o).*1) xs.

Lemma put_new k v o :
  k <> KString "__proto__" -> k ∉ (props o).*1 ->
  put k v o = Normal (set_property k v o).
Proof.
  intros Hk Hnew. unfold put, assigned, runs_proto_setter.
  rewrite (bool_decide_eq_false_2 _ Hk). cbn [andb].
  apply gopd_None in Hnew. rewrite Hnew. reflexivity.
Qed.

Lemma settable_step (x : pkey * descriptor) xs v o :
  settable (x :: xs) o ->
  put x.1 v o = Normal (set_property x.1 v o) /\ settable xs (set_property x.1 v o).
Proof.
  intros [Hnd Hall]. rewrite fmap_cons in Hnd. apply NoDup_cons in Hnd as [Hx Hnd].
  apply Forall_cons in Hall as [[Hk Hnew] Hall].
  split; [apply put_new; assumption|]. split; [exact Hnd|].
  rewrite Forall_forall in Hall. apply Forall_forall. intros y Hy.
  destruct (Hall y Hy) as [Hyk Hynew]. split; [exact Hyk|].
  unfold set_property. cbn [props]. rewrite assign_keys.
  rewrite decide_False by exact Hnew.
  intros Hin. apply elem_of_app in Hin as [Hin|Hin]; [contradiction|].
  apply list_elem_of_singleton in Hin. apply Hx. rewrite <- Hin.
  apply list_elem_of_fmap. exists y. auto.
Qed.

Lemma settable_nil xs c :
  NoDup xs.*1 -> Forall (fun kd : pkey * descriptor => kd.1 <> KString "__proto__") xs ->
  settable xs (Obj c []).
Proof.
  intros Hnd Hall. split; [exact Hnd|]. eapply Forall_impl; [exact Hall|].
  intros kd Hk. split; [exact Hk|]. cbn. apply not_elem_of_nil.
Qed.

(** The same for the properties a loop still has to define: none is an
    accessor. *)
Definition definable (xs : list (pkey * descriptor)) (o : obj) : Prop :=
  NoDup xs.*1 /\
  Forall (fun kd : pkey * descriptor => accessor kd.2 = false /\ kd.1 ∉ (props o).*1) xs.

Lemma define_new k d o :
  accessor d = false -> k ∉ (props o).*1 ->
  define k d o = Normal (define_property k d o).
Proof.
  intros Ha Hnew. unfold define. rewrite Ha.
  apply gopd_None in Hnew. rewrite Hnew. reflexivity.
Qed.

Lemma definable_step (x : pkey * descriptor) xs v o :
  definable (x :: xs) o ->
  define x.1 (with_value x.2 v) o = Normal (define_property x.1 (with_value x.2 v) o) /\
  definable xs (define_property x.1 (with_value x.2 v) o).
Proof.
  intros [Hnd Hall]. rewrite fmap_cons in Hnd. apply NoDup_cons in Hnd as [Hx Hnd].
  apply Forall_cons in Hall as [[Ha Hnew] Hall].
  split; [apply define_new; assumption|]. split; [exact Hnd|].
  rewrite Forall_forall in Hall. apply Forall_forall. intros y Hy.
  destruct (Hall y Hy) as [Hya Hynew]. split; [exact Hya|].
  unfold define_property. cbn [props]. rewrite defineProperty_keys.
  rewrite decide_False by exact Hnew.
  intros Hin. apply elem_of_app in Hin as [Hin|Hin]; [contradiction|].
  apply list_elem_of_singleton in Hin. apply Hx. rewrite <- Hin.
  apply list_elem_of_fmap. exists y. auto.
Qed.

Lemma fold_assign (xs : list (pkey * descriptor)) : forall vs ps,
  NoDup (ps.*1 ++ xs.*1) -> length vs = length xs ->
  fold_left (fun ps (xv : (pkey * descriptor) * value) => assign ps xv.1.1 xv.2) (zip xs vs) ps
  = ps ++ zip_with copied_property xs vs.
Proof.
  induction xs as [|[k d] xs IH]; intros vs ps Hnd Hlen.
  - simpl. rewrite app_nil_r. reflexivity.
  - destruct vs as [|v vs]; [discriminate|]. simpl in *.
    rewrite assign_new.
    2:{ apply NoDup_app in Hnd as (_ & Hdis & _). intros Hin. apply (Hdis _ Hin). left. }
    rewrite IH.
    + rewrite <- app_assoc. reflexivity.
    + rewrite fmap_app. simpl. rewrite <- app_assoc. simpl. exact Hnd.
    + lia.
Qed.

Lemma zip_with_copied_keys (xs : list (pkey * descriptor)) : forall vs,
  length vs = length xs -> (zip_with copied_property xs vs).*1 = xs.*1.
Proof.
  induction xs as [|x xs IH]; intros [|v vs] Hlen; try discriminate; simpl; [reflexivity|].
  rewrite IH by (simpl in Hlen; lia). reflexivity.
Qed.

Lemma enumerable_copied (xs : list (pkey * descriptor)) : forall vs,
  enumerable_props (zip_with copied_property xs vs) = zip_with copied_property xs vs.
Proof.
  unfold enumerable_props.
  induction xs as [|x xs IH]; intros [|v vs]; simpl; try reflexivity.
  rewrite filter_cons_True by reflexivity. rewrite IH. reflexivity.
Qed.

Lemma lookup_copied (R : value -> value -> Prop) (xs : list (pkey * descriptor)) vs :
  Forall2 (fun kd v' => R v' (dvalue kd.2)) xs vs ->
  forall k,
    option_Forall2 R
      (dvalue <$> getOwnPropertyDescriptor (zip_with copied_property xs vs) k)
      (dvalue <$> getOwnPropertyDescriptor xs k).
Proof.
  induction 1 as [|[k' d'] v xs vs Hxv _ IH]; intros k; simpl.
  - constructor.
  - destruct (decide (k' = k)); simpl; [constructor; exact Hxv|apply IH].
Qed.

Lemma sublist_keys_NoDup (L L' : list (pkey * descriptor)) :
  sublist L L' -> NoDup L'.*1 -> NoDup L.*1.
Proof.
  intros Hs Hnd. eapply sublist_NoDup; [exact Hnd|]. apply fmap_sublist, Hs.
Qed.

Lemma loose_keys_elem ps x : x ∈ loose_keys ps <-> x ∈ enumerable_props ps.
Proof.
  unfold loose_keys, enumerable_props, getOwnPropertyNames, getOwnPropertySymbols.
  rewrite elem_of_app, !list_elem_of_filter. split.
  - intros [(He & Hs & Hin)|(He & Hs & Hin)]; split; assumption.
  - intros [He Hin].
    destruct (is_string_key x.1) eqn:E; [left|right]; repeat split; assumption.
Qed.

Lemma loose_keys_NoDup ps : NoDup ps.*1 -> NoDup (loose_keys ps).*1.
Proof.
  intros Hnd. unfold loose_keys. rewrite fmap_app. apply NoDup_app. split; [|split].
  - eapply sublist_keys_NoDup; [|exact Hnd].
    etrans; apply sublist_filter.
  - intros k H1 H2.
    apply list_elem_of_fmap in H1 as (x1 & -> & H1).
    apply list_elem_of_fmap in H2 as (x2 & Hk & H2).
    apply list_elem_of_filter in H1 as [_ H1]. apply list_elem_of_filter in H1 as [H1 _].
    apply list_elem_of_filter in H2 as [_ H2]. apply list_elem_of_filter in H2 as [H2 _].
    rewrite Hk in H1. congruence.
  - eapply sublist_keys_NoDup; [|exact Hnd].
    etrans; apply sublist_filter.
Qed.

Lemma strict_keys_NoDup ps : NoDup ps.*1 -> NoDup (strict_keys ps).*1.
Proof.
  intros Hnd. unfold strict_keys. rewrite filter_app, fmap_app.
  unfold getOwnPropertyNames, getOwnPropertySymbols.
  apply NoDup_app. split; [|split].
  - eapply sublist_keys_NoDup; [|exact Hnd]. etrans; apply sublist_filter.
  - intros k H1 H2.
    apply list_elem_of_fmap in H1 as (x1 & -> & H1).
    apply list_elem_of_fmap in H2 as (x2 & Hk & H2).
    apply list_elem_of_filter in H1 as [_ H1]. apply list_elem_of_filter in H1 as [H1 _].
    apply list_elem_of_filter in H2 as [_ H2]. apply list_elem_of_filter in H2 as [H2 _].
    rewrite Hk in H1. congruence.
  - eapply sublist_keys_NoDup; [|exact Hnd]. etrans; apply sublist_filter.
Qed.

Lemma strict_keys_in_props ps kd : kd ∈ strict_keys ps -> kd ∈ ps.
Proof.
  unfold strict_keys, getOwnPropertyNames, getOwnPropertySymbols. intros Hin.
  apply list_elem_of_filter in Hin as [_ Hin].
  apply elem_of_app in Hin as [Hin|Hin]; apply list_elem_of_filter in Hin as [_ Hin]; exact Hin.
Qed.

Lemma definable_nil xs o :
  props o = [] -> NoDup xs.*1 ->
  Forall (fun kd : pkey * descriptor => accessor kd.2 = false) xs ->
  definable xs o.
Proof.
  intros Hp Hnd Hall. split; [exact Hnd|]. eapply Forall_impl; [exact Hall|].
  intros kd Hk. split; [exact Hk|]. rewrite Hp. apply not_elem_of_nil.
Qed.

Lemma props_equal_clone (R : value -> value -> Prop) ps vs :
  NoDup ps.*1 ->
  Forall2 (fun kd v' => R v' (dvalue kd.2)) (loose_keys ps) vs ->
  props_equal R (zip_with copied_property (loose_keys ps) vs) ps.
Proof.
  intros Hnd Hvs k. unfold enum_lookup. rewrite enumerable_copied.
  assert (Hsame : getOwnPropertyDescriptor (loose_keys ps) k =
                  getOwnPropertyDescriptor (enumerable_props ps) k).
  { apply gopd_same_entries.
    - apply loose_keys_NoDup, Hnd.
    - eapply sublist_keys_NoDup; [|exact Hnd]. apply sublist_filter.
    - apply loose_keys_elem. }
  pose proof (lookup_copied R _ _ Hvs k) as H. rewrite Hsame in H.
  destruct (getOwnPropertyDescriptor (zip_with copied_property (loose_keys ps) vs) k),
           (getOwnPropertyDescriptor (enumerable_props ps) k); exact H.
Qed.

(** Filling an array from index zero *)
Lemma array_assign_end elems v : array_assign elems (length elems) v = elems ++ [v].
Proof.
  unfold array_assign. rewrite decide_False by lia.
  rewrite Nat.sub_diag. reflexivity.
Qed.

Lemma fold_array_assign (xs : list value) : forall (F : nat -> value -> nat * value) vs acc,
  (forall i x, (F i x).1 = length acc + i) -> length vs = length xs ->
  fold_left (fun acc (xv : (nat * value) * value) => array_assign acc xv.1.1 xv.2)
            (zip (imap F xs) vs) acc
  = acc ++ vs.
Proof.
  induction xs as [|x xs IH]; intros F vs acc HF Hlen.
  - destruct vs; [|discriminate]. simpl. rewrite app_nil_r. reflexivity.
  - destruct vs as [|v vs]; [discriminate|]. simpl.
    rewrite HF, Nat.add_0_r, array_assign_end.
    rewrite (IH (F ∘ S) vs (acc ++ [v])).
    + rewrite <- app_assoc. reflexivity.
    + intros i y. simpl. rewrite HF, length_app. simpl. lia.
    + simpl in Hlen. lia.
Qed.

(** Filling a map with new keys *)
Lemma map_set_new es k v : k ∉ es.*1 -> map_set es k v = es ++ [(k, v)].
Proof.
  induction es as [|[k' v'] es IH]; simpl; intros Hk; [reflexivity|].
  apply not_elem_of_cons in Hk as [Hne Hk].
  rewrite decide_False by congruence. rewrite IH by exact Hk. reflexivity.
Qed.

Lemma fold_map_set (xs : list (value * value)) : forall vs es,
  NoDup (es.*1 ++ xs.*1) -> length vs = length xs ->
  fold_left (fun es (xv : (value * value) * value) => map_set es xv.1.1 xv.2) (zip xs vs) es
  = es ++ zip_with copied_entry xs vs.
Proof.
  induction xs as [|[k d] xs IH]; intros vs es Hnd Hlen.
  - simpl. rewrite app_nil_r. reflexivity.
  - destruct vs as [|v vs]; [discriminate|]. simpl in *.
    rewrite map_set_new.
    2:{ apply NoDup_app in Hnd as (_ & Hdis & _). intros Hin. apply (Hdis _ Hin). left. }
    rewrite IH.
    + rewrite <- app_assoc. reflexivity.
    + rewrite fmap_app. simpl. rewrite <- app_assoc. simpl. exact Hnd.
    + lia.
Qed.

Lemma map_get_copied (R : value -> value -> Prop) (xs : list (value * value)) vs :
  Forall2 (fun kv v' => R v' kv.2) xs vs ->
  forall k, option_Forall2 R (map_get (zip_with copied_entry xs vs) k) (map_get xs k).
Proof.
  induction 1 as [|[k' d'] v xs vs Hxv _ IH]; intros k; simpl.
  - constructor.
  - destruct (decide (k' = k)); simpl; [constructor; exact Hxv|apply IH].
Qed.

(** Filling a set with new members *)
Lemma fold_set_add (vs : list value) : forall ms,
  NoDup (ms ++ vs) ->
  fold_left (fun ms v => set_add ms v) vs ms = ms ++ vs.
Proof.
  induction vs as [|v vs IH]; intros ms Hnd; simpl.
  - rewrite app_nil_r. reflexivity.
  - unfold set_add at 2. rewrite decide_False.
    2:{ apply NoDup_app in Hnd as (_ & Hdis & _). intros Hin. apply (Hdis _ Hin). left. }
    rewrite IH; rewrite <- app_assoc; [reflexivity|exact Hnd].
Qed.

Lemma parse_getRegExpFlags f : parse_flags (getRegExpFlags f) = f.
Proof. destruct f as [[] [] [] [] []]; reflexivity. Qed.

Lemma defineProperty_new ps k d : k ∉ ps.*1 -> defineProperty ps k d = ps ++ [(k, d)].
Proof.
  induction ps as [|[k' d'] ps IH]; simpl; intros Hk; [reflexivity|].
  apply not_elem_of_cons in Hk as [Hne Hk].
  rewrite decide_False by congruence. rewrite IH by exact Hk. reflexivity.
Qed.

Lemma fold_defineProperty (xs : list (pkey * descriptor)) : forall vs ps,
  NoDup (ps.*1 ++ xs.*1) -> length vs = length xs ->
  fold_left (fun ps (xv : (pkey * descriptor) * value) =>
               defineProperty ps xv.1.1 (with_value xv.1.2 xv.2))
            (zip xs vs) ps
  = ps ++ zip_with strict_property xs vs.
Proof.
  induction xs as [|[k d] xs IH]; intros vs ps Hnd Hlen.
  - simpl. rewrite app_nil_r. reflexivity.
  - destruct vs as [|v vs]; [discriminate|]. simpl in *.
    rewrite defineProperty_new.
    2:{ apply NoDup_app in Hnd as (_ & Hdis & _). intros Hin. apply (Hdis _ Hin). left. }
    rewrite IH.
    + rewrite <- app_assoc. reflexivity.
    + rewrite fmap_app. simpl. rewrite <- app_assoc. simpl. exact Hnd.
    + lia.
Qed.

(** A strict clone answers the lookup of an enumerable property as its source
    does. *)
Lemma lookup_strict (R : value -> value -> Prop) (xs : list (pkey * descriptor)) vs :
  Forall2 (fun kd v' => R v' (dvalue kd.2)) xs vs ->
  forall k,
    option_Forall2 R (enum_lookup (zip_with strict_property xs vs) k) (enum_lookup xs k).
Proof.
  unfold enum_lookup, enumerable_props.
  induction 1 as [|[k' d'] v xs vs Hxv _ IH]; intros k; simpl.
  - constructor.
  - destruct (enumerable d') eqn:E.
    + rewrite !filter_cons_True by exact E. simpl.
      destruct (decide (k' = k)); [constructor; exact Hxv|apply IH].
    + rewrite !filter_cons_False by (simpl; congruence). apply IH.
Qed.

Lemma strict_keys_elem ps x :
  x ∈ strict_keys ps <->
  x ∈ ps /\ x.1 <> KString "callee" /\ x.1 <> KString "caller".
Proof.
  unfold strict_keys, getOwnPropertyNames, getOwnPropertySymbols.
  rewrite list_elem_of_filter, elem_of_app, !list_elem_of_filter, bool_decide_eq_true.
  split.
  - intros [Hk [[_ Hin]|[_ Hin]]]; auto.
  - intros [Hin Hk]. split; [exact Hk|].
    destruct (is_string_key x.1) eqn:E; [left|right]; auto.
Qed.

Lemma keeps_keys_elem o x :
  keeps_keys o = true -> x ∈ enumerable_props (props o) ->
  x.1 <> KString "callee" /\ x.1 <> KString "caller".
Proof.
  unfold keeps_keys. rewrite forallb_forall. intros H Hx.
  apply list_elem_of_In in Hx. apply H in Hx. apply bool_decide_eq_true in Hx. exact Hx.
Qed.

Lemma props_equal_strict (R : value -> value -> Prop) o vs :
  NoDup (props o).*1 -> keeps_keys o = true ->
  Forall2 (fun kd v' => R v' (dvalue kd.2)) (strict_keys (props o)) vs ->
  props_equal R (zip_with strict_property (strict_keys (props o)) vs) (props o).
Proof.
  intros Hnd Hkeep Hvs k.
  pose proof (lookup_strict R _ _ Hvs k) as H.
  assert (Hsame : enum_lookup (strict_keys (props o)) k = enum_lookup (props o) k).
  { unfold enum_lookup. rewrite (gopd_same_entries (enumerable_props (strict_keys (props o)))
                                   (enumerable_props (props o))); [reflexivity| | |].
    - eapply sublist_keys_NoDup; [apply sublist_filter|]. apply strict_keys_NoDup, Hnd.
    - eapply sublist_keys_NoDup; [apply sublist_filter|exact Hnd].
    - intros x. unfold enumerable_props. rewrite !list_elem_of_filter, strict_keys_elem.
      split; [tauto|]. intros [He Hin]. split; [exact He|]. split; [exact Hin|].
      apply (keeps_keys_elem o); [exact Hkeep|].
      apply list_elem_of_filter. auto. }
  rewrite Hsame in H. exact H.
Qed.

Lemma zip_with_strict_keys (xs : list (pkey * descriptor)) : forall vs,
  length vs = length xs -> (zip_with strict_property xs vs).*1 = xs.*1.
Proof.
  induction xs as [|x xs IH]; intros [|v vs] Hlen; try discriminate; simpl; [reflexivity|].
  rewrite IH by (simpl in Hlen; lia). reflexivity.
Qed.

Lemma set_length_full (vs : list value) ps n :
  length vs = n -> set_length n (Obj (ClsArray vs) ps) = Obj (ClsArray vs) ps.
Proof.
  intros <-. unfold set_length. simpl. rewrite firstn_all, Nat.sub_diag. simpl.
  rewrite app_nil_r. reflexivity.
Qed.

(** ** Values kept and values copied *)

Lemma value_closed_mono n n' v :
  n <= n' -> value_closed n v = true -> value_closed n' v = true.
Proof.
  destruct v; simpl; auto. intros Hn H. apply bool_decide_eq_true in H.
  apply bool_decide_eq_true. lia.
Qed.

Lemma kept_or_new_closed lo hi v v' :
  lo <= hi -> kept_or_new lo hi v v' ->
  value_closed lo v = true -> value_closed hi v' = true.
Proof.
  intros Hle [->|(l & l' & -> & -> & Hl)] Hv.
  - eapply value_closed_mono; eauto.
  - simpl. apply bool_decide_eq_true. lia.
Qed.

Lemma kept_or_new_wider lo lo' hi hi' v v' :
  lo' <= lo -> hi <= hi' -> kept_or_new lo hi v v' -> kept_or_new lo' hi' v v'.
Proof.
  intros H1 H2 [->|(l & l' & -> & -> & Hl)]; [left; reflexivity|].
  right. exists l, l'. split; [reflexivity|]. split; [reflexivity|lia].
Qed.

Lemma copied_length {A} (g : A -> value) lo hi xs vs :
  copied g lo hi xs vs -> length vs = length xs.
Proof. induction 1; simpl; congruence. Qed.

Lemma copied_bounds {A} (g : A -> value) lo hi xs vs :
  copied g lo hi xs vs -> lo <= hi.
Proof. induction 1; lia. Qed.

Lemma copied_Forall2 {A} (g : A -> value) lo hi xs vs :
  copied g lo hi xs vs -> Forall2 (fun x v' => kept_or_new lo hi (g x) v') xs vs.
Proof.
  induction 1 as [|lo mid hi x xs v' vs Hle Hk Hc IH]; constructor.
  - eapply kept_or_new_wider; [| |exact Hk]; [lia|]. eapply copied_bounds; eauto.
  - eapply Forall2_impl; [exact IH|]. intros y w. apply kept_or_new_wider; lia.
Qed.

Lemma copied_app {A} (g : A -> value) lo mid hi xs vs ys ws :
  copied g lo mid xs vs -> copied g mid hi ys ws -> copied g lo hi (xs ++ ys) (vs ++ ws).
Proof.
  induction 1 as [lo mid' Hle|lo m mid' x xs v' vs Hle Hk Hc IH]; intros Hys; simpl.
  - destruct Hys as [mid hi Hle'|mid m hi y ys w ws Hle' Hk Hc].
    + constructor. lia.
    + econstructor; [|eapply kept_or_new_wider; [| |exact Hk]|exact Hc]; lia.
  - econstructor; [exact Hle|exact Hk|]. apply IH. exact Hys.
Qed.

(** Distinct closed values have distinct results. *)
Lemma copied_NoDup {A} (g : A -> value) lo hi xs vs :
  copied g lo hi xs vs ->
  Forall (fun x => value_closed lo (g x) = true) xs ->
  NoDup (g <$> xs) -> NoDup vs.
Proof.
  induction 1 as [|lo mid hi x xs v' vs Hle Hk Hc IH]; intros Hcl Hnd.
  - constructor.
  - apply Forall_cons in Hcl as [Hx Hcl]. simpl in Hnd. apply NoDup_cons in Hnd as [Hnotin Hnd].
    constructor.
    + intros Hin. apply copied_Forall2 in Hc.
      apply list_elem_of_lookup in Hin as (i & Hi).
      destruct (Forall2_lookup_r _ _ _ _ _ Hc Hi) as (y & Hy & Hky).
      assert (Hgy : g y ∈ g <$> xs).
      { apply list_elem_of_fmap. exists y. split; [reflexivity|].
        apply list_elem_of_lookup. eauto. }
      rewrite Forall_lookup in Hcl. specialize (Hcl _ _ Hy).
      destruct Hk as [->|(l & l' & Hgx & -> & Hl)];
        destruct Hky as [Heq|(m & m' & Hgy' & Hm & Hm')].
      * rewrite Heq in Hnotin. contradiction.
      * rewrite Hm in Hx. simpl in Hx. apply bool_decide_eq_true in Hx. lia.
      * rewrite <- Heq in Hcl. simpl in Hcl. apply bool_decide_eq_true in Hcl. lia.
      * injection Hm as Hm. lia.
    + apply IH; [|exact Hnd]. eapply Forall_impl; [exact Hcl|].
      intros y. apply value_closed_mono. exact Hle.
Qed.

Lemma kept_here n n' v : kept_or_new n n' v v.
Proof. left. reflexivity. Qed.

Lemma new_here lo hi l l' : lo <= l' < hi -> kept_or_new lo hi (VObject l) (VObject l').
Proof. intros H. right. exists l, l'. auto. Qed.

(** ** Tame objects *)

Definition ordinary (c : class) : Prop :=
  c = ClsObject \/ c = ClsNull \/ exists k n, c = ClsCustom k n.

Lemma tame_lookup isStrict h l o :
  tame isStrict h = true -> h !! l = Some o -> tame_obj isStrict h o = true.
Proof.
  intros Ht Hl. unfold tame in Ht. rewrite forallb_forall in Ht.
  apply Ht. apply list_elem_of_In. eapply list_elem_of_lookup_2. exact Hl.
Qed.

Lemma tame_parts isStrict h o :
  tame_obj isStrict h o = true ->
  own_property o "constructor" = None /\
  own_property o "__proto__" = None /\
  (isStrict = true -> Forall (fun kd : pkey * descriptor => accessor kd.2 = false) (props o)) /\
  (forall k own, cls o = ClsCustom k (NativeGives own) -> own = []) /\
  fills h o = true.
Proof.
  unfold tame_obj. rewrite !andb_true_iff, !bool_decide_eq_true.
  intros ((((Hc & Hp) & Ha) & Hn) & Hf).
  split; [exact Hc|]. split; [exact Hp|]. split; [|split; [|exact Hf]].
  - intros ->. apply Forall_forall. intros kd Hkd.
    rewrite forallb_forall in Ha. apply negb_true_iff, Ha, list_elem_of_In, Hkd.
  - intros k own Hcls. rewrite Hcls in Hn. apply bool_decide_eq_true in Hn. exact Hn.
Qed.

Lemma tame_constructor isStrict h o :
  tame_obj isStrict h o = true -> constructor_of o = Inherited.
Proof.
  intros Ht. apply tame_parts in Ht as (Hc & _). unfold constructor_of. rewrite Hc. reflexivity.
Qed.

Lemma construct_tame isStrict h o :
  tame_obj isStrict h o = true -> construct o = Normal tt.
Proof.
  intros Ht. unfold construct. rewrite (tame_constructor _ _ _ Ht). reflexivity.
Qed.

Lemma constructor_is_Object_tame isStrict h o :
  tame_obj isStrict h o = true ->
  constructor_is_Object o = bool_decide (cls o = ClsObject).
Proof.
  intros Ht. unfold constructor_is_Object. rewrite (tame_constructor _ _ _ Ht).
  destruct (cls o); reflexivity.
Qed.

Lemma getCleanClone_ordinary isStrict h o :
  tame_obj isStrict h o = true -> ordinary (cls o) ->
  getCleanClone o = Normal (Obj (cls o) []).
Proof.
  intros Ht Hord. pose proof (tame_constructor _ _ _ Ht) as Hc.
  apply tame_parts in Ht as (_ & Hp & _ & Hn & _).
  unfold getCleanClone, create_prototype. rewrite Hc, Hp.
  destruct Hord as [Ho| [Ho|(k & n & Ho)]]; rewrite Ho; try reflexivity.
  destruct n as [| |own]; try reflexivity.
  rewrite (Hn _ _ Ho). reflexivity.
Qed.

Lemma getCleanClone_array isStrict h o elems :
  tame_obj isStrict h o = true -> cls o = ClsArray elems ->
  getCleanClone o = Normal (Obj (ClsArray []) []).
Proof.
  intros Ht Ho. unfold getCleanClone. rewrite (tame_constructor _ _ _ Ht), Ho. reflexivity.
Qed.

Lemma tame_no_key isStrict h o name :
  tame_obj isStrict h o = true -> name = "constructor"%string \/ name = "__proto__"%string ->
  KString name ∉ (props o).*1.
Proof.
  intros Ht Hn. apply tame_parts in Ht as (Hc & Hp & _).
  apply gopd_None. unfold own_property in Hc, Hp.
  destruct Hn as [->| ->].
  - destruct (getOwnPropertyDescriptor (props o) (KString "constructor")); [discriminate|reflexivity].
  - destruct (getOwnPropertyDescriptor (props o) (KString "__proto__")); [discriminate|reflexivity].
Qed.

Lemma getCleanClone_tame isStrict h o :
  tame_obj isStrict h o = true -> ordinary (cls o) \/ is_array o = true ->
  getCleanClone o = Normal (Obj (blank (cls o)) []).
Proof.
  intros Ht [Hord|Harr].
  - rewrite (getCleanClone_ordinary _ _ _ Ht Hord).
    destruct Hord as [->| [->|(k & n & ->)]]; reflexivity.
  - unfold is_array in Harr. destruct (cls o) eqn:Ho; try discriminate Harr.
    rewrite (getCleanClone_array _ _ _ _ Ht Ho). reflexivity.
Qed.

(** ** Correctness of the clone engine *)

Lemma bytes_of_stable (P : loc -> Prop) h h' o :
  view_in P h o ->
  (forall l, l < length h -> P l -> h' !! l = h !! l) ->
  bytes_of h' o = bytes_of h o.
Proof.
  unfold view_in, bytes_of. destruct (cls o); try reflexivity.
  intros [HP Hlt] Hh. rewrite (Hh _ Hlt HP). reflexivity.
Qed.

Lemma obj_equal_heap (R : value -> value -> Prop) h h' oa ob :
  bytes_of h' oa = bytes_of h oa ->
  bytes_of h' ob = bytes_of h ob ->
  obj_equal R h oa ob -> obj_equal R h' oa ob.
Proof.
  intros Ha Hb [Hty H]. split; [exact Hty|].
  destruct (cls oa), (cls ob); try exact H; try discriminate Hty.
  all: rewrite Ha, Hb; exact H.
Qed.

Section CopyCorrect.

Variable h0 : heap.
Variable isStrict : bool.

(** The state of a call of [copy] on [h0]: the objects of [h0] are where they
    were, and the cache holds some of them, each once. *)
Definition inv (s : cstate) : Prop :=
  (forall l, l < length h0 -> st_heap s !! l = h0 !! l) /\
  NoDup (st_cache s) /\
  Forall (fun l => l < length h0) (st_cache s).

(** Nothing that exists is touched; the cache only grows. *)
Definition extends (s s' : cstate) : Prop :=
  length (st_heap s) <= length (st_heap s') /\
  (forall l, l < length (st_heap s) -> st_heap s' !! l = st_heap s !! l) /\
  st_cache s `prefix_of` st_cache s'.

(** The same, but for the clone under construction at [c]. *)
Definition frame_except (c : loc) (s s' : cstate) : Prop :=
  length (st_heap s) <= length (st_heap s') /\
  (forall l, l < length (st_heap s) -> l <> c -> st_heap s' !! l = st_heap s !! l) /\
  st_cache s `prefix_of` st_cache s'.

(** [a] is a clone of [b] made of objects allocated from [m] on: the same
    value, or a new object equal at one level to an object of [h0], the
    values it holds being clones in turn. *)
Fixpoint clone_of (d : nat) (h : heap) (m : nat) (a b : value) : Prop :=
  a = b \/
  match d with
  | O => False
  | S d' =>
      exists la lb oa ob,
        a = VObject la /\ b = VObject lb /\
        m <= la /\ lb < length h0 /\
        h !! la = Some oa /\ h !! lb = Some ob /\
        view_in (fun l => m <= l) h oa /\
        view_in (fun l => l < length h0) h ob /\
        obj_equal (clone_of d' h m) h oa ob
  end.

Lemma clone_of_stable d h h' m a b :
  (forall l, l < length h -> l < length h0 \/ m <= l -> h' !! l = h !! l) ->
  clone_of d h m a b -> clone_of d h' m a b.
Proof.
  intros Hh. revert a b. induction d as [|d IH]; intros a b [Heq|H]; simpl.
  - left; exact Heq.
  - destruct H.
  - left; exact Heq.
  - destruct H as (la & lb & oa & ob & -> & -> & Hm & Hlb & Hla & Hlb' & Hva & Hvb & Heq).
    right. exists la, lb, oa, ob.
    assert (Hla' : la < length h) by (eapply lookup_lt_Some; eauto).
    assert (Hlb'' : lb < length h) by (eapply lookup_lt_Some; eauto).
    assert (Hba : bytes_of h' oa = bytes_of h oa).
    { eapply bytes_of_stable; [exact Hva|]. intros; apply Hh; auto. }
    assert (Hbb : bytes_of h' ob = bytes_of h ob).
    { eapply bytes_of_stable; [exact Hvb|]. intros; apply Hh; auto. }
    assert (Hlen : forall l, l < length h -> l < length h0 \/ m <= l -> l < length h').
    { intros l Hl Hr. apply lookup_lt_is_Some. rewrite (Hh l Hl Hr).
      apply lookup_lt_is_Some. exact Hl. }
    refine (conj eq_refl (conj eq_refl (conj Hm (conj Hlb
              (conj _ (conj _ (conj _ (conj _ _)))))))).
    + rewrite Hh; auto.
    + rewrite Hh; auto.
    + unfold view_in in *. destruct (cls oa); auto. destruct Hva; split; auto.
    + unfold view_in in *. destruct (cls ob); auto. destruct Hvb; split; auto.
    + apply obj_equal_heap with (h := h); auto.
      eapply obj_equal_mono; [|exact Heq]. exact IH.
Qed.

Lemma clone_of_lower d h m m' a b :
  m' <= m -> clone_of d h m a b -> clone_of d h m' a b.
Proof.
  intros Hm. revert a b. induction d as [|d IH]; intros a b [Heq|H]; simpl.
  - left; exact Heq.
  - destruct H.
  - left; exact Heq.
  - destruct H as (la & lb & oa & ob & -> & -> & Hm' & Hlb & Hla & Hlb' & Hva & Hvb & Heq).
    right. exists la, lb, oa, ob.
    refine (conj eq_refl (conj eq_refl (conj _ (conj Hlb
              (conj Hla (conj Hlb' (conj _ (conj Hvb _)))))))).
    + lia.
    + unfold view_in in *. destruct (cls oa); auto. destruct Hva; split; auto; lia.
    + eapply obj_equal_mono; [|exact Heq]. exact IH.
Qed.

Lemma clone_of_deep_equal d h m a b :
  clone_of d h m a b -> deep_equal h a b.
Proof.
  intros H. exists (fun x y => exists d, clone_of d h m x y). split; [|eauto].
  intros x y [d' Hd]. destruct d' as [|d']; destruct Hd as [Heq|Hd].
  - left; exact Heq.
  - destruct Hd.
  - left; exact Heq.
  - destruct Hd as (la & lb & oa & ob & -> & -> & _ & _ & Hla & Hlb & _ & _ & Heq).
    right. exists la, lb, oa, ob.
    refine (conj eq_refl (conj eq_refl (conj Hla (conj Hlb _)))).
    eapply obj_equal_mono; [|exact Heq]. intros; eauto.
Qed.

Lemma clone_node d h m c l oa ob :
  m <= c -> l < length h0 ->
  h !! c = Some oa -> h !! l = Some ob ->
  view_in (fun l => m <= l) h oa ->
  view_in (fun l => l < length h0) h ob ->
  obj_equal (clone_of d h m) h oa ob ->
  clone_of (S d) h m (VObject c) (VObject l).
Proof.
  intros. right. exists c, l, oa, ob.
  refine (conj eq_refl (conj eq_refl _)). auto 10.
Qed.

(** The clone is deep when [h0] has nothing the mode of the call cannot
    reproduce. *)
Definition deep : Prop := faithful_in isStrict h0 = true.

(** The result of a call: the value itself or a new object, and a clone. *)
Definition result_ok (d : nat) (s : cstate) (v v' : value) (s' : cstate) : Prop :=
  kept_or_new (length (st_heap s)) (length (st_heap s')) v v' /\
  (deep -> clone_of d (st_heap s') (length (st_heap s)) v' v).

(** What a clone allocated in [s] holds in [s'] for a value of its source: the
    value itself or an object newer than the clone, and a clone of it. *)
Definition slot (d : nat) (s s' : cstate) (x v' : value) : Prop :=
  kept_or_new (S (length (st_heap s))) (length (st_heap s')) x v' /\
  (deep -> clone_of d (st_heap s') (S (length (st_heap s))) v' x).

Lemma deep_faithful : deep -> faithful h0 = true.
Proof. unfold deep, faithful_in. intros H. apply andb_prop in H as [H _]. exact H. Qed.

Lemma deep_keeps_keys l o :
  deep -> isStrict = true -> h0 !! l = Some o -> keeps_keys o = true.
Proof.
  unfold deep, faithful_in. intros H Hs Hl. apply andb_prop in H as [_ H].
  rewrite Hs in H. rewrite forallb_forall in H.
  apply H. apply list_elem_of_In. eapply list_elem_of_lookup_2. exact Hl.
Qed.

Definition copier_spec (d : nat) (rec : value -> M cstate value) : Prop :=
  forall v s,
    inv s -> value_closed (length h0) v = true ->
    length h0 < d + length (st_cache s) ->
    exists v' s',
      rec v s = Some (v', s') /\ inv s' /\ extends s s' /\ result_ok d s v v' s'.

Lemma inv_length s : inv s -> length h0 <= length (st_heap s).
Proof.
  intros (Hl & _ & _). destruct (length h0) as [|n] eqn:E; [lia|].
  assert (Hn : n < length h0) by lia.
  assert (His : is_Some (st_heap s !! n)).
  { rewrite Hl; [|lia]. apply lookup_lt_is_Some. exact Hn. }
  apply lookup_lt_is_Some in His. lia.
Qed.

(** *** The loops that fill a clone *)

Section Loop.

Context {A : Type}.
Variable d : nat.
Variable g : A -> value.

(** The results of the calls of one loop: each is the value itself or an
    object newer than the results before it, and a clone. *)
Inductive chain (h : heap) : nat -> nat -> list A -> list value -> Prop :=
| chain_nil lo hi : lo <= hi -> chain h lo hi [] []
| chain_cons lo mid hi x xs v' vs' :
    lo <= mid ->
    kept_or_new lo mid (g x) v' ->
    (deep -> clone_of d h lo v' (g x)) ->
    chain h mid hi xs vs' ->
    chain h lo hi (x :: xs) (v' :: vs').

Lemma chain_copied h lo hi xs vs : chain h lo hi xs vs -> copied g lo hi xs vs.
Proof. induction 1; econstructor; eauto. Qed.

Lemma chain_length h lo hi xs vs : chain h lo hi xs vs -> length vs = length xs.
Proof. induction 1; simpl; congruence. Qed.

Lemma chain_stable h h' lo hi xs vs :
  (forall l, l < length h -> l < length h0 \/ lo <= l -> h' !! l = h !! l) ->
  chain h lo hi xs vs -> chain h' lo hi xs vs.
Proof.
  intros Hh Hch. induction Hch as [lo hi Hle|lo mid hi x xs v' vs' Hmid Hv Hcl Hch IH].
  - constructor. exact Hle.
  - econstructor; eauto.
    + intros Hd. eapply clone_of_stable; [|exact (Hcl Hd)]. exact Hh.
    + apply IH. intros l Hl [Hl0|Hl1]; apply Hh; auto. right; lia.
Qed.

Lemma chain_clones h lo lo' hi xs vs :
  lo' <= lo -> chain h lo hi xs vs ->
  Forall2 (fun x v' => deep -> clone_of d h lo' v' (g x)) xs vs.
Proof.
  intros Hlo Hch. induction Hch as [lo hi Hle|lo mid hi x xs v' vs' Hmid Hv Hcl Hch IH].
  - constructor.
  - constructor.
    + intros Hd. eapply clone_of_lower; [|exact (Hcl Hd)]. exact Hlo.
    + apply IH. lia.
Qed.

(** Each result with the value it was made from. *)
Lemma chain_slots h lo lo' hi hi' xs vs :
  lo' <= lo -> hi <= hi' -> chain h lo hi xs vs ->
  Forall2 (fun x v' => kept_or_new lo' hi' (g x) v' /\
                       (deep -> clone_of d h lo' v' (g x))) xs vs.
Proof.
  intros Hlo Hhi Hch.
  pose proof (copied_Forall2 _ _ _ _ _ (chain_copied _ _ _ _ _ Hch)) as Hk.
  pose proof (chain_clones _ _ lo' _ _ _ Hlo Hch) as Hc.
  clear Hch. induction Hk as [|x v' xs vs Hxv Hk IH]; inversion Hc; subst; constructor.
  - split; [|assumption]. eapply kept_or_new_wider; [| |exact Hxv]; lia.
  - apply IH. assumption.
Qed.

(** Distinct closed values have distinct results. *)
Lemma chain_NoDup h lo hi xs vs :
  length h0 <= lo ->
  Forall (fun x => value_closed (length h0) (g x) = true) xs ->
  NoDup (g <$> xs) ->
  chain h lo hi xs vs -> NoDup vs.
Proof.
  intros Hlo Hcl Hnd Hch. apply chain_copied in Hch.
  eapply copied_NoDup; [exact Hch| |exact Hnd].
  eapply Forall_impl; [exact Hcl|]. intros x. apply value_closed_mono. exact Hlo.
Qed.

Variable rec : value -> M cstate value.
Hypothesis Hrec : copier_spec d rec.
Variable c : loc.
Hypothesis Hc : length h0 <= c.

(** A step of a loop updates the clone at [c] with what was copied; [fin] is
    what an update that does not throw leaves. *)
Variable upd : A -> value -> obj -> completion obj.
Variable fin : A -> value -> obj -> obj.

Definition body (x : A) : M cstate unit :=
  let* v := rec (g x) in update c (upd x v).

Definition built (xs : list A) (vs : list value) (o : obj) : obj :=
  fold_left (fun o (xv : A * value) => fin xv.1 xv.2 o) (zip xs vs) o.

(** What keeps the updates from throwing: a condition on the clone and on what
    the loop still has to go through. *)
Variable J : list A -> obj -> Prop.
Hypothesis J_step : forall x xs v o,
  J (x :: xs) o -> upd x v o = Normal (fin x v o) /\ J xs (fin x v o).

Lemma loop_spec xs : forall rest t o,
  inv t ->
  st_heap t !! c = Some o ->
  J (xs ++ rest) o ->
  Forall (fun x => value_closed (length h0) (g x) = true) xs ->
  length h0 < d + length (st_cache t) ->
  exists t' vs,
    forEach body xs t = Some (tt, t') /\
    inv t' /\ frame_except c t t' /\
    st_heap t' !! c = Some (built xs vs o) /\
    chain (st_heap t') (length (st_heap t)) (length (st_heap t')) xs vs /\
    J rest (built xs vs o).
Proof.
  induction xs as [|x xs IH]; intros rest t o Hinv Hco HJ Hcl Hfuel.
  - exists t, []. simpl. split; [reflexivity|]. split; [exact Hinv|].
    split; [|split; [exact Hco|split; [constructor; lia|exact HJ]]].
    split; [lia|]. split; [auto|reflexivity].
  - apply Forall_cons in Hcl as [Hx Hcl].
    destruct (Hrec (g x) t Hinv Hx Hfuel)
      as (v' & t1 & Hrun & Hinv1 & (Hlen1 & Hfr1 & Hca1) & (Hshape & Hclone)).
    destruct (J_step x (xs ++ rest) v' o HJ) as [Hupd HJ'].
    assert (Hclt : c < length (st_heap t)) by (eapply lookup_lt_Some; eauto).
    assert (Hco1 : st_heap t1 !! c = Some o) by (rewrite Hfr1; auto).
    set (t2 := CState (<[c := fin x v' o]> (st_heap t1)) (st_cache t1)).
    assert (Hinv2 : inv t2).
    { destruct Hinv1 as (Hl & Hnd & Hfa). split; [|split; assumption].
      intros l Hl0. simpl. rewrite list_lookup_insert_ne by lia. auto. }
    assert (Hco2 : st_heap t2 !! c = Some (fin x v' o)).
    { simpl. apply list_lookup_insert_eq. lia. }
    assert (Hfuel2 : length h0 < d + length (st_cache t2)).
    { simpl. apply prefix_length in Hca1. lia. }
    destruct (IH rest t2 _ Hinv2 Hco2 HJ' Hcl Hfuel2)
      as (t' & vs & Hrun' & Hinv' & (Hlen' & Hfr' & Hca') & Hco' & Hch & HJend).
    assert (Hlen2 : length (st_heap t2) = length (st_heap t1))
      by (simpl; apply length_insert).
    exists t', (v' :: vs). split.
    { simpl. unfold bind at 1. unfold body at 1. unfold bind at 1.
      rewrite Hrun. unfold update. rewrite Hco1, Hupd. exact Hrun'. }
    split; [exact Hinv'|]. split; [|split; [|split]].
    + split; [lia|]. split.
      * intros l Hl Hne. rewrite Hfr' by lia. simpl.
        rewrite list_lookup_insert_ne by auto. apply Hfr1. exact Hl.
      * etrans; [exact Hca1|exact Hca'].
    + exact Hco'.
    + apply chain_cons with (mid := length (st_heap t2)).
      * lia.
      * eapply kept_or_new_wider; [| |exact Hshape]; lia.
      * intros Hd. apply clone_of_stable with (h := st_heap t1); [|exact (Hclone Hd)].
        intros l Hl Hr. rewrite Hfr' by lia. simpl.
        apply list_lookup_insert_ne. lia.
      * exact Hch.
    + exact HJend.
Qed.

End Loop.

(** A loop whose updates cannot throw. *)
Definition unconditional {A} (xs : list A) (o : obj) : Prop := True.

Lemma always_step {A} (f : A -> value -> obj -> obj) (x : A) (xs : list A) v o :
  unconditional (x :: xs) o -> always f x v o = Normal (f x v o) /\ unconditional xs (f x v o).
Proof. intros _. split; [reflexivity|exact I]. Qed.

(** *** Running a computation step by step *)

Lemma branch_true {X} (b : bool) (x y : X) : b = true -> (if b then x else y) = x.
Proof. intros ->. reflexivity. Qed.

Lemma branch_false {X} (b : bool) (x y : X) : b = false -> (if b then x else y) = y.
Proof. intros ->. reflexivity. Qed.

Lemma bind_run {S A B} (m : M S A) (f : A -> M S B) s a s1 r :
  m s = Some (a, s1) -> f a s1 = r -> bind m f s = r.
Proof. intros Hm Hf. unfold bind. rewrite Hm. exact Hf. Qed.

Lemma forEach_guard {S A} (keep : A -> bool) (f : A -> M S unit) xs : forall s,
  forEach (fun x => if keep x then f x else ret tt) xs s =
  forEach f (filter (fun x => keep x = true) xs) s.
Proof.
  induction xs as [|x xs IH]; intros s; [reflexivity|].
  simpl. destruct (keep x) eqn:E.
  - rewrite filter_cons_True by exact E. simpl. unfold bind.
    destruct (f x s) as [[[] s1]|]; [apply IH|reflexivity].
  - rewrite filter_cons_False by congruence. unfold bind. simpl. apply IH.
Qed.

Lemma alloc_inv s o : inv s -> inv (CState (st_heap s ++ [o]) (st_cache s)).
Proof.
  intros Hinv. pose proof (inv_length s Hinv) as Hlen.
  destruct Hinv as (Hl & Hnd & Hfa). split; [|split; assumption].
  intros l Hl0. simpl. rewrite lookup_app_l by lia. auto.
Qed.

Lemma add_inv s l :
  inv s -> l < length h0 -> l ∉ st_cache s ->
  inv (CState (st_heap s) (st_cache s ++ [l])).
Proof.
  intros (Hl & Hnd & Hfa) Hlt Hnotin. split; [exact Hl|]. simpl. split.
  - apply NoDup_app. split; [exact Hnd|]. split; [|apply NoDup_singleton].
    intros x Hx Hx'. apply list_elem_of_singleton in Hx'. subst. contradiction.
  - apply Forall_app. split; [exact Hfa|]. constructor; [exact Hlt|constructor].
Qed.

Lemma extends_refl s : extends s s.
Proof. split; [lia|]. split; [auto|reflexivity]. Qed.

Lemma extends_trans s1 s2 s3 : extends s1 s2 -> extends s2 s3 -> extends s1 s3.
Proof.
  intros (Hl1 & Hf1 & Hc1) (Hl2 & Hf2 & Hc2). split; [lia|]. split.
  - intros l Hl. rewrite Hf2 by lia. apply Hf1, Hl.
  - etrans; eassumption.
Qed.

(** A clone allocated at the end of the heap and filled by loops extends
    the state the allocation started from. *)
Lemma frame_extends s o t' :
  frame_except (length (st_heap s)) (CState (st_heap s ++ [o]) (st_cache s)) t' ->
  extends s t'.
Proof.
  intros (Hlen & Hfr & Hca). simpl in *. rewrite length_app in Hlen. simpl in Hlen.
  split; [lia|]. split; [|exact Hca].
  intros l Hl. rewrite Hfr.
  - apply lookup_app_l. exact Hl.
  - rewrite length_app. simpl. lia.
  - lia.
Qed.

Lemma frame_except_trans c s1 s2 s3 :
  frame_except c s1 s2 -> frame_except c s2 s3 -> frame_except c s1 s3.
Proof.
  intros (Hl1 & Hf1 & Hc1) (Hl2 & Hf2 & Hc2). split; [lia|]. split.
  - intros l Hl Hne. rewrite Hf2 by (auto; lia). apply Hf1; auto.
  - etrans; eassumption.
Qed.

Hypothesis Hwf : wf_heap h0 = true.

Lemma wf_lookup l o : h0 !! l = Some o -> wf_obj h0 o = true.
Proof.
  intros Hl. unfold wf_heap in Hwf. rewrite forallb_forall in Hwf.
  apply Hwf. apply list_elem_of_In. eapply list_elem_of_lookup_2. exact Hl.
Qed.

Lemma wf_values l o :
  h0 !! l = Some o ->
  Forall (fun v => value_closed (length h0) v = true) (obj_values o).
Proof.
  intros Hl. apply wf_lookup in Hl. unfold wf_obj in Hl.
  apply andb_prop in Hl as [Hl _]. apply andb_prop in Hl as [Hl _].
  rewrite forallb_forall in Hl. apply Forall_forall. intros v Hv.
  apply Hl. apply list_elem_of_In. exact Hv.
Qed.

Lemma wf_keys l o : h0 !! l = Some o -> keys_distinct o = true.
Proof.
  intros Hl. apply wf_lookup in Hl. unfold wf_obj in Hl.
  apply andb_prop in Hl as [_ Hl]. exact Hl.
Qed.

Lemma wf_props_closed l o (P : pkey * descriptor -> Prop) `{!forall x, Decision (P x)} :
  h0 !! l = Some o ->
  Forall (fun kd : pkey * descriptor => value_closed (length h0) (dvalue kd.2) = true)
         (filter P (props o)).
Proof.
  intros Hl. apply wf_values in Hl. unfold obj_values in Hl.
  apply Forall_app in Hl as [Hl _]. apply Forall_fmap in Hl.
  apply Forall_forall. intros x Hx. apply list_elem_of_filter in Hx as [_ Hx].
  rewrite Forall_forall in Hl. apply (Hl x Hx).
Qed.

Lemma wf_props_NoDup l o : h0 !! l = Some o -> NoDup (props o).*1.
Proof.
  intros Hl. apply wf_keys in Hl. unfold keys_distinct in Hl.
  apply andb_prop in Hl as [Hl _]. apply bool_decide_eq_true in Hl. exact Hl.
Qed.

(** *** Plain and custom-constructed objects *)

Lemma built_props (xs : list (pkey * descriptor)) vs c ps :
  built (fun kd v => set_property kd.1 v) xs vs (Obj c ps) =
  Obj c (fold_left (fun ps (xv : (pkey * descriptor) * value) => assign ps xv.1.1 xv.2)
                   (zip xs vs) ps).
Proof.
  unfold built. revert ps. induction (zip xs vs) as [|xv l IH]; intros ps; simpl.
  - reflexivity.
  - unfold set_property at 2. simpl. apply IH.
Qed.

Lemma imap_snd (elems : list value) : forall (F : nat -> nat),
  (imap (fun i x => (F i, x)) elems).*2 = elems.
Proof.
  induction elems as [|x elems IH]; intros F; [reflexivity|].
  simpl. f_equal. apply (IH (F ∘ S)).
Qed.

Lemma built_elements (xs : list (nat * value)) vs acc ps :
  built (fun ix v => set_index ix.1 v) xs vs (Obj (ClsArray acc) ps) =
  Obj (ClsArray (fold_left (fun acc (xv : (nat * value) * value) =>
                              array_assign acc xv.1.1 xv.2) (zip xs vs) acc)) ps.
Proof.
  unfold built. revert acc. induction (zip xs vs) as [|xv l IH]; intros acc; simpl.
  - reflexivity.
  - unfold set_index at 2. simpl. apply IH.
Qed.

Lemma Forall2_indexed (P : value -> value -> Prop) (elems vs : list value) :
  Forall2 (fun (ix : nat * value) v' => P ix.2 v') (imap (fun i x => (i, x)) elems) vs ->
  Forall2 P elems vs.
Proof. intros H. rewrite <- (imap_snd elems id). apply Forall2_fmap_l. exact H. Qed.

Lemma built_defined (xs : list (pkey * descriptor)) vs c ps :
  built (fun kd v => define_property kd.1 (with_value kd.2 v)) xs vs (Obj c ps) =
  Obj c (fold_left (fun ps (xv : (pkey * descriptor) * value) =>
                      defineProperty ps xv.1.1 (with_value xv.1.2 xv.2))
                   (zip xs vs) ps).
Proof.
  unfold built. revert ps. induction (zip xs vs) as [|xv l IH]; intros ps; simpl.
  - reflexivity.
  - unfold define_property at 2. simpl. apply IH.
Qed.

(** The clean clone of an object once its elements are in place. *)
Lemma built_indexed o vs :
  ordinary (cls o) \/ is_array o = true ->
  length vs = length (indexed_elements o) ->
  with_length o (built (fun (ix : nat * value) v => set_index ix.1 v) (indexed_elements o) vs
                   (Obj (blank (cls o)) [])) =
  Obj (with_elements (cls o) vs) [].
Proof.
  intros Hc Hlen. unfold with_length, is_array, indexed_elements in *.
  destruct (cls o) eqn:E;
    try (destruct vs; [reflexivity|discriminate Hlen]);
    try (exfalso; destruct Hc as [[H| [H|(k & n & H)]]|H]; discriminate H).
  rewrite length_imap in Hlen. cbn [blank with_elements].
  rewrite built_elements.
  rewrite (fold_array_assign elems (fun i x => (i, x)) vs []) by (auto; intros; reflexivity).
  simpl. rewrite length_imap. apply set_length_full. exact Hlen.
Qed.

Lemma obj_equal_ordinary (R : value -> value -> Prop) h c ps o :
  ordinary c -> cls o = c ->
  props_equal R ps (props o) -> obj_equal R h (Obj c ps) o.
Proof.
  intros Hc Ho Hp. unfold obj_equal. simpl. rewrite Ho.
  split; [reflexivity|].
  destruct Hc as [->| [->|(k & n & ->)]]; exact Hp.
Qed.

Lemma loose_keys_in_props ps kd : kd ∈ loose_keys ps -> kd.1 ∈ ps.*1.
Proof.
  intros Hin. apply loose_keys_elem in Hin. apply list_elem_of_filter in Hin as [_ Hin].
  apply list_elem_of_fmap. exists kd. auto.
Qed.

Lemma getObjectCloneLoose_spec d rec l o s :
  copier_spec d rec ->
  inv s -> h0 !! l = Some o -> ordinary (cls o) -> tame_obj isStrict h0 o = true ->
  length h0 < d + length (st_cache s) ->
  exists s' vs,
    getObjectCloneLoose l rec s = Some (VObject (length (st_heap s)), s') /\
    inv s' /\ extends s s' /\ length (st_heap s) < length (st_heap s') /\
    st_heap s' !! length (st_heap s) =
      Some (Obj (cls o) (zip_with copied_property (loose_keys (props o)) vs)) /\
    Forall2 (fun (kd : pkey * descriptor) v' => slot d s s' (dvalue kd.2) v')
            (loose_keys (props o)) vs /\
    (deep -> clone_of (S d) (st_heap s') (length (st_heap s))
                      (VObject (length (st_heap s))) (VObject l)).
Proof.
  intros Hrec Hinv Hl Hord Htame Hfuel.
  assert (Hlt : l < length h0) by (eapply lookup_lt_Some; eauto).
  assert (Hls : st_heap s !! l = Some o) by (destruct Hinv as (Hh & _); rewrite Hh; auto).
  pose proof (inv_length s Hinv) as Hn0.
  pose proof (getCleanClone_ordinary _ _ _ Htame Hord) as Hclean.
  set (c := length (st_heap s)).
  set (t := CState (st_heap s ++ [Obj (cls o) []]) (st_cache s)).
  assert (Hinvt : inv t) by (apply alloc_inv; exact Hinv).
  assert (Hlent : length (st_heap t) = S c).
  { unfold t, c. simpl. rewrite length_app. simpl. lia. }
  assert (Hct : st_heap t !! c = Some (Obj (cls o) [])).
  { simpl. rewrite lookup_app_r by (unfold c; lia).
    unfold c. rewrite Nat.sub_diag. reflexivity. }
  set (P1 := filter (fun kd : pkey * descriptor => enumerable kd.2 = true)
                    (getOwnPropertyNames (props o))).
  set (P2 := filter (fun kd : pkey * descriptor => enumerable kd.2 = true)
                    (getOwnPropertySymbols (props o))).
  assert (Hcl1 : Forall (fun kd : pkey * descriptor =>
                           value_closed (length h0) (dvalue kd.2) = true) P1).
  { unfold P1, getOwnPropertyNames. rewrite list_filter_filter.
    eapply wf_props_closed. exact Hl. }
  assert (Hcl2 : Forall (fun kd : pkey * descriptor =>
                           value_closed (length h0) (dvalue kd.2) = true) P2).
  { unfold P2, getOwnPropertySymbols. rewrite list_filter_filter.
    eapply wf_props_closed. exact Hl. }
  pose proof (wf_props_NoDup _ _ Hl) as Hnd.
  pose proof (loose_keys_NoDup _ Hnd) as Hnd'.
  assert (HJ : settable (P1 ++ P2) (Obj (cls o) [])).
  { apply settable_nil; [exact Hnd'|]. apply Forall_forall. intros kd Hkd Heq.
    apply (tame_no_key _ _ _ "__proto__" Htame); [right; reflexivity|].
    rewrite <- Heq. apply loose_keys_in_props. exact Hkd. }
  unfold loose_keys in Hnd'. fold P1 P2 in Hnd'. rewrite fmap_app in Hnd'.
  destruct (loop_spec d (fun kd : pkey * descriptor => dvalue kd.2)
              rec Hrec c ltac:(unfold c; lia)
              (fun kd v => put kd.1 v) (fun kd v => set_property kd.1 v)
              settable settable_step P1 P2 t _ Hinvt Hct HJ Hcl1 Hfuel)
    as (t1 & vs1 & Hrun1 & Hinv1 & Hfr1 & Hc1 & Hch1 & HJ1).
  assert (Hfuel1 : length h0 < d + length (st_cache t1)).
  { destruct Hfr1 as (_ & _ & Hca). apply prefix_length in Hca. simpl in Hca. lia. }
  rewrite <- (app_nil_r P2) in HJ1.
  destruct (loop_spec d (fun kd : pkey * descriptor => dvalue kd.2)
              rec Hrec c ltac:(unfold c; lia)
              (fun kd v => put kd.1 v) (fun kd v => set_property kd.1 v)
              settable settable_step P2 [] t1 _ Hinv1 Hc1 HJ1 Hcl2 Hfuel1)
    as (t2 & vs2 & Hrun2 & Hinv2 & Hfr2 & Hc2 & Hch2 & _).
  pose proof (frame_except_trans _ _ _ _ Hfr1 Hfr2) as Hfr.
  pose proof (chain_length _ _ _ _ _ _ _ Hch1) as Hlen1.
  pose proof (chain_length _ _ _ _ _ _ _ Hch2) as Hlen2.
  pose proof Hfr1 as (Hle1 & _). pose proof Hfr2 as (Hle2 & _).
  (* what the clone holds *)
  assert (Hshape : st_heap t2 !! c =
            Some (Obj (cls o) (zip_with copied_property (loose_keys (props o)) (vs1 ++ vs2)))).
  { rewrite Hc2, !built_props. do 2 f_equal.
    rewrite (fold_assign P1 vs1 []);
      [|simpl; apply NoDup_app in Hnd' as (H1 & _ & _); exact H1|exact Hlen1].
    simpl. rewrite (fold_assign P2 vs2);
      [|rewrite zip_with_copied_keys by exact Hlen1; exact Hnd'|exact Hlen2].
    unfold loose_keys. fold P1 P2.
    rewrite <- zip_with_app by (symmetry; exact Hlen1). reflexivity. }
  assert (Hslots : Forall2 (fun (kd : pkey * descriptor) v' =>
                              kept_or_new (S c) (length (st_heap t2)) (dvalue kd.2) v' /\
                              (deep -> clone_of d (st_heap t2) (S c) v' (dvalue kd.2)))
                           (loose_keys (props o)) (vs1 ++ vs2)).
  { unfold loose_keys. fold P1 P2. apply Forall2_app.
    - apply chain_stable with (h' := st_heap t2) in Hch1.
      + eapply chain_slots; [| |exact Hch1]; lia.
      + intros l' Hl' Hr. destruct Hfr2 as (_ & Hf & _). apply Hf; [exact Hl'|]. lia.
    - eapply chain_slots; [| |exact Hch2]; lia. }
  exists t2, (vs1 ++ vs2). split; [|split; [exact Hinv2|split; [|split; [|split; [|split]]]]].
  - unfold getObjectCloneLoose.
    eapply bind_run; [unfold load; rewrite Hls; reflexivity|].
    eapply bind_run; [rewrite Hclean; reflexivity|].
    eapply bind_run; [reflexivity|].
    eapply bind_run; [exact Hrun1|].
    eapply bind_run; [exact Hrun2|]. reflexivity.
  - eapply frame_extends. exact Hfr.
  - destruct Hfr as (Hlen & _). fold c. lia.
  - exact Hshape.
  - exact Hslots.
  - intros Hd. simpl.
    assert (Hl2 : st_heap t2 !! l = Some o)
      by (destruct Hinv2 as (Hh & _); rewrite Hh; auto).
    eapply clone_node; [reflexivity|exact Hlt|exact Hshape|exact Hl2| | |].
    + unfold view_in. simpl. destruct Hord as [->| [->|(k & n & ->)]]; exact I.
    + unfold view_in. destruct Hord as [->| [->|(k & n & ->)]]; exact I.
    + apply obj_equal_ordinary; [exact Hord|reflexivity|].
      apply props_equal_clone; [exact Hnd|].
      eapply Forall2_impl; [exact Hslots|].
      intros kd v' [_ H]. eapply clone_of_lower; [|exact (H Hd)]. unfold c. lia.
Qed.

Lemma imap_closed (elems : list value) :
  Forall (fun v => value_closed (length h0) v = true) elems ->
  Forall (fun ix : nat * value => value_closed (length h0) ix.2 = true)
         (imap (fun i x => (i, x)) elems).
Proof.
  intros Hcl. apply Forall_lookup. intros i [j x] Hi.
  rewrite list_lookup_imap in Hi.
  destruct (elems !! i) as [y|] eqn:E; [|discriminate].
  simpl in Hi. injection Hi as <- <-. simpl.
  rewrite Forall_lookup in Hcl. exact (Hcl i y E).
Qed.

Lemma wf_elements l o :
  h0 !! l = Some o ->
  Forall (fun ix : nat * value => value_closed (length h0) ix.2 = true)
         (indexed_elements o).
Proof.
  intros Hl. apply wf_values in Hl. unfold obj_values in Hl.
  apply Forall_app in Hl as [_ Hl]. unfold indexed_elements.
  destruct (cls o); try constructor. apply imap_closed, Hl.
Qed.

Lemma built_index_props (xs : list (nat * value)) vs o :
  props (built (fun (ix : nat * value) v => set_index ix.1 v) xs vs o) = props o.
Proof.
  unfold built. revert o. induction (zip xs vs) as [|xv L IH]; intros o; [reflexivity|].
  simpl. rewrite IH. unfold set_index. destruct (cls o); reflexivity.
Qed.

Lemma set_length_props n o : props (set_length n o) = props o.
Proof. unfold set_length. destruct (cls o); reflexivity. Qed.

Lemma getObjectCloneStrict_spec d rec l o s :
  copier_spec d rec ->
  inv s -> h0 !! l = Some o -> ordinary (cls o) \/ is_array o = true ->
  isStrict = true -> tame_obj isStrict h0 o = true ->
  length h0 < d + length (st_cache s) ->
  exists s' vs ws,
    getObjectCloneStrict l rec s = Some (VObject (length (st_heap s)), s') /\
    inv s' /\ extends s s' /\ length (st_heap s) < length (st_heap s') /\
    st_heap s' !! length (st_heap s) =
      Some (Obj (with_elements (cls o) vs)
                (zip_with strict_property (strict_keys (props o)) ws)) /\
    Forall2 (fun (ix : nat * value) v' => slot d s s' ix.2 v') (indexed_elements o) vs /\
    Forall2 (fun (kd : pkey * descriptor) v' => slot d s s' (dvalue kd.2) v')
            (strict_keys (props o)) ws /\
    (deep -> clone_of (S d) (st_heap s') (length (st_heap s))
                      (VObject (length (st_heap s))) (VObject l)).
Proof.
  intros Hrec Hinv Hl Hcls Hstrict Htame Hfuel.
  assert (Hlt : l < length h0) by (eapply lookup_lt_Some; eauto).
  assert (Hls : st_heap s !! l = Some o) by (destruct Hinv as (Hh & _); rewrite Hh; auto).
  pose proof (inv_length s Hinv) as Hn0.
  pose proof (getCleanClone_tame _ _ _ Htame Hcls) as Hclean.
  set (clean := Obj (blank (cls o)) []) in *.
  set (c := length (st_heap s)).
  set (t := CState (st_heap s ++ [clean]) (st_cache s)).
  assert (Hinvt : inv t) by (apply alloc_inv; exact Hinv).
  assert (Hlent : length (st_heap t) = S c).
  { unfold t, c. simpl. rewrite length_app. simpl. lia. }
  assert (Hct : st_heap t !! c = Some clean).
  { simpl. rewrite lookup_app_r by (unfold c; lia).
    unfold c. rewrite Nat.sub_diag. reflexivity. }
  (* the indices *)
  destruct (loop_spec d (fun ix : nat * value => ix.2)
              rec Hrec c ltac:(unfold c; lia)
              (always (fun ix v => set_index ix.1 v)) (fun ix v => set_index ix.1 v)
              unconditional (always_step _) (indexed_elements o) [] t _
              Hinvt Hct I (wf_elements _ _ Hl) Hfuel)
    as (t1 & vs1 & Hrun1 & Hinv1 & Hfr1 & Hc1 & Hch1 & _).
  assert (Hfuel1 : length h0 < d + length (st_cache t1)).
  { destruct Hfr1 as (_ & _ & Hca). apply prefix_length in Hca. simpl in Hca. lia. }
  set (o1 := built (fun (ix : nat * value) v => set_index ix.1 v) (indexed_elements o) vs1 clean)
    in *.
  (* length *)
  assert (Hmid : exists t2,
             (if is_array o
              then let* v := rec (VNumber (Z.of_nat (length (indexed_elements o)))) in
                   modify c (set_length (length (indexed_elements o)))
              else ret tt) t1 = Some (tt, t2) /\
             inv t2 /\ frame_except c t1 t2 /\ st_heap t2 !! c = Some (with_length o o1)).
  { unfold with_length. destruct (is_array o).
    - destruct (Hrec (VNumber (Z.of_nat (length (indexed_elements o)))) t1 Hinv1
                  eq_refl Hfuel1)
        as (v' & t1' & Hrun & Hinv1' & (Hlen1' & Hfr1' & Hca1') & _).
      assert (Hclt : c < length (st_heap t1)) by (eapply lookup_lt_Some; eauto).
      eexists (CState (<[c := _]> (st_heap t1')) (st_cache t1')).
      split; [|split; [|split]].
      + eapply bind_run; [exact Hrun|]. unfold modify, update.
        rewrite Hfr1' by exact Hclt. rewrite Hc1. reflexivity.
      + destruct Hinv1' as (Hh & Hnd & Hfa). split; [|split; assumption].
        intros l' Hl'. simpl. rewrite list_lookup_insert_ne by (unfold c; lia). auto.
      + split; [simpl; rewrite length_insert; lia|]. split; [|exact Hca1'].
        intros l' Hl' Hne. simpl. rewrite list_lookup_insert_ne by auto.
        apply Hfr1'. exact Hl'.
      + simpl. apply list_lookup_insert_eq. lia.
    - exists t1. split; [reflexivity|]. split; [exact Hinv1|].
      split; [|exact Hc1].
      split; [lia|]. split; [auto|reflexivity]. }
  destruct Hmid as (t2 & Hrun2 & Hinv2 & Hfr2 & Hc2).
  assert (Hfuel2 : length h0 < d + length (st_cache t2)).
  { destruct Hfr2 as (_ & _ & Hca). apply prefix_length in Hca. lia. }
  pose proof (chain_length _ _ _ _ _ _ _ Hch1) as Hlen1.
  unfold o1, clean in Hc2. rewrite (built_indexed o vs1 Hcls Hlen1) in Hc2.
  (* the other properties *)
  set (P := filter (fun kd : pkey * descriptor =>
                      bool_decide (kd.1 <> KString "callee" /\ kd.1 <> KString "caller") = true)
                   (getOwnPropertyNames (props o) ++ getOwnPropertySymbols (props o))).
  assert (Hcl3 : Forall (fun kd : pkey * descriptor =>
                           value_closed (length h0) (dvalue kd.2) = true) P).
  { unfold P. rewrite filter_app. unfold getOwnPropertyNames, getOwnPropertySymbols.
    rewrite !list_filter_filter. apply Forall_app.
    split; eapply wf_props_closed; exact Hl. }
  pose proof (wf_props_NoDup _ _ Hl) as Hnd.
  assert (HndP : NoDup P.*1) by (apply (strict_keys_NoDup (props o)); exact Hnd).
  assert (HJ : definable (P ++ []) (Obj (with_elements (cls o) vs1) [])).
  { rewrite app_nil_r. apply definable_nil; [reflexivity|exact HndP|].
    apply tame_parts in Htame as (_ & _ & Ha & _). specialize (Ha Hstrict).
    rewrite Forall_forall in Ha. apply Forall_forall. intros kd Hkd.
    apply Ha. apply strict_keys_in_props. exact Hkd. }
  destruct (loop_spec d (fun kd : pkey * descriptor => dvalue kd.2)
              rec Hrec c ltac:(unfold c; lia)
              (fun kd v => define kd.1 (with_value kd.2 v))
              (fun kd v => define_property kd.1 (with_value kd.2 v))
              definable definable_step P [] t2 _ Hinv2 Hc2 HJ Hcl3 Hfuel2)
    as (t3 & vs3 & Hrun3 & Hinv3 & Hfr3 & Hc3 & Hch3 & _).
  pose proof (chain_length _ _ _ _ _ _ _ Hch3) as Hlen3.
  pose proof (frame_except_trans _ _ _ _ Hfr2 Hfr3) as Hfr23.
  pose proof (frame_except_trans _ _ _ _ Hfr1 Hfr23) as Hfr.
  pose proof Hfr1 as (Hle1 & _). pose proof Hfr2 as (Hle2 & _). pose proof Hfr3 as (Hle3 & _).
  assert (Hshape : st_heap t3 !! c =
            Some (Obj (with_elements (cls o) vs1) (zip_with strict_property P vs3))).
  { rewrite Hc3, built_defined. do 2 f_equal.
    apply (fold_defineProperty P vs3 []); [exact HndP|exact Hlen3]. }
  assert (Hslots1 : Forall2 (fun (ix : nat * value) v' =>
                               kept_or_new (S c) (length (st_heap t3)) ix.2 v' /\
                               (deep -> clone_of d (st_heap t3) (S c) v' ix.2))
                            (indexed_elements o) vs1).
  { apply chain_stable with (h' := st_heap t3) in Hch1.
    - eapply chain_slots; [| |exact Hch1]; lia.
    - intros l' Hl' Hr. destruct Hfr23 as (_ & Hf & _). apply Hf; [exact Hl'|]. lia. }
  assert (Hslots3 : Forall2 (fun (kd : pkey * descriptor) v' =>
                               kept_or_new (S c) (length (st_heap t3)) (dvalue kd.2) v' /\
                               (deep -> clone_of d (st_heap t3) (S c) v' (dvalue kd.2)))
                            P vs3).
  { eapply chain_slots; [| |exact Hch3]; lia. }
  exists t3, vs1, vs3.
  split; [|split; [exact Hinv3|split; [|split; [|split; [|split; [|split]]]]]].
  - unfold getObjectCloneStrict.
    eapply bind_run; [unfold load; rewrite Hls; reflexivity|].
    eapply bind_run; [rewrite Hclean; reflexivity|].
    eapply bind_run; [reflexivity|].
    eapply bind_run; [exact Hrun1|].
    eapply bind_run; [exact Hrun2|].
    eapply bind_run; [rewrite forEach_guard; exact Hrun3|]. reflexivity.
  - eapply frame_extends. exact Hfr.
  - destruct Hfr as (Hlen & _). fold c. lia.
  - exact Hshape.
  - exact Hslots1.
  - exact Hslots3.
  - intros Hd. simpl.
    assert (Hl3 : st_heap t3 !! l = Some o)
      by (destruct Hinv3 as (Hh & _); rewrite Hh; auto).
    assert (Hnoview : forall vs ps (Q : loc -> Prop) h,
               view_in Q h (Obj (with_elements (cls o) vs) ps)).
    { intros vs ps Q h. unfold view_in, is_array in *. simpl.
      destruct Hcls as [[->| [->|(k & n & ->)]]|Ha]; try exact I.
      destruct (cls o); try discriminate Ha. exact I. }
    eapply clone_node; [reflexivity|exact Hlt|exact Hshape|exact Hl3|apply Hnoview| |].
    + unfold view_in, is_array in *.
      destruct Hcls as [[->| [->|(k & n & ->)]]|Ha]; try exact I.
      destruct (cls o); try discriminate Ha. exact I.
    + destruct Hcls as [Hord|Harr].
      * assert (Hsame : with_elements (cls o) vs1 = cls o)
          by (destruct Hord as [->| [->|(k & n & ->)]]; reflexivity).
        rewrite Hsame. apply obj_equal_ordinary; [exact Hord|reflexivity|].
        apply props_equal_strict; [exact Hnd|eapply deep_keeps_keys; eauto|].
        eapply Forall2_impl; [exact Hslots3|].
        intros kd v' [_ H]. eapply clone_of_lower; [|exact (H Hd)]. unfold c. lia.
      * unfold is_array in Harr. destruct (cls o) eqn:Ho; try discriminate Harr.
        unfold obj_equal. simpl. rewrite Ho. split; [reflexivity|].
        unfold indexed_elements in Hslots1. rewrite Ho in Hslots1.
        apply Forall2_flip. rewrite <- (imap_snd elems id) at 1.
        apply Forall2_fmap_l. eapply Forall2_impl; [exact Hslots1|].
        intros ix v' [_ H]. eapply clone_of_lower; [|exact (H Hd)]. unfold c. lia.
Qed.

(** *** The recursion *)

Lemma cache_bound (cache : list loc) :
  NoDup cache -> Forall (fun l => l < length h0) cache -> length cache <= length h0.
Proof.
  intros Hnd Hfa.
  assert (Hsub : cache ⊆+ seq 0 (length h0)).
  { apply NoDup_submseteq; [exact Hnd|]. intros x Hx.
    rewrite Forall_forall in Hfa. apply elem_of_seq. specialize (Hfa x Hx). lia. }
  apply submseteq_length in Hsub. rewrite length_seq in Hsub. exact Hsub.
Qed.

Lemma add_fuel d s l :
  inv s -> l < length h0 -> l ∉ st_cache s ->
  length h0 < S d + length (st_cache s) ->
  length h0 < d + length (st_cache (CState (st_heap s) (st_cache s ++ [l]))).
Proof. intros. simpl. rewrite length_app. simpl. lia. Qed.

Lemma add_extends s l s' :
  extends (CState (st_heap s) (st_cache s ++ [l])) s' -> extends s s'.
Proof.
  intros (Hlen & Hfr & Hca). simpl in *. split; [exact Hlen|]. split; [exact Hfr|].
  etrans; [|exact Hca]. apply prefix_app_r. reflexivity.
Qed.

Lemma alloc_extends s o : extends s (CState (st_heap s ++ [o]) (st_cache s)).
Proof.
  split; [simpl; rewrite length_app; lia|]. split; [|reflexivity].
  intros l Hl. simpl. apply lookup_app_l. exact Hl.
Qed.

(** An object that is returned as it is. *)
Lemma returned_spec d (v : value) s :
  inv s -> exists v' s', ret v s = Some (v', s') /\ inv s' /\ extends s s' /\ result_ok d s v v' s'.
Proof.
  intros Hinv. exists v, s. split; [reflexivity|]. split; [exact Hinv|].
  split; [apply extends_refl|]. split; [left; reflexivity|].
  intros _. destruct d; left; reflexivity.
Qed.

(** An object cloned by [getObjectClone] after it entered the cache. *)
Lemma mode_cases : isStrict = true \/ isStrict = false.
Proof. destruct isStrict; auto. Qed.

Lemma new_result d s l s' :
  length (st_heap s) < length (st_heap s') ->
  (deep -> clone_of (S d) (st_heap s') (length (st_heap s))
                    (VObject (length (st_heap s))) (VObject l)) ->
  result_ok (S d) s (VObject l) (VObject (length (st_heap s))) s'.
Proof. intros Hlen Hclone. split; [apply new_here; lia|exact Hclone]. Qed.

Lemma cloned_spec d l o s :
  copier_spec d (handleCopy d isStrict) ->
  inv s -> h0 !! l = Some o -> l ∉ st_cache s ->
  ordinary (cls o) -> tame_obj isStrict h0 o = true ->
  length h0 < S d + length (st_cache s) ->
  exists v' s',
    (cache_add l ;; getObjectClone isStrict l (handleCopy d isStrict)) s = Some (v', s') /\
    inv s' /\ extends s s' /\ result_ok (S d) s (VObject l) v' s'.
Proof.
  intros Hrec Hinv Hl Hnew Hord Htame Hfuel.
  assert (Hlt : l < length h0) by (eapply lookup_lt_Some; eauto).
  pose proof (add_inv s l Hinv Hlt Hnew) as Hinv1.
  pose proof (add_fuel d s l Hinv Hlt Hnew Hfuel) as Hfuel1.
  destruct mode_cases as [Hstrict|Hstrict].
  - destruct (getObjectCloneStrict_spec d _ l o _ Hrec Hinv1 Hl (or_introl Hord)
                Hstrict Htame Hfuel1)
      as (s' & vs & ws & Hrun & Hinv' & Hext & Hlen & _ & _ & _ & Hclone).
    exists (VObject (length (st_heap s))), s'.
    split; [eapply bind_run; [reflexivity|];
            unfold getObjectClone; rewrite (branch_true _ _ _ Hstrict); exact Hrun|].
    split; [exact Hinv'|]. split; [eapply add_extends; exact Hext|].
    apply new_result; [exact Hlen|exact Hclone].
  - destruct (getObjectCloneLoose_spec d _ l o _ Hrec Hinv1 Hl Hord Htame Hfuel1)
      as (s' & vs & Hrun & Hinv' & Hext & Hlen & _ & _ & Hclone).
    exists (VObject (length (st_heap s))), s'.
    split; [eapply bind_run; [reflexivity|];
            unfold getObjectClone; rewrite (branch_false _ _ _ Hstrict); exact Hrun|].
    split; [exact Hinv'|]. split; [eapply add_extends; exact Hext|].
    apply new_result; [exact Hlen|exact Hclone].
Qed.




(** An array, in either mode. *)
Lemma array_loose_spec d l o elems s :
  copier_spec d (handleCopy d isStrict) ->
  inv s -> h0 !! l = Some o -> cls o = ClsArray elems -> l ∉ st_cache s ->
  tame_obj isStrict h0 o = true ->
  length h0 < S d + length (st_cache s) ->
  exists s' vs,
    (cache_add l ;;
     complete_with (construct o) ;;
     let* clone := alloc (Obj (ClsArray []) []) in
     forEach (fun ix : nat * value =>
                let* v := handleCopy d isStrict ix.2 in
                modify clone (set_index ix.1 v))
             (imap (fun i x => (i, x)) elems) ;;
     ret (VObject clone)) s = Some (VObject (length (st_heap s)), s') /\
    inv s' /\ extends s s' /\ length (st_heap s) < length (st_heap s') /\
    st_heap s' !! length (st_heap s) = Some (Obj (ClsArray vs) []) /\
    Forall2 (slot d s s') elems vs /\
    (deep -> clone_of (S d) (st_heap s') (length (st_heap s))
                      (VObject (length (st_heap s))) (VObject l)).
Proof.
  intros Hrec Hinv Hl Hcls Hnew Htame Hfuel.
  assert (Hlt : l < length h0) by (eapply lookup_lt_Some; eauto).
  pose proof (add_inv s l Hinv Hlt Hnew) as Hinv1.
  pose proof (add_fuel d s l Hinv Hlt Hnew Hfuel) as Hfuel1.
  pose proof (construct_tame _ _ _ Htame) as Hnew_ok.
  pose proof (inv_length s Hinv) as Hn0.
  set (c := length (st_heap s)).
  set (s1 := CState (st_heap s) (st_cache s ++ [l])) in *.
  set (t := CState (st_heap s1 ++ [Obj (ClsArray []) []]) (st_cache s1)).
  assert (Hinvt : inv t) by (apply alloc_inv; exact Hinv1).
  assert (Hlent : length (st_heap t) = S c).
  { unfold t, c. simpl. rewrite length_app. simpl. lia. }
  assert (Hct : st_heap t !! c = Some (Obj (ClsArray []) [])).
  { simpl. rewrite lookup_app_r by (unfold c; lia).
    unfold c. rewrite Nat.sub_diag. reflexivity. }
  assert (Hcl : Forall (fun ix : nat * value => value_closed (length h0) ix.2 = true)
                       (imap (fun i x => (i, x)) elems)).
  { pose proof (wf_elements _ _ Hl) as H. unfold indexed_elements in H.
    rewrite Hcls in H. exact H. }
  destruct (loop_spec d (fun ix : nat * value => ix.2)
              _ Hrec c ltac:(unfold c; lia)
              (always (fun ix v => set_index ix.1 v)) (fun ix v => set_index ix.1 v)
              unconditional (always_step _) _ [] t _ Hinvt Hct I Hcl Hfuel1)
    as (t1 & vs & Hrun1 & Hinv1' & Hfr1 & Hc1 & Hch1 & _).
  pose proof (chain_length _ _ _ _ _ _ _ Hch1) as Hlen1.
  rewrite length_imap in Hlen1.
  rewrite built_elements in Hc1.
  rewrite (fold_array_assign elems (fun i x => (i, x)) vs []) in Hc1
    by (auto; intros; reflexivity).
  simpl in Hc1.
  assert (Hslots : Forall2 (slot d s t1) elems vs).
  { apply Forall2_indexed. eapply chain_slots; [| |exact Hch1]; [rewrite Hlent; unfold c; lia|lia]. }
  exists t1, vs.
  split; [eapply bind_run; [reflexivity|];
          eapply bind_run; [rewrite Hnew_ok; reflexivity|];
          eapply bind_run; [reflexivity|];
          eapply bind_run; [exact Hrun1|]; reflexivity|].
  split; [exact Hinv1'|].
  split; [eapply add_extends, frame_extends; exact Hfr1|].
  split; [destruct Hfr1 as (Hlen & _); fold c; lia|].
  split; [exact Hc1|]. split; [exact Hslots|].
  intros Hd.
  assert (Hl1 : st_heap t1 !! l = Some o)
    by (destruct Hinv1' as (Hh & _); rewrite Hh; auto).
  eapply clone_node; [reflexivity|exact Hlt|exact Hc1|exact Hl1|exact I| |].
  + unfold view_in. rewrite Hcls. exact I.
  + unfold obj_equal. simpl. rewrite Hcls. split; [reflexivity|].
    apply Forall2_flip. eapply Forall2_impl; [exact Hslots|].
    intros x v' [_ H]. eapply clone_of_lower; [|exact (H Hd)]. lia.
Qed.

(** An array, in either mode. *)
Lemma array_spec d l o elems s :
  copier_spec d (handleCopy d isStrict) ->
  inv s -> h0 !! l = Some o -> cls o = ClsArray elems -> l ∉ st_cache s ->
  tame_obj isStrict h0 o = true ->
  length h0 < S d + length (st_cache s) ->
  exists v' s',
    (cache_add l ;;
     if isStrict then getObjectCloneStrict l (handleCopy d isStrict)
     else
       complete_with (construct o) ;;
       let* clone := alloc (Obj (ClsArray []) []) in
       forEach (fun ix : nat * value =>
                  let* v := handleCopy d isStrict ix.2 in
                  modify clone (set_index ix.1 v))
               (imap (fun i x => (i, x)) elems) ;;
       ret (VObject clone)) s = Some (v', s') /\
    inv s' /\ extends s s' /\ result_ok (S d) s (VObject l) v' s'.
Proof.
  intros Hrec Hinv Hl Hcls Hnew Htame Hfuel.
  assert (Hlt : l < length h0) by (eapply lookup_lt_Some; eauto).
  destruct mode_cases as [Hstrict|Hstrict].
  - pose proof (add_inv s l Hinv Hlt Hnew) as Hinv1.
    pose proof (add_fuel d s l Hinv Hlt Hnew Hfuel) as Hfuel1.
    assert (Harr : is_array o = true) by (unfold is_array; rewrite Hcls; reflexivity).
    destruct (getObjectCloneStrict_spec d _ l o _ Hrec Hinv1 Hl (or_intror Harr)
                Hstrict Htame Hfuel1)
      as (s' & vs & ws & Hrun & Hinv' & Hext & Hlen & _ & _ & _ & Hclone).
    exists (VObject (length (st_heap s))), s'.
    split; [eapply bind_run; [reflexivity|];
            rewrite (branch_true _ _ _ Hstrict); exact Hrun|].
    split; [exact Hinv'|]. split; [eapply add_extends; exact Hext|].
    apply new_result; [exact Hlen|exact Hclone].
  - destruct (array_loose_spec d l o elems s Hrec Hinv Hl Hcls Hnew Htame Hfuel)
      as (s' & vs & Hrun & Hinv' & Hext & Hlen & _ & _ & Hclone).
    exists (VObject (length (st_heap s))), s'.
    split; [|split; [exact Hinv'|split; [exact Hext|apply new_result; assumption]]].
    unfold bind in *. simpl in *. rewrite (branch_false _ _ _ Hstrict). exact Hrun.
Qed.

Definition put_entry (kv : value * value) (v : value) (c : obj) : obj :=
  match cls c with
  | ClsMap es => Obj (ClsMap (map_set es kv.1 v)) (props c)
  | _ => c
  end.

Lemma built_entries (xs : list (value * value)) vs es ps :
  built put_entry xs vs (Obj (ClsMap es) ps) =
  Obj (ClsMap (fold_left (fun es (xv : (value * value) * value) =>
                            map_set es xv.1.1 xv.2) (zip xs vs) es)) ps.
Proof.
  unfold built. revert es. induction (zip xs vs) as [|xv l IH]; intros es; simpl.
  - reflexivity.
  - unfold put_entry at 2. simpl. apply IH.
Qed.

(** A map: the keys are kept, the values copied. *)
Lemma map_spec d l o entries s :
  copier_spec d (handleCopy d isStrict) ->
  inv s -> h0 !! l = Some o -> cls o = ClsMap entries -> l ∉ st_cache s ->
  tame_obj isStrict h0 o = true ->
  length h0 < S d + length (st_cache s) ->
  exists s' vs,
    (cache_add l ;;
     complete_with (construct o) ;;
     let* clone := alloc (Obj (ClsMap []) []) in
     forEach (fun kv : value * value =>
                let* v := handleCopy d isStrict kv.2 in
                modify clone (fun c =>
                  match cls c with
                  | ClsMap es => Obj (ClsMap (map_set es kv.1 v)) (props c)
                  | _ => c
                  end))
             entries ;;
     ret (VObject clone)) s = Some (VObject (length (st_heap s)), s') /\
    inv s' /\ extends s s' /\ length (st_heap s) < length (st_heap s') /\
    st_heap s' !! length (st_heap s) = Some (Obj (ClsMap (zip_with copied_entry entries vs)) []) /\
    Forall2 (fun (kv : value * value) v' => slot d s s' kv.2 v') entries vs /\
    (deep -> clone_of (S d) (st_heap s') (length (st_heap s))
                      (VObject (length (st_heap s))) (VObject l)).
Proof.
  intros Hrec Hinv Hl Hcls Hnew Htame Hfuel.
  assert (Hlt : l < length h0) by (eapply lookup_lt_Some; eauto).
  pose proof (add_inv s l Hinv Hlt Hnew) as Hinv1.
  pose proof (add_fuel d s l Hinv Hlt Hnew Hfuel) as Hfuel1.
  pose proof (inv_length s Hinv) as Hn0.
  set (c := length (st_heap s)).
  set (s1 := CState (st_heap s) (st_cache s ++ [l])) in *.
  set (t := CState (st_heap s1 ++ [Obj (ClsMap []) []]) (st_cache s1)).
  assert (Hinvt : inv t) by (apply alloc_inv; exact Hinv1).
  assert (Hlent : length (st_heap t) = S c).
  { unfold t, c. simpl. rewrite length_app. simpl. lia. }
  assert (Hct : st_heap t !! c = Some (Obj (ClsMap []) [])).
  { simpl. rewrite lookup_app_r by (unfold c; lia).
    unfold c. rewrite Nat.sub_diag. reflexivity. }
  assert (Hcl : Forall (fun kv : value * value => value_closed (length h0) kv.2 = true)
                       entries).
  { pose proof (wf_values _ _ Hl) as H. unfold obj_values in H. rewrite Hcls in H.
    apply Forall_app in H as [_ H]. apply Forall_app in H as [_ H].
    apply Forall_fmap in H. exact H. }
  destruct (loop_spec d (fun kv : value * value => kv.2)
              _ Hrec c ltac:(unfold c; lia) (always put_entry) put_entry
              unconditional (always_step _) entries [] t _ Hinvt Hct I Hcl Hfuel1)
    as (t1 & vs & Hrun1 & Hinv1' & Hfr1 & Hc1 & Hch1 & _).
  pose proof (chain_length _ _ _ _ _ _ _ Hch1) as Hlen1.
  assert (Hnd : NoDup entries.*1).
  { pose proof (wf_keys _ _ Hl) as H. unfold keys_distinct in H. rewrite Hcls in H.
    apply andb_prop in H as [_ H]. apply bool_decide_eq_true in H. exact H. }
  rewrite built_entries in Hc1.
  rewrite (fold_map_set entries vs []) in Hc1 by (simpl; auto).
  simpl in Hc1.
  assert (Hslots : Forall2 (fun (kv : value * value) v' => slot d s t1 kv.2 v') entries vs).
  { eapply chain_slots; [| |exact Hch1]; [rewrite Hlent; unfold c; lia|lia]. }
  exists t1, vs.
  split; [eapply bind_run; [reflexivity|];
          eapply bind_run; [rewrite (construct_tame _ _ _ Htame); reflexivity|];
          eapply bind_run; [reflexivity|];
          eapply bind_run; [exact Hrun1|]; reflexivity|].
  split; [exact Hinv1'|].
  split; [eapply add_extends, frame_extends; exact Hfr1|].
  split; [destruct Hfr1 as (Hlen & _); fold c; lia|].
  split; [exact Hc1|]. split; [exact Hslots|].
  intros Hd.
  assert (Hl1 : st_heap t1 !! l = Some o)
    by (destruct Hinv1' as (Hh & _); rewrite Hh; auto).
  eapply clone_node; [reflexivity|exact Hlt|exact Hc1|exact Hl1|exact I| |].
  - unfold view_in. rewrite Hcls. exact I.
  - unfold obj_equal. simpl. rewrite Hcls. split; [reflexivity|]. split.
    + apply length_zip_with_l_eq. symmetry. exact Hlen1.
    + apply map_get_copied.
      eapply Forall2_impl; [exact Hslots|].
      intros kv v' [_ H]. eapply clone_of_lower; [|exact (H Hd)]. lia.
Qed.

Definition put_member (x v : value) (c : obj) : obj :=
  match cls c with
  | ClsSet ms => Obj (ClsSet (set_add ms v)) (props c)
  | _ => c
  end.

Lemma built_members (xs : list value) : forall vs ms ps,
  length vs = length xs ->
  built put_member xs vs (Obj (ClsSet ms) ps) =
  Obj (ClsSet (fold_left (fun ms v => set_add ms v) vs ms)) ps.
Proof.
  unfold built. induction xs as [|x xs IH]; intros [|v vs] ms ps Hlen;
    try discriminate; simpl.
  - reflexivity.
  - unfold put_member at 2. simpl. apply IH. simpl in Hlen. lia.
Qed.

(** A set: every member is copied. *)
Lemma set_spec d l o members s :
  copier_spec d (handleCopy d isStrict) ->
  inv s -> h0 !! l = Some o -> cls o = ClsSet members -> l ∉ st_cache s ->
  tame_obj isStrict h0 o = true ->
  length h0 < S d + length (st_cache s) ->
  exists s' vs,
    (cache_add l ;;
     complete_with (construct o) ;;
     let* clone := alloc (Obj (ClsSet []) []) in
     forEach (fun x : value =>
                let* v := handleCopy d isStrict x in
                modify clone (fun c =>
                  match cls c with
                  | ClsSet ms => Obj (ClsSet (set_add ms v)) (props c)
                  | _ => c
                  end))
             members ;;
     ret (VObject clone)) s = Some (VObject (length (st_heap s)), s') /\
    inv s' /\ extends s s' /\ length (st_heap s) < length (st_heap s') /\
    st_heap s' !! length (st_heap s) = Some (Obj (ClsSet vs) []) /\
    Forall2 (slot d s s') members vs /\
    (deep -> clone_of (S d) (st_heap s') (length (st_heap s))
                      (VObject (length (st_heap s))) (VObject l)).
Proof.
  intros Hrec Hinv Hl Hcls Hnew Htame Hfuel.
  assert (Hlt : l < length h0) by (eapply lookup_lt_Some; eauto).
  pose proof (add_inv s l Hinv Hlt Hnew) as Hinv1.
  pose proof (add_fuel d s l Hinv Hlt Hnew Hfuel) as Hfuel1.
  pose proof (inv_length s Hinv) as Hn0.
  set (c := length (st_heap s)).
  set (s1 := CState (st_heap s) (st_cache s ++ [l])) in *.
  set (t := CState (st_heap s1 ++ [Obj (ClsSet []) []]) (st_cache s1)).
  assert (Hinvt : inv t) by (apply alloc_inv; exact Hinv1).
  assert (Hlent : length (st_heap t) = S c).
  { unfold t, c. simpl. rewrite length_app. simpl. lia. }
  assert (Hct : st_heap t !! c = Some (Obj (ClsSet []) [])).
  { simpl. rewrite lookup_app_r by (unfold c; lia).
    unfold c. rewrite Nat.sub_diag. reflexivity. }
  assert (Hcl : Forall (fun x : value => value_closed (length h0) x = true) members).
  { pose proof (wf_values _ _ Hl) as H. unfold obj_values in H. rewrite Hcls in H.
    apply Forall_app in H as [_ H]. exact H. }
  destruct (loop_spec d (fun x : value => x)
              _ Hrec c ltac:(unfold c; lia) (always put_member) put_member
              unconditional (always_step _) members [] t _ Hinvt Hct I Hcl Hfuel1)
    as (t1 & vs & Hrun1 & Hinv1' & Hfr1 & Hc1 & Hch1 & _).
  pose proof (chain_length _ _ _ _ _ _ _ Hch1) as Hlen1.
  assert (Hnd : NoDup members).
  { pose proof (wf_keys _ _ Hl) as H. unfold keys_distinct in H. rewrite Hcls in H.
    apply andb_prop in H as [_ H]. apply bool_decide_eq_true in H. exact H. }
  assert (Hndv : NoDup vs).
  { eapply (chain_NoDup d (fun x : value => x)); [|exact Hcl| |exact Hch1].
    - simpl. rewrite length_app. lia.
    - rewrite list_fmap_id. exact Hnd. }
  rewrite built_members in Hc1 by exact Hlen1.
  rewrite (fold_set_add vs []) in Hc1 by (simpl; exact Hndv).
  simpl in Hc1.
  assert (Hslots : Forall2 (slot d s t1) members vs).
  { eapply chain_slots; [| |exact Hch1]; [rewrite Hlent; unfold c; lia|lia]. }
  exists t1, vs.
  split; [eapply bind_run; [reflexivity|];
          eapply bind_run; [rewrite (construct_tame _ _ _ Htame); reflexivity|];
          eapply bind_run; [reflexivity|];
          eapply bind_run; [exact Hrun1|]; reflexivity|].
  split; [exact Hinv1'|].
  split; [eapply add_extends, frame_extends; exact Hfr1|].
  split; [destruct Hfr1 as (Hlen & _); fold c; lia|].
  split; [exact Hc1|]. split; [exact Hslots|].
  intros Hd.
  assert (Hl1 : st_heap t1 !! l = Some o)
    by (destruct Hinv1' as (Hh & _); rewrite Hh; auto).
  eapply clone_node; [reflexivity|exact Hlt|exact Hc1|exact Hl1|exact I| |].
  - unfold view_in. rewrite Hcls. exact I.
  - unfold obj_equal. simpl. rewrite Hcls. split; [reflexivity|].
    exists members. split; [reflexivity|].
    apply Forall2_flip.
    eapply Forall2_impl; [exact Hslots|].
    intros x v' [_ H]. eapply clone_of_lower; [|exact (H Hd)]. lia.
Qed.

(** An object copied without a look at what it holds: the clone is one of
    the objects [news] allocated for it. *)
Lemma fresh_spec d l o s (news : list obj) cache' c oa :
  inv s -> h0 !! l = Some o ->
  st_cache s `prefix_of` cache' -> NoDup cache' ->
  Forall (fun l => l < length h0) cache' ->
  (st_heap s ++ news) !! c = Some oa -> length (st_heap s) <= c ->
  (deep ->
   view_in (fun l => length (st_heap s) <= l) (st_heap s ++ news) oa /\
   view_in (fun l => l < length h0) (st_heap s ++ news) o /\
   forall R, obj_equal R (st_heap s ++ news) oa o) ->
  inv (CState (st_heap s ++ news) cache') /\
  extends s (CState (st_heap s ++ news) cache') /\
  result_ok (S d) s (VObject l) (VObject c) (CState (st_heap s ++ news) cache').
Proof.
  intros Hinv Hl Hpre Hnd Hfa Hc Hge Hdeep.
  pose proof (inv_length s Hinv) as Hn0.
  assert (Hlt : l < length h0) by (eapply lookup_lt_Some; eauto).
  assert (Hold : forall l', l' < length (st_heap s) ->
                            (st_heap s ++ news) !! l' = st_heap s !! l')
    by (intros; apply lookup_app_l; assumption).
  split; [|split; [|split]].
  - split; [|split; assumption]. intros l' Hl'. simpl.
    rewrite Hold by lia. destruct Hinv as (Hh & _). auto.
  - split; [simpl; rewrite length_app; lia|]. split; [exact Hold|exact Hpre].
  - apply new_here. split; [exact Hge|].
    simpl. eapply lookup_lt_Some. exact Hc.
  - intros Hd. destruct (Hdeep Hd) as (Hva & Hvb & Heq). simpl.
    eapply clone_node; [exact Hge|exact Hlt|exact Hc| |exact Hva|exact Hvb|apply Heq].
    rewrite Hold by lia. destruct Hinv as (Hh & _). rewrite Hh; auto.
Qed.

Lemma faithful_lookup l o : faithful h0 = true -> h0 !! l = Some o -> faithful_obj h0 o = true.
Proof.
  intros Hf Hl. unfold faithful in Hf. rewrite forallb_forall in Hf.
  apply Hf. apply list_elem_of_In. eapply list_elem_of_lookup_2. exact Hl.
Qed.

Lemma handleCopy_spec fuel :
  tame isStrict h0 = true -> copier_spec fuel (handleCopy fuel isStrict).
Proof.
  intros Htame.
  induction fuel as [|d IH]; intros v s Hinv Hv Hfuel.
  { exfalso. destruct Hinv as (_ & Hnd & Hfa).
    pose proof (cache_bound _ Hnd Hfa). lia. }
  destruct v as [| | b | n | str | sy | f | l];
    try (apply returned_spec; exact Hinv).
  cbn [handleCopy].
  simpl in Hv. apply bool_decide_eq_true in Hv.
  destruct (decide (l ∈ st_cache s)) as [Hin|Hnew].
  { destruct (returned_spec (S d) (VObject l) s Hinv) as (v' & s' & Hrun & Hrest).
    exists v', s'. split; [|exact Hrest].
    eapply bind_run; [reflexivity|]. cbv beta.
    rewrite bool_decide_eq_true_2 by exact Hin. exact Hrun. }
  destruct (h0 !! l) as [o|] eqn:Hl.
  2:{ apply lookup_ge_None in Hl. lia. }
  assert (Hls : st_heap s !! l = Some o) by (destruct Hinv as (Hh & _); rewrite Hh; auto).
  pose proof (inv_length s Hinv) as Hn0.
  pose proof (tame_lookup _ _ _ _ Htame Hl) as Hto.
  pose proof (construct_tame _ _ _ Hto) as Hnew_ok.
  assert (Hcio : constructor_is_Object o =
                 match cls o with ClsObject => true | _ => false end).
  { rewrite (constructor_is_Object_tame _ _ _ Hto). destruct (cls o); reflexivity. }
  assert (Hstart : forall (k : obj -> M cstate value) r,
             k o s = r ->
             (let* visited := cache_has l in
              if visited then ret (VObject l) else let* o := load l in k o) s = r).
  { intros k r Hk. eapply bind_run; [reflexivity|]. cbv beta.
    rewrite bool_decide_eq_false_2 by exact Hnew.
    eapply bind_run; [unfold load; rewrite Hls; reflexivity|]. exact Hk. }
  assert (Hreturned : exists v' s',
             ret (VObject l) s = Some (v', s') /\ inv s' /\ extends s s' /\
             result_ok (S d) s (VObject l) v' s')
    by (apply returned_spec; exact Hinv).
  assert (Hcloned : ordinary (cls o) -> exists v' s',
             (cache_add l ;; getObjectClone isStrict l (handleCopy d isStrict)) s
             = Some (v', s') /\ inv s' /\ extends s s' /\
             result_ok (S d) s (VObject l) v' s')
    by (intros Hord; apply (cloned_spec d l o s IH Hinv Hl Hnew Hord Hto Hfuel)).
  assert (Hsame : forall oa : obj,
             (deep -> view_in (fun l => length (st_heap s) <= l) (st_heap s ++ [oa]) oa /\
                      view_in (fun l => l < length h0) (st_heap s ++ [oa]) o /\
                      forall R, obj_equal R (st_heap s ++ [oa]) oa o) ->
             inv (CState (st_heap s ++ [oa]) (st_cache s)) /\
             extends s (CState (st_heap s ++ [oa]) (st_cache s)) /\
             result_ok (S d) s (VObject l) (VObject (length (st_heap s)))
                       (CState (st_heap s ++ [oa]) (st_cache s))).
  { intros oa Hdeep. destruct Hinv as (Hh & Hnd & Hfa).
    apply (fresh_spec d l o s [oa] (st_cache s) _ oa); auto.
    - split; auto.
    - rewrite lookup_app_r by lia. rewrite Nat.sub_diag. reflexivity. }
  destruct (cls o) eqn:Hcls.
  - (* plain objects *)
    destruct (Hcloned ltac:(left; reflexivity)) as (v' & s' & Hrun & Hrest).
    exists v', s'. split; [|exact Hrest].
    apply Hstart. rewrite Hcio. exact Hrun.
  - (* no constructor *)
    destruct (has_callable_then o) eqn:Hthen.
    + destruct Hreturned as (v' & s' & Hrun & Hrest).
      exists v', s'. split; [|exact Hrest].
      apply Hstart. rewrite Hcio, Hcls, Hthen. exact Hrun.
    + destruct (Hcloned ltac:(right; left; reflexivity)) as (v' & s' & Hrun & Hrest).
      exists v', s'. split; [|exact Hrest].
      apply Hstart. rewrite Hcio, Hcls, Hthen. exact Hrun.
  - (* custom constructors *)
    destruct (has_callable_then o) eqn:Hthen.
    + destruct Hreturned as (v' & s' & Hrun & Hrest).
      exists v', s'. split; [|exact Hrest].
      apply Hstart. rewrite Hcio, Hcls, Hthen. exact Hrun.
    + destruct (Hcloned ltac:(right; right; eauto)) as (v' & s' & Hrun & Hrest).
      exists v', s'. split; [|exact Hrest].
      apply Hstart. rewrite Hcio, Hcls, Hthen. exact Hrun.
  - (* arrays *)
    destruct (array_spec d l o elems s IH Hinv Hl Hcls Hnew Hto Hfuel)
      as (v' & s' & Hrun & Hrest).
    exists v', s'. split; [|exact Hrest].
    apply Hstart. rewrite Hcio, Hcls. exact Hrun.
  - (* dates *)
    eexists _, _. split; [apply Hstart; rewrite Hcio, Hcls, Hnew_ok; reflexivity|].
    apply Hsame. intros _. split; [exact I|]. split.
    + unfold view_in. rewrite Hcls. exact I.
    + intros R. unfold obj_equal. simpl. rewrite Hcls. auto.
  - (* regexps *)
    eexists _, (CState (st_heap s ++ [Obj (ClsRegExp source flags lastIndex) []]) (st_cache s)).
    split.
    + apply Hstart. rewrite Hcio, Hcls, Hnew_ok.
      eapply bind_run; [reflexivity|].
      eapply bind_run; [reflexivity|].
      eapply bind_run; [|reflexivity].
      unfold modify, update. simpl.
      rewrite lookup_app_r by lia. rewrite Nat.sub_diag. simpl.
      rewrite (insert_app_r_alt (st_heap s) _ (length (st_heap s))) by lia.
      rewrite Nat.sub_diag. simpl. rewrite parse_getRegExpFlags. reflexivity.
    + apply Hsame. intros _. split; [exact I|]. split.
      * unfold view_in. rewrite Hcls. exact I.
      * intros R. unfold obj_equal. simpl. rewrite Hcls. auto.
  - (* maps *)
    destruct (map_spec d l o entries s IH Hinv Hl Hcls Hnew Hto Hfuel)
      as (s' & vs & Hrun & Hinv' & Hext & Hlen & _ & _ & Hclone).
    exists (VObject (length (st_heap s))), s'.
    split; [apply Hstart; rewrite Hcio, Hcls; exact Hrun|].
    split; [exact Hinv'|]. split; [exact Hext|]. apply new_result; assumption.
  - (* sets *)
    destruct (set_spec d l o members s IH Hinv Hl Hcls Hnew Hto Hfuel)
      as (s' & vs & Hrun & Hinv' & Hext & Hlen & _ & _ & Hclone).
    exists (VObject (length (st_heap s))), s'.
    split; [apply Hstart; rewrite Hcio, Hcls; exact Hrun|].
    split; [exact Hinv'|]. split; [exact Hext|]. apply new_result; assumption.
  - (* files *)
    eexists _, (CState (st_heap s ++ [Obj (ClsFile name type bits) []]) (st_cache s ++ [l])).
    split; [apply Hstart; rewrite Hcio, Hcls; reflexivity|].
    pose proof (add_inv s l Hinv Hv Hnew) as (_ & Hnd & Hfa). simpl in Hnd, Hfa.
    apply (fresh_spec d l o s [_] _ (length (st_heap s)) (Obj (ClsFile name type bits) [])); auto.
    + apply prefix_app_r. reflexivity.
    + rewrite lookup_app_r by lia. rewrite Nat.sub_diag. reflexivity.
    + intros Hd. pose proof (deep_faithful Hd) as Hf. split; [exact I|]. split.
      * unfold view_in. rewrite Hcls. exact I.
      * intros R. unfold obj_equal. simpl. rewrite Hcls. split; [reflexivity|].
        pose proof (faithful_lookup _ _ Hf Hl) as Hfo. unfold faithful_obj in Hfo.
        rewrite Hcls in Hfo. apply bool_decide_eq_true in Hfo.
        intros k. unfold enum_lookup. rewrite Hfo. simpl. constructor.
  - (* views *)
    pose proof (wf_lookup _ _ Hl) as Hwo. unfold wf_obj in Hwo.
    apply andb_prop in Hwo as [Hwo _]. apply andb_prop in Hwo as [_ Hview].
    unfold view_ok in Hview. rewrite Hcls in Hview.
    destruct (h0 !! buffer) as [[[] bprops]|] eqn:Hb; try discriminate Hview.
    assert (Hblt : buffer < length h0) by (eapply lookup_lt_Some; eauto).
    assert (Hbs : st_heap s !! buffer = Some (Obj (ClsArrayBuffer bytes) bprops))
      by (destruct Hinv as (Hh & _); rewrite Hh; auto).
    assert (Hfill : length bytes `mod` bytesPerElement = 0).
    { apply tame_parts in Hto as (_ & _ & _ & _ & Hf). unfold fills in Hf.
      rewrite Hcls, Hb in Hf. apply bool_decide_eq_true in Hf. exact Hf. }
    eexists _, (CState (st_heap s ++ [Obj (ClsArrayBuffer bytes) [];
                                       Obj (ClsView (length (st_heap s)) 0 (length bytes)
                                                    bytesPerElement) []])
                       (st_cache s)).
    split.
    + apply Hstart. rewrite Hcio, Hcls, Hnew_ok.
      eapply bind_run; [reflexivity|].
      eapply bind_run; [unfold load; rewrite Hbs; reflexivity|]. simpl.
      eapply bind_run; [reflexivity|].
      rewrite (bool_decide_eq_true_2 _ Hfill).
      eapply bind_run; [reflexivity|]. unfold ret. simpl.
      rewrite length_app. simpl. rewrite <- app_assoc. reflexivity.
    + destruct Hinv as (Hh & Hnd & Hfa).
      apply (fresh_spec d l o s [_; _] _ (length (st_heap s) + 1)
               (Obj (ClsView (length (st_heap s)) 0 (length bytes) bytesPerElement) [])); auto.
      * split; auto.
      * rewrite lookup_app_r by lia.
        replace (length (st_heap s) + 1 - length (st_heap s)) with 1 by lia. reflexivity.
      * lia.
      * intros Hd. pose proof (deep_faithful Hd) as Hf.
        assert (Hlen2 : length (st_heap s) <
                        length (st_heap s ++ [Obj (ClsArrayBuffer bytes) [];
                          Obj (ClsView (length (st_heap s)) 0 (length bytes)
                                       bytesPerElement) []])).
        { rewrite length_app. simpl. lia. }
        split; [unfold view_in; simpl; split; [lia|exact Hlen2]|]. split.
        -- unfold view_in. rewrite Hcls. split; [exact Hblt|lia].
        -- intros R. unfold obj_equal. simpl. rewrite Hcls. split; [reflexivity|].
           pose proof (faithful_lookup _ _ Hf Hl) as Hfo. unfold faithful_obj in Hfo.
           rewrite Hcls, Hb in Hfo. apply bool_decide_eq_true in Hfo as [-> ->].
           unfold bytes_of. simpl. rewrite Hcls.
           rewrite lookup_app_r by lia. rewrite Nat.sub_diag. simpl.
           rewrite lookup_app_l by lia. rewrite Hbs. reflexivity.
  - (* array buffers *)
    eexists _, _. split; [apply Hstart; rewrite Hcio, Hcls; reflexivity|].
    apply Hsame. intros _. split; [exact I|]. split.
    + unfold view_in. rewrite Hcls. exact I.
    + intros R. unfold obj_equal. simpl. rewrite Hcls. split; [reflexivity|].
      unfold bytes_of. simpl. rewrite Hcls. reflexivity.
  - (* promises *)
    destruct Hreturned as (v' & s' & Hrun & Hrest).
    exists v', s'. split; [|exact Hrest].
    apply Hstart. rewrite Hcio. unfold has_callable_then. rewrite Hcls. exact Hrun.
  - (* errors *)
    destruct Hreturned as (v' & s' & Hrun & Hrest).
    exists v', s'. split; [|exact Hrest].
    apply Hstart. rewrite Hcio, Hcls. rewrite orb_true_r. exact Hrun.
  - (* weak maps *)
    destruct Hreturned as (v' & s' & Hrun & Hrest).
    exists v', s'. split; [|exact Hrest].
    apply Hstart. rewrite Hcio, Hcls. rewrite orb_true_r. exact Hrun.
  - (* weak sets *)
    destruct Hreturned as (v' & s' & Hrun & Hrest).
    exists v', s'. split; [|exact Hrest].
    apply Hstart. rewrite Hcio, Hcls. rewrite orb_true_r. exact Hrun.
Qed.

End CopyCorrect.

(** ** What [copy] guarantees *)

(** On a well-formed heap of tame objects [copy] returns; the objects of
    the source are left as they were; the result is the input itself or a new
    object; the copy of a value of a heap the mode can reproduce is deep-equal
    to the input. *)
Lemma copy_spec (h : heap) (v : value) (isStrict : bool) :
  wf_heap h = true -> tame isStrict h = true -> value_closed (length h) v = true ->
  exists v' h',
    copy v isStrict h = Some (v', h') /\
    length h <= length h' /\
    (forall l, l < length h -> h' !! l = h !! l) /\
    kept_or_new (length h) (length h') v v' /\
    (faithful_in isStrict h = true -> deep_equal h' v' v).
Proof.
  intros Hwf Htame Hv.
  assert (Hinv : inv h (CState h createCache)).
  { split; [reflexivity|]. split; constructor. }
  destruct (handleCopy_spec h isStrict Hwf (S (length h)) Htame v _ Hinv Hv ltac:(simpl; lia))
    as (v' & s' & Hrun & _ & (Hlen & Hfr & _) & (Hshape & Hclone)).
  exists v', (st_heap s'). split; [unfold copy; rewrite Hrun; reflexivity|].
  split; [exact Hlen|]. split; [exact Hfr|]. split; [exact Hshape|].
  intros Hf. eapply clone_of_deep_equal. exact (Hclone Hf).
Qed.

Lemma bind_inv {S A B} (m : M S A) (f : A -> M S B) s r :
  bind m f s = Some r -> exists a s1, m s = Some (a, s1) /\ f a s1 = Some r.
Proof.
  unfold bind. destruct (m s) as [[a s1]|]; [|discriminate].
  intros H. exists a, s1. auto.
Qed.

Lemma complete_inv {S A} (r : completion A) (s : S) a s' :
  complete_with r s = Some (a, s') -> r = Normal a /\ s' = s.
Proof. unfold complete_with. destruct r; [|discriminate..]. intros [= -> ->]. auto. Qed.

Lemma update_inv l (f : obj -> completion obj) s u s' :
  update l f s = Some (u, s') ->
  exists o o', st_heap s !! l = Some o /\ f o = Normal o' /\
               s' = CState (<[l := o']> (st_heap s)) (st_cache s).
Proof.
  unfold update. destruct (st_heap s !! l) as [o|]; [|discriminate].
  destruct (f o) as [o'| |] eqn:Hf; [|discriminate..].
  intros [= _ <-]. eauto.
Qed.

Lemma getObjectCloneLoose_result l rec s v' s' :
  getObjectCloneLoose l rec s = Some (v', s') -> v' = VObject (length (st_heap s)).
Proof.
  unfold getObjectCloneLoose. intros H.
  apply bind_inv in H as (o & s1 & Hload & H).
  unfold load in Hload. destruct (st_heap s !! l); [|discriminate].
  injection Hload as <- <-.
  apply bind_inv in H as (clean & s1 & Hclean & H). apply complete_inv in Hclean as [_ ->].
  apply bind_inv in H as (c & s2 & Halloc & H). injection Halloc as <- <-.
  apply bind_inv in H as (u1 & s3 & _ & H).
  apply bind_inv in H as (u2 & s4 & _ & H).
  injection H as <- _. reflexivity.
Qed.

Lemma getObjectCloneStrict_result l rec s v' s' :
  getObjectCloneStrict l rec s = Some (v', s') -> v' = VObject (length (st_heap s)).
Proof.
  unfold getObjectCloneStrict. intros H.
  apply bind_inv in H as (o & s1 & Hload & H).
  unfold load in Hload. destruct (st_heap s !! l); [|discriminate].
  injection Hload as <- <-.
  apply bind_inv in H as (clean & s1 & Hclean & H). apply complete_inv in Hclean as [_ ->].
  apply bind_inv in H as (c & s2 & Halloc & H). injection Halloc as <- <-.
  apply bind_inv in H as (u1 & s3 & _ & H).
  apply bind_inv in H as (u2 & s4 & _ & H).
  apply bind_inv in H as (u3 & s5 & _ & H).
  injection H as <- _. reflexivity.
Qed.

Lemma getObjectClone_result isStrict l rec s v' s' :
  getObjectClone isStrict l rec s = Some (v', s') -> v' = VObject (length (st_heap s)).
Proof.
  unfold getObjectClone. destruct isStrict.
  - apply getObjectCloneStrict_result.
  - apply getObjectCloneLoose_result.
Qed.

(** An object whose constructor is [Object], an array, a map or a set met for
    the first time is copied into the next free location. *)
Lemma handleCopy_composite d isStrict l o s v' s' :
  st_heap s !! l = Some o -> l ∉ st_cache s -> composite (cls o) = true ->
  (cls o = ClsObject -> constructor_is_Object o = true) ->
  handleCopy (S d) isStrict (VObject l) s = Some (v', s') ->
  v' = VObject (length (st_heap s)).
Proof.
  intros Hl Hnew Hc Hplain H. cbn [handleCopy] in H.
  apply bind_inv in H as (b & s1 & Hhas & H). injection Hhas as <- <-.
  rewrite bool_decide_eq_false_2 in H by exact Hnew.
  apply bind_inv in H as (o' & s1 & Hload & H).
  unfold load in Hload. rewrite Hl in Hload. injection Hload as <- <-.
  destruct (constructor_is_Object o) eqn:Hcio.
  { apply bind_inv in H as (u & s1 & Hadd & H). injection Hadd as _ <-.
    apply getObjectClone_result in H. exact H. }
  destruct (cls o) eqn:Hcls; try discriminate Hc.
  - discriminate (Hplain eq_refl).
  - apply bind_inv in H as (u & s1 & Hadd & H); injection Hadd as _ <-.
    destruct isStrict.
    + apply getObjectCloneStrict_result in H. exact H.
    + apply bind_inv in H as ([] & s2 & Hnew' & H). apply complete_inv in Hnew' as [_ ->].
      apply bind_inv in H as (c & s2 & Halloc & H). injection Halloc as <- <-.
      apply bind_inv in H as (u1 & s3 & _ & H). injection H as <- _. reflexivity.
  - apply bind_inv in H as (u & s1 & Hadd & H); injection Hadd as _ <-.
    apply bind_inv in H as ([] & s2 & Hnew' & H). apply complete_inv in Hnew' as [_ ->].
    apply bind_inv in H as (c & s2 & Halloc & H). injection Halloc as <- <-.
    apply bind_inv in H as (u1 & s3 & _ & H). injection H as <- _. reflexivity.
  - apply bind_inv in H as (u & s1 & Hadd & H); injection Hadd as _ <-.
    apply bind_inv in H as ([] & s2 & Hnew' & H). apply complete_inv in Hnew' as [_ ->].
    apply bind_inv in H as (c & s2 & Halloc & H). injection Halloc as <- <-.
    apply bind_inv in H as (u1 & s3 & _ & H). injection H as <- _. reflexivity.
Qed.

Lemma not_Object_class o : cls o <> ClsObject -> constructor_is_Object o = false.
Proof.
  intros Hc. unfold constructor_is_Object.
  destruct (constructor_of o); [|reflexivity]. destruct (cls o); try reflexivity.
  contradiction.
Qed.

(** An object met again in the same call is returned as it is. *)
Lemma handleCopy_visited d isStrict l s :
  l ∈ st_cache s -> handleCopy (S d) isStrict (VObject l) s = Some (VObject l, s).
Proof.
  intros Hin. cbn [handleCopy]. unfold bind, cache_has.
  rewrite bool_decide_eq_true_2 by exact Hin. reflexivity.
Qed.

(** ** The steps of the filter, case by case *)

Lemma _next_selector_throws v this h err h1 :
  extract v this h = Some (Throws err, h1) ->
  _next v this h = Some (destination_error err this, h1, selector_calls v this).
Proof.
  unfold extract, _next, selector_calls. destruct (keySelector this) as [f|].
  - intros ->. reflexivity.
  - intros [= <- <-].
Qed.

Lemma _next_first v this h k h1 :
  extract v this h = Some (Returns k, h1) -> hasKey this = false ->
  _next v this h = accept v k (set_hasKey true this) h1 (selector_calls v this).
Proof.
  unfold extract, _next, selector_calls, accept. intros He Hk. rewrite Hk.
  destruct (keySelector this) as [f|].
  - rewrite He. reflexivity.
  - injection He as <- <-. reflexivity.
Qed.

Lemma _next_compared v this h k h1 :
  extract v this h = Some (Returns k, h1) -> hasKey this = true ->
  _next v this h =
  match compare this (key this) k h1 with
  | None => None
  | Some (Throws err, h2) =>
      Some (destination_error err this, h2,
            selector_calls v this ++ [CallCompare (key this) k])
  | Some (Returns true, h2) =>
      Some (this, h2, selector_calls v this ++ [CallCompare (key this) k])
  | Some (Returns false, h2) =>
      accept v k this h2 (selector_calls v this ++ [CallCompare (key this) k])
  end.
Proof.
  unfold extract, _next, selector_calls, accept. intros He Hk. rewrite Hk.
  destruct (keySelector this) as [f|].
  - rewrite He. simpl.
    destruct (compare this (key this) k h1) as [[[[]|err] h2]|]; reflexivity.
  - injection He as <- <-. simpl.
    destruct (compare this (key this) v h) as [[[[]|err] h2]|]; reflexivity.
Qed.

Lemma _next_cases v this h r : _next v this h = Some r -> step_case v this h r.
Proof.
  intros H. destruct (extract v this h) as [[[k|err] h1]|] eqn:He.
  - destruct (hasKey this) eqn:Hk.
    + rewrite (_next_compared _ _ _ _ _ He Hk) in H.
      destruct (compare this (key this) k h1) as [[[[]|err] h2]|] eqn:Hc;
        try discriminate H.
      * injection H as <-. eapply case_duplicate; eauto.
      * unfold accept in H. destruct (copy k false h2) as [[k' h3]|] eqn:Hcopy;
          [|discriminate H].
        injection H as <-. rewrite <- app_assoc. eapply case_distinct; eauto.
      * injection H as <-. eapply case_compare_throws; eauto.
    + rewrite (_next_first _ _ _ _ _ He Hk) in H.
      unfold accept in H. destruct (copy k false h1) as [[k' h2]|] eqn:Hcopy;
        [|discriminate H].
      injection H as <-. eapply case_first; eauto.
  - rewrite (_next_selector_throws _ _ _ _ _ He) in H. injection H as <-.
    eapply case_selector_throws; eauto.
  - exfalso. unfold extract in He. unfold _next in H.
    destruct (keySelector this) as [f|]; [|discriminate He].
    rewrite He in H. discriminate H.
Qed.

(** *** Runs *)

Lemma run_app inputs1 inputs2 this h :
  run (inputs1 ++ inputs2) this h =
  match run inputs1 this h with
  | None => None
  | Some (this1, h1, calls1) =>
      match run inputs2 this1 h1 with
      | None => None
      | Some (this2, h2, calls2) => Some (this2, h2, calls1 ++ calls2)
      end
  end.
Proof.
  revert this h. induction inputs1 as [|i inputs1 IH]; intros this h; simpl.
  - destruct (run inputs2 this h) as [[[this2 h2] calls2]|]; reflexivity.
  - destruct (deliver i this h) as [[[this1 h1] calls1]|]; [|reflexivity].
    rewrite IH.
    destruct (run inputs1 this1 h1) as [[[this2 h2] calls2]|]; [|reflexivity].
    destruct (run inputs2 this2 h2) as [[[this3 h3] calls3]|]; [|reflexivity].
    rewrite app_assoc. reflexivity.
Qed.

(** A stopped subscriber ignores whatever the source still delivers. *)
Lemma run_stopped inputs this h :
  isStopped this = true -> run inputs this h = Some (this, h, []).
Proof.
  intros Hs. induction inputs as [|i inputs IH]; [reflexivity|].
  simpl. destruct i; simpl; unfold next, error, complete; rewrite Hs, IH; reflexivity.
Qed.

(** ** The clone engine: the properties of the specification *)







(** C10: a value that is not a non-null object, that is [null], [undefined], a
    number, a string, a boolean, a symbol or a function, is returned by [copy]
    as it is, whatever [isStrict]. *)
Theorem copy_returns_non_objects (v : value) (isStrict : bool) (h : heap) :
  negb (truthy v) || negb (bool_decide (typeof v = TObject)) = true ->
  copy v isStrict h = Some (v, h).
Proof.
  destruct v; simpl; intros H; try reflexivity. discriminate H.
Qed.

Lemma copy_returns_non_objects_witness :
  copy VNull true [Obj ClsObject []] = Some (VNull, [Obj ClsObject []]).
Proof.
  apply (copy_returns_non_objects VNull true [Obj ClsObject []]). reflexivity.
Defined.

(** ** The distinct filter: the properties of the specification *)

(** The comparator calls of a step. *)
Lemma step_compare_call v this h this' h' calls x y :
  step_case v this h (this', h', calls) ->
  CallCompare x y ∈ calls ->
  x = key this /\
  exists h1 r h2,
    extract v this h = Some (Returns y, h1) /\
    compare this x y h1 = Some (r, h2) /\
    (r = Returns true -> this' = this /\ h' = h2).
Proof.
  intros Hstep Hin.
  assert (Hsel : CallCompare x y ∉ selector_calls v this).
  { unfold selector_calls. destruct (keySelector this); intros H; inversion H; subst.
    inversion H2. }
  inversion Hstep; subst; clear Hstep.
  - contradiction.
  - apply elem_of_app in Hin as [Hin|Hin]; [contradiction|].
    apply list_elem_of_singleton in Hin. discriminate Hin.
  - apply elem_of_app in Hin as [Hin|Hin]; [contradiction|].
    apply list_elem_of_singleton in Hin. injection Hin as -> ->.
    split; [reflexivity|]. eexists _, _, _. split; [eassumption|].
    split; [eassumption|]. discriminate.
  - apply elem_of_app in Hin as [Hin|Hin]; [contradiction|].
    apply list_elem_of_singleton in Hin. injection Hin as -> ->.
    split; [reflexivity|]. eexists _, _, _. split; [eassumption|].
    split; [eassumption|]. auto.
  - apply elem_of_app in Hin as [Hin|Hin]; [contradiction|].
    apply elem_of_cons in Hin as [Hin|Hin];
      [|apply list_elem_of_singleton in Hin; discriminate Hin].
    injection Hin as -> ->.
    split; [reflexivity|]. eexists _, _, _. split; [eassumption|].
    split; [eassumption|]. discriminate.
Qed.

(** C2: whenever a step calls the comparator, the first argument is the
    retained key and the second the key just extracted; when it answers true
    the value is dropped: the subscriber is as it was and nothing is sent
    downstream. *)
Theorem comparator_gets_previous_then_next
    (v : value) (this this' : DistinctUntilChangedSubscriber) (h h' : heap)
    (calls : list call) (x y : value) :
  next v this h = Some (this', h', calls) ->
  CallCompare x y ∈ calls ->
  x = key this /\
  exists h1 r h2,
    extract v this h = Some (Returns y, h1) /\
    compare this x y h1 = Some (r, h2) /\
    (r = Returns true -> this' = this /\ h' = h2).
Proof.
  unfold next. destruct (isStopped this).
  - intros [= <- <- <-] Hin. inversion Hin.
  - intros Hstep Hin. apply _next_cases in Hstep.
    eapply step_compare_call; eassumption.
Qed.

Lemma comparator_gets_previous_then_next_witness :
  VNumber 1 = key FilterWitness.after_one /\
  exists h1 r h2,
    extract (VNumber 2) FilterWitness.after_one [] = Some (Returns (VNumber 2), h1) /\
    compare FilterWitness.after_one (VNumber 1) (VNumber 2) h1 = Some (r, h2) /\
    (r = Returns true -> FilterWitness.after_one = FilterWitness.after_one /\ [] = h2).
Proof.
  apply (comparator_gets_previous_then_next (VNumber 2) FilterWitness.after_one
           FilterWitness.after_one [] [] [CallCompare (VNumber 1) (VNumber 2)]).
  - reflexivity.
  - left.
Defined.



(** C4: when the key-selector or the comparator throws on a value, the
    consumer has received what was accepted before, then the error and nothing
    else, whatever the source delivers afterwards; the value is not forwarded
    and the retained key is the one the step started with. *)
Theorem failure_is_terminal
    (pre post : list input) (v : value)
    (this0 this : DistinctUntilChangedSubscriber) (h0 h h' : heap)
    (calls : list call) (err : value) :
  run pre this0 h0 = Some (this, h, calls) ->
  isStopped this = false -> closed (destination this) = false ->
  raises v this h err h' ->
  exists this' calls',
    run (pre ++ INext v :: post) this0 h0 = Some (this', h', calls') /\
    received (destination this') = received (destination this) ++ [ErrorN err] /\
    key this' = key this /\ hasKey this' = hasKey this /\
    state_of this' = TERMINATED.
Proof.
  intros Hpre Hs Hopen Hraise.
  assert (Hstep : exists calls1,
             next v this h = Some (destination_error err this, h', calls1)).
  { unfold next. rewrite Hs. destruct Hraise as [He|(k & h1 & He & Hk & Hc)].
    - rewrite (_next_selector_throws _ _ _ _ _ He). eauto.
    - rewrite (_next_compared _ _ _ _ _ He Hk), Hc. eauto. }
  destruct Hstep as (calls1 & Hstep).
  exists (destination_error err this), (calls ++ calls1 ++ []).
  split.
  - rewrite run_app, Hpre. simpl. rewrite Hstep.
    rewrite run_stopped by reflexivity. reflexivity.
  - simpl. unfold consumer_error. rewrite Hopen. auto.
Qed.

Lemma failure_is_terminal_witness :
  exists this' calls',
    run ([] ++ INext (VString "d") :: [INext (VString "e"); IComplete])
        FilterWitness.after_c [] = Some (this', [], calls') /\
    received (destination this') =
      received (destination FilterWitness.after_c) ++ [ErrorN (VString "error")] /\
    key this' = key FilterWitness.after_c /\
    hasKey this' = hasKey FilterWitness.after_c /\
    state_of this' = TERMINATED.
Proof.
  apply (failure_is_terminal [] [INext (VString "e"); IComplete] (VString "d")
           FilterWitness.after_c FilterWitness.after_c [] [] [] [] (VString "error")).
  - reflexivity.
  - reflexivity.
  - reflexivity.
  - right. exists (VString "d"), []. split; [reflexivity|]. split; reflexivity.
Defined.



(** The default comparator finds a value equal to itself. *)
Lemma deepEqual_same (h : heap) (v : value) : deepEqual h v v = Some true.
Proof.
  unfold deepEqual. cbn [equal]. rewrite decide_True by reflexivity. reflexivity.
Qed.

(** A constant value that is not an object, [n] times and then the end of the
    source: it is forwarded once. *)
Lemma constant_primitive_emitted_once (v : value) (n : nat) (h : heap) :
  negb (truthy v) || negb (bool_decide (typeof v = TObject)) = true ->
  distinctUntilChangedImmutable None None (replicate (S n) (INext v) ++ [IComplete]) h =
  Some [NextN v; CompleteN].
Proof.
  intros Hv.
  assert (Hcopy : copy v false h = Some (v, h)).
  { destruct v; simpl in Hv; try reflexivity. discriminate Hv. }
  set (this1 := Subscriber v true default_compare None (Consumer [NextN v] false) false).
  assert (Hrest : forall m, exists calls,
             run (replicate m (INext v)) this1 h = Some (this1, h, calls)).
  { induction m as [|m [calls IH]]; [exists []; reflexivity|].
    exists ([CallCompare v v] ++ calls). simpl.
    unfold next. simpl. unfold _next. simpl. unfold default_compare.
    rewrite deepEqual_same. simpl. rewrite IH. reflexivity. }
  destruct (Hrest n) as [calls Hn].
  unfold distinctUntilChangedImmutable. rewrite run_app. simpl.
  unfold next. simpl. unfold _next. simpl. rewrite Hcopy.
  change (destination_next v (set_key v (set_hasKey true
            (new_DistinctUntilChangedSubscriber (Consumer [] false) None None))))
    with this1.
  rewrite Hn. reflexivity.
Qed.

(** The clone of a view over the middle of its buffer is not deep-equal to the
    view: it looks at the four bytes of the copied buffer, the view at two. *)
Lemma subview_clone_not_deep_equal :
  ~ deep_equal (FilterExamples.subview ++
                  [Obj (ClsArrayBuffer [10; 11; 12; 13]%Z) []; Obj (ClsView 2 0 4 1) []])
               (VObject 3) (VObject 1).
Proof.
  intros (R & HR & Hab).
  destruct (HR _ _ Hab) as [Heq|(la & lb & oa & ob & Ha & Hb & Hla & Hlb & _ & Hbytes)].
  - discriminate Heq.
  - injection Ha as <-. injection Hb as <-.
    injection Hla as <-. injection Hlb as <-. discriminate Hbytes.
Qed.

(** C6 fails on the code: a view over the middle of its buffer, delivered
    twice, is forwarded twice.  The retained key is a view over all of the
    copied buffer, four bytes for the two of the value, so the default
    comparator finds the second delivery different from the first. *)
Theorem constant_subview_emitted_twice :
  copy (VObject 1) false FilterExamples.subview =
    Some (VObject 3,
          FilterExamples.subview ++
            [Obj (ClsArrayBuffer [10; 11; 12; 13]%Z) []; Obj (ClsView 2 0 4 1) []]) /\
  deepEqual (FilterExamples.subview ++
               [Obj (ClsArrayBuffer [10; 11; 12; 13]%Z) []; Obj (ClsView 2 0 4 1) []])
            (VObject 3) (VObject 1) = Some false /\
  distinctUntilChangedImmutable None None
    [INext (VObject 1); INext (VObject 1); IComplete] FilterExamples.subview =
  Some [NextN (VObject 1); NextN (VObject 1); CompleteN].
Proof. repeat split; vm_compute; reflexivity. Qed.

(** C7: with the comparator [(x, y) => y % 2 === 0] and no key-selector, the
    values 1, 2, 3, 4, 5, 6 come out as 1, 3, 5. *)
Theorem even_successors_are_dropped (h : heap) :
  distinctUntilChangedImmutable (Some FilterExamples.next_is_even) None
    [INext (VNumber 1); INext (VNumber 2); INext (VNumber 3);
     INext (VNumber 4); INext (VNumber 5); INext (VNumber 6)] h =
  Some [NextN (VNumber 1); NextN (VNumber 3); NextN (VNumber 5)].
Proof. reflexivity. Qed.

Lemma copies_selector_calls v this : copies (selector_calls v this) = [].
Proof. unfold selector_calls. destruct (keySelector this); reflexivity. Qed.

Lemma copies_after_selector v this calls :
  copies (selector_calls v this ++ calls) = copies calls.
Proof.
  unfold selector_calls. destruct (keySelector this); reflexivity.
Qed.

Lemma copies_none calls : copies calls = [] -> forall k, CallCopy k ∉ calls.
Proof.
  induction calls as [|c calls IH]; intros Hc k Hin; [inversion Hin|].
  apply elem_of_cons in Hin as [<-|Hin]; [discriminate Hc|].
  destruct c; simpl in Hc; try discriminate Hc; apply (IH Hc k Hin).
Qed.

(** A step that copies no key keeps the retained key and calls the comparator
    on it, if at all. *)
Lemma next_without_copy v this h this' h' calls :
  next v this h = Some (this', h', calls) -> hasKey this = true ->
  (forall k, CallCopy k ∉ calls) ->
  key this' = key this /\ hasKey this' = true /\
  forall x y, CallCompare x y ∈ calls -> x = key this.
Proof.
  intros Hstep Hk Hno.
  unfold next in Hstep. destruct (isStopped this).
  { injection Hstep as <- <- <-. split; [reflexivity|]. split; [exact Hk|].
    intros x y Hin. inversion Hin. }
  apply _next_cases in Hstep.
  assert (Hargs : forall x y, CallCompare x y ∈ calls -> x = key this).
  { intros x y Hin. eapply step_compare_call; eassumption. }
  inversion Hstep; subst; clear Hstep; simpl; auto.
  - congruence.
  - exfalso. apply (Hno k). apply elem_of_app. right. right. left.
Qed.

(** C9: a step copies a key exactly when it forwards the value, and once; the
    copy stays the retained key until the next value is accepted, and every
    call of the comparator in between gets this very reference as its first
    argument; a step that drops the value leaves the heap as the comparator
    left it, so what the comparator did to the retained key is there at the
    next comparison. *)
Theorem retained_key_is_copied_once :
  (forall v this h this' h' calls,
     next v this h = Some (this', h', calls) ->
     closed (destination this) = false ->
     (exists k h2,
        copies calls = [k] /\ copy k false h2 = Some (key this', h') /\
        received (destination this') = received (destination this) ++ [NextN v]) \/
     (copies calls = [] /\ key this' = key this /\
      (received (destination this') = received (destination this) \/
       exists err, received (destination this') =
                   received (destination this) ++ [ErrorN err]))) /\
  (forall inputs this h this' h' calls,
     run inputs this h = Some (this', h', calls) ->
     hasKey this = true ->
     (forall k, CallCopy k ∉ calls) ->
     key this' = key this /\
     forall x y, CallCompare x y ∈ calls -> x = key this) /\
  (forall v this h k h1 h2,
     state_of this = HAS_BASELINE ->
     extract v this h = Some (Returns k, h1) ->
     compare this (key this) k h1 = Some (Returns true, h2) ->
     next v this h = Some (this, h2, selector_calls v this ++ [CallCompare (key this) k])).
Proof.
  split; [|split].
  - intros v this h this' h' calls Hstep Hopen.
    unfold next in Hstep. destruct (isStopped this).
    { injection Hstep as <- <- <-. right. auto. }
    apply _next_cases in Hstep. inversion Hstep; subst; clear Hstep;
      rewrite ?copies_after_selector, ?copies_selector_calls; simpl;
      unfold consumer_next, consumer_error; rewrite ?Hopen.
    + right. eauto.
    + left. eauto.
    + right. eauto.
    + right. eauto.
    + left. eauto.
  - intros inputs. induction inputs as [|i inputs IH];
      intros this h this' h' calls Hrun Hk Hno.
    { injection Hrun as <- <- <-. split; [reflexivity|]. intros x y Hin. inversion Hin. }
    simpl in Hrun.
    destruct (deliver i this h) as [[[this1 h1] calls1]|] eqn:Hd; [|discriminate Hrun].
    destruct (run inputs this1 h1) as [[[this2 h2] calls2]|] eqn:Hr; [|discriminate Hrun].
    injection Hrun as <- <- <-.
    assert (Hno1 : forall k, CallCopy k ∉ calls1)
      by (intros k Hin; apply (Hno k); apply elem_of_app; auto).
    assert (Hno2 : forall k, CallCopy k ∉ calls2)
      by (intros k Hin; apply (Hno k); apply elem_of_app; auto).
    assert (Hstep : key this1 = key this /\ hasKey this1 = true /\
                    forall x y, CallCompare x y ∈ calls1 -> x = key this).
    { destruct i as [v|err|]; simpl in Hd.
      - eapply next_without_copy; eauto.
      - injection Hd as <- <- <-. unfold error.
        destruct (isStopped this); simpl; repeat split; auto;
          intros x y Hin; inversion Hin.
      - injection Hd as <- <- <-. unfold complete.
        destruct (isStopped this); simpl; repeat split; auto;
          intros x y Hin; inversion Hin. }
    destruct Hstep as (Hkey1 & Hk1 & Hargs1).
    destruct (IH _ _ _ _ _ Hr Hk1 Hno2) as (Hkey2 & Hargs2).
    split; [congruence|].
    intros x y Hin. apply elem_of_app in Hin as [Hin|Hin].
    + eapply Hargs1; eauto.
    + rewrite <- Hkey1. eapply Hargs2; eauto.
  - unfold state_of. intros v this h k h1 h2 Hstate He Hc.
    destruct (isStopped this) eqn:Hs; [discriminate Hstate|].
    destruct (hasKey this) eqn:Hk; [|discriminate Hstate].
    unfold next. rewrite Hs, (_next_compared _ _ _ _ _ He Hk), Hc. reflexivity.
Qed.

Lemma retained_key_is_copied_once_witness :
  ((exists k h2,
      copies [CallCompare (VNumber 1) (VNumber 3); CallCopy (VNumber 3)] = [k] /\
      copy k false h2 =
        Some (key (Subscriber (VNumber 3) true FilterExamples.next_is_even None
                              (Consumer [NextN (VNumber 1); NextN (VNumber 3)] false) false),
              []) /\
      received (destination
                  (Subscriber (VNumber 3) true FilterExamples.next_is_even None
                              (Consumer [NextN (VNumber 1); NextN (VNumber 3)] false) false)) =
        received (destination FilterWitness.after_one) ++ [NextN (VNumber 3)]) \/
   (copies [CallCompare (VNumber 1) (VNumber 3); CallCopy (VNumber 3)] = [] /\
    key (Subscriber (VNumber 3) true FilterExamples.next_is_even None
                    (Consumer [NextN (VNumber 1); NextN (VNumber 3)] false) false) =
      key FilterWitness.after_one /\
    (received (destination
                 (Subscriber (VNumber 3) true FilterExamples.next_is_even None
                             (Consumer [NextN (VNumber 1); NextN (VNumber 3)] false) false)) =
       received (destination FilterWitness.after_one) \/
     exists err,
       received (destination
                   (Subscriber (VNumber 3) true FilterExamples.next_is_even None
                               (Consumer [NextN (VNumber 1); NextN (VNumber 3)] false) false)) =
         received (destination FilterWitness.after_one) ++ [ErrorN err]))) /\
  (key FilterWitness.after_one = key FilterWitness.after_one /\
   forall x y,
     CallCompare x y ∈ [CallCompare (VNumber 1) (VNumber 2); CallCompare (VNumber 1) (VNumber 4)] ->
     x = key FilterWitness.after_one) /\
  next (VNumber 2) FilterWitness.after_one [] =
    Some (FilterWitness.after_one, [],
          selector_calls (VNumber 2) FilterWitness.after_one ++
            [CallCompare (key FilterWitness.after_one) (VNumber 2)]).
Proof.
  destruct retained_key_is_copied_once as (Hstep & Hrun & Hdrop).
  split; [|split].
  - apply (Hstep (VNumber 3) FilterWitness.after_one []); reflexivity.
  - apply (Hrun [INext (VNumber 2); INext (VNumber 4)] FilterWitness.after_one []
             FilterWitness.after_one []).
    + reflexivity.
    + reflexivity.
    + apply copies_none. reflexivity.
  - apply (Hdrop (VNumber 2) FilterWitness.after_one [] (VNumber 2) [] []); reflexivity.
Defined.

(** The mark the first comparison leaves on the retained key is there at the
    second: of three deliveries of the same object the third is forwarded. *)
Example mark_persists :
  distinctUntilChangedImmutable (Some MutatingComparator.marks_previous) None
    [INext (VObject 0); INext (VObject 0); INext (VObject 0)] [Obj ClsObject []] =
  Some [NextN (VObject 0); NextN (VObject 0)].
Proof. vm_compute. reflexivity. Qed.

(** ** The scenarios of the test suite *)

(** should distinguish between strings *)
Example distinguishes_strings :
  distinctUntilChangedImmutable None None
    [INext (VString "a"); INext (VString "a"); INext (VString "a");
     INext (VString "b"); INext (VString "b"); INext (VString "a"); IComplete] [] =
  Some [NextN (VString "a"); NextN (VString "b"); NextN (VString "a"); CompleteN].
Proof. vm_compute. reflexivity. Qed.

(** should distinguish between multiple deeply equal NESTED objects with arrays *)
Example distinguishes_nested_objects :
  wf_heap TestSuite.nested = true /\
  distinctUntilChangedImmutable None None
    [INext (VObject 0); INext (VObject 6); INext (VObject 0); INext (VObject 3);
     INext (VObject 3); INext (VObject 0); INext (VObject 3); INext (VObject 6);
     IComplete] TestSuite.nested =
  Some [NextN (VObject 0); NextN (VObject 6); NextN (VObject 0); NextN (VObject 6);
        CompleteN].
Proof. split; vm_compute; reflexivity. Qed.

(** should use the keySelector to pick comparator values *)
Example uses_the_key_selector :
  distinctUntilChangedImmutable (Some TestSuite.next_is_odd) (Some TestSuite.parity) FilterExamples.numbers [] =
  Some [NextN (VNumber 1); NextN (VNumber 2); NextN (VNumber 4); NextN (VNumber 6);
        CompleteN].
Proof. vm_compute. reflexivity. Qed.

(** should raises error when comparator throws *)
Example raises_when_comparator_throws :
  distinctUntilChangedImmutable (Some FilterWitness.throws_on_d) None TestSuite.letters [] =
  Some [NextN (VString "a"); NextN (VString "b"); NextN (VString "c");
        ErrorN (VString "error")].
Proof. vm_compute. reflexivity. Qed.

(** should raises error when keySelector throws *)
Example raises_when_selector_throws :
  distinctUntilChangedImmutable None (Some TestSuite.selector_throws_on_d) TestSuite.letters [] =
  Some [NextN (VString "a"); NextN (VString "b"); NextN (VString "c");
        ErrorN (VString "error")].
Proof. vm_compute. reflexivity. Qed.

(** ** Well-formed heaps stay well-formed *)

Lemma forallb_Forall {A} (f : A -> bool) (l : list A) :
  forallb f l = true <-> Forall (fun x => f x = true) l.
Proof.
  rewrite forallb_forall, Forall_forall. split; intros H x Hx; apply H.
  - apply list_elem_of_In. exact Hx.
  - apply list_elem_of_In. exact Hx.
Qed.

Lemma wf_obj_iff h o :
  wf_obj h o = true <->
  Forall (fun v => value_closed (length h) v = true) (obj_values o) /\
  view_ok h o = true /\ keys_distinct o = true.
Proof.
  unfold wf_obj. rewrite !andb_true_iff, forallb_Forall. tauto.
Qed.

Lemma assign_closed n ps k v :
  Forall (fun kd : pkey * descriptor => value_closed n (dvalue kd.2) = true) ps ->
  value_closed n v = true ->
  Forall (fun kd : pkey * descriptor => value_closed n (dvalue kd.2) = true) (assign ps k v).
Proof.
  intros Hps Hv. induction ps as [|[k' d] ps IH]; simpl.
  - constructor; [exact Hv|constructor].
  - apply Forall_cons in Hps as [Hd Hps].
    destruct (decide (k' = k)); constructor; auto.
Qed.


Lemma defineProperty_closed n ps k d :
  Forall (fun kd : pkey * descriptor => value_closed n (dvalue kd.2) = true) ps ->
  value_closed n (dvalue d) = true ->
  Forall (fun kd : pkey * descriptor => value_closed n (dvalue kd.2) = true)
         (defineProperty ps k d).
Proof.
  intros Hps Hv. induction ps as [|[k' d'] ps IH]; simpl.
  - constructor; [exact Hv|constructor].
  - apply Forall_cons in Hps as [Hd Hps].
    destruct (decide (k' = k)); constructor; auto.
Qed.


Lemma map_set_keys ps k v :
  (map_set ps k v).*1 = if decide (k ∈ ps.*1) then ps.*1 else ps.*1 ++ [k].
Proof.
  induction ps as [|[k' d'] ps IH]; [reflexivity|].
  cbn [map_set]. destruct (decide (k' = k)) as [->|Hne]; rewrite !fmap_cons; cbn [fst].
  - rewrite decide_True by left. reflexivity.
  - rewrite IH. destruct (decide (k ∈ ps.*1)) as [Hin|Hnin].
    + rewrite decide_True by (right; exact Hin). reflexivity.
    + rewrite decide_False; [reflexivity|].
      intros H. apply elem_of_cons in H as [->|H]; contradiction.
Qed.

Lemma map_set_values n es k v :
  Forall (fun x => value_closed n x = true) es.*2 -> value_closed n v = true ->
  Forall (fun x => value_closed n x = true) (map_set es k v).*2.
Proof.
  intros Hes Hv. induction es as [|[k' v'] es IH]; simpl.
  - constructor; [exact Hv|constructor].
  - simpl in Hes. apply Forall_cons in Hes as [Hd Hes].
    destruct (decide (k' = k)); simpl; constructor; auto.
Qed.

Lemma NoDup_snoc_new {A} (l : list A) (x : A) : NoDup l -> x ∉ l -> NoDup (l ++ [x]).
Proof.
  intros Hnd Hx. apply NoDup_app. split; [exact Hnd|]. split; [|apply NoDup_singleton].
  intros y Hy Hy'. apply list_elem_of_singleton in Hy'. subst. contradiction.
Qed.

Lemma keys_after_update {A} `{EqDecision A} (l : list A) (k : A) :
  NoDup l -> NoDup (if decide (k ∈ l) then l else l ++ [k]).
Proof.
  intros Hnd. destruct (decide (k ∈ l)); [exact Hnd|]. apply NoDup_snoc_new; assumption.
Qed.

Lemma array_assign_closed n elems i v :
  Forall (fun x => value_closed n x = true) elems -> value_closed n v = true ->
  Forall (fun x => value_closed n x = true) (array_assign elems i v).
Proof.
  intros He Hv. unfold array_assign. destruct (decide (i < length elems)).
  - apply Forall_insert; assumption.
  - apply Forall_app. split; [exact He|]. apply Forall_app. split.
    + apply Forall_replicate. reflexivity.
    + constructor; [exact Hv|constructor].
Qed.

(** *** The updates of a clone *)

Lemma view_ok_buffer h o :
  view_ok h o = true <->
  match cls o with
  | ClsView buffer _ _ _ => exists b, h !! buffer = Some b /\ is_buffer b = true
  | _ => True
  end.
Proof.
  unfold view_ok, is_buffer. destruct (cls o); try tauto.
  destruct (h !! buffer) as [[c ps]|]; simpl.
  - split.
    + intros H. exists (Obj c ps). split; [reflexivity|]. destruct c; auto.
    + intros (b & Hb & H). injection Hb as <-. simpl in H. destruct c; auto.
  - split; [discriminate|]. intros (b & Hb & _). discriminate.
Qed.

(** An object stays well formed when the heap grows and buffers stay buffers. *)
Lemma wf_obj_stable h h' o :
  length h <= length h' ->
  (forall l b, h !! l = Some b -> is_buffer b = true ->
               exists b', h' !! l = Some b' /\ is_buffer b' = true) ->
  wf_obj h o = true -> wf_obj h' o = true.
Proof.
  intros Hlen Hbuf. rewrite !wf_obj_iff. intros (Hv & Hview & Hk).
  split; [|split; [|exact Hk]].
  - eapply Forall_impl; [exact Hv|]. intros v. apply value_closed_mono. exact Hlen.
  - apply view_ok_buffer. apply view_ok_buffer in Hview.
    destruct (cls o); auto. destruct Hview as (b & Hb & Hib). eauto.
Qed.

Lemma wf_heap_Forall h : wf_heap h = true <-> Forall (fun o => wf_obj h o = true) h.
Proof. unfold wf_heap. apply forallb_Forall. Qed.

Lemma wf_heap_lookup h l o : wf_heap h = true -> h !! l = Some o -> wf_obj h o = true.
Proof.
  intros Hwf Hl. apply wf_heap_Forall in Hwf. rewrite Forall_lookup in Hwf. eauto.
Qed.

(** Allocation of a well-formed object *)
Lemma wf_heap_alloc h o :
  wf_heap h = true -> wf_obj (h ++ [o]) o = true -> wf_heap (h ++ [o]) = true.
Proof.
  intros Hwf Ho. apply wf_heap_Forall. apply Forall_app. split.
  - apply wf_heap_Forall in Hwf. eapply Forall_impl; [exact Hwf|].
    intros x. apply wf_obj_stable.
    + rewrite length_app. lia.
    + intros l b Hl Hb. exists b. split; [|exact Hb].
      rewrite lookup_app_l; [exact Hl|]. eapply lookup_lt_Some; eauto.
  - constructor; [exact Ho|constructor].
Qed.

(** The update of an object in place *)
Lemma wf_heap_insert h c o o' :
  wf_heap h = true -> h !! c = Some o ->
  wf_obj h o' = true -> (is_buffer o = true -> is_buffer o' = true) ->
  wf_heap (<[c := o']> h) = true.
Proof.
  intros Hwf Hc Ho' Hbuf.
  assert (Hst : forall x, wf_obj h x = true -> wf_obj (<[c := o']> h) x = true).
  { intros x. apply wf_obj_stable.
    - rewrite length_insert. lia.
    - intros l b Hl Hb. destruct (decide (l = c)) as [->|Hne].
      + exists o'. split.
        * apply list_lookup_insert_eq. eapply lookup_lt_Some; eauto.
        * apply Hbuf. congruence.
      + exists b. split; [|exact Hb]. rewrite list_lookup_insert_ne by auto. exact Hl. }
  apply wf_heap_Forall. apply Forall_insert.
  - apply wf_heap_Forall in Hwf. eapply Forall_impl; [exact Hwf|]. exact Hst.
  - apply Hst. exact Ho'.
Qed.

Lemma wf_obj_parts h c ps :
  wf_obj h (Obj c ps) = true <->
  Forall (fun kd : pkey * descriptor => value_closed (length h) (dvalue kd.2) = true) ps /\
  NoDup ps.*1 /\
  wf_obj h (Obj c []) = true.
Proof.
  rewrite !wf_obj_iff. unfold obj_values, keys_distinct, view_ok. simpl.
  rewrite !Forall_app, !andb_true_iff, !bool_decide_eq_true, Forall_fmap.
  split.
  - intros ((Hps & Hc) & Hv & Hnd & Hk). auto 10.
  - intros (Hps & Hnd & Hc & Hv & Hk). auto 10.
Qed.

Lemma set_property_wf h k v o :
  wf_obj h o = true -> value_closed (length h) v = true ->
  wf_obj h (set_property k v o) = true.
Proof.
  destruct o as [c ps]. unfold set_property. simpl.
  intros Ho Hv. apply wf_obj_parts in Ho as (Hps & Hnd & Hc). apply wf_obj_parts.
  split; [apply assign_closed; assumption|]. split; [|exact Hc].
  rewrite assign_keys. apply keys_after_update. exact Hnd.
Qed.

Lemma define_property_wf h k d o :
  wf_obj h o = true -> value_closed (length h) (dvalue d) = true ->
  wf_obj h (define_property k d o) = true.
Proof.
  destruct o as [c ps]. unfold define_property. simpl.
  intros Ho Hv. apply wf_obj_parts in Ho as (Hps & Hnd & Hc). apply wf_obj_parts.
  split; [apply defineProperty_closed; assumption|]. split; [|exact Hc].
  rewrite defineProperty_keys. apply keys_after_update. exact Hnd.
Qed.

Lemma wf_obj_array h elems :
  wf_obj h (Obj (ClsArray elems) []) = true <->
  Forall (fun v => value_closed (length h) v = true) elems.
Proof.
  rewrite wf_obj_iff. unfold obj_values, keys_distinct, view_ok. simpl.
  split; [tauto|]. intros H. split; [exact H|]. split; reflexivity.
Qed.

Lemma set_index_wf h i v o :
  wf_obj h o = true -> value_closed (length h) v = true ->
  wf_obj h (set_index i v o) = true.
Proof.
  destruct o as [c ps]. unfold set_index. simpl. intros Ho Hv.
  destruct c; try exact Ho.
  apply wf_obj_parts in Ho as (Hps & Hnd & Hc). apply wf_obj_parts.
  split; [exact Hps|]. split; [exact Hnd|].
  apply wf_obj_array. apply wf_obj_array in Hc. apply array_assign_closed; assumption.
Qed.

Lemma set_length_wf h n o :
  wf_obj h o = true -> wf_obj h (set_length n o) = true.
Proof.
  destruct o as [c ps]. unfold set_length. simpl. intros Ho.
  destruct c; try exact Ho.
  apply wf_obj_parts in Ho as (Hps & Hnd & Hc). apply wf_obj_parts.
  split; [exact Hps|]. split; [exact Hnd|].
  apply wf_obj_array. apply wf_obj_array in Hc. apply Forall_app. split.
  - apply Forall_take. exact Hc.
  - apply Forall_replicate. reflexivity.
Qed.

Lemma wf_obj_map h entries :
  wf_obj h (Obj (ClsMap entries) []) = true <->
  Forall (fun v => value_closed (length h) v = true) entries.*1 /\
  Forall (fun v => value_closed (length h) v = true) entries.*2 /\
  NoDup entries.*1.
Proof.
  rewrite wf_obj_iff. unfold obj_values, keys_distinct, view_ok. simpl.
  rewrite Forall_app, bool_decide_eq_true. tauto.
Qed.

Lemma put_entry_wf h kv v o :
  wf_obj h o = true -> value_closed (length h) kv.1 = true ->
  value_closed (length h) v = true ->
  wf_obj h (put_entry kv v o) = true.
Proof.
  destruct o as [c ps]. unfold put_entry. simpl. intros Ho Hk Hv.
  destruct c; try exact Ho.
  apply wf_obj_parts in Ho as (Hps & Hnd & Hc). apply wf_obj_parts.
  split; [exact Hps|]. split; [exact Hnd|].
  apply wf_obj_map. apply wf_obj_map in Hc as (H1 & H2 & H3).
  split; [|split].
  - rewrite map_set_keys. destruct (decide (kv.1 ∈ entries.*1)); [exact H1|].
    apply Forall_app. split; [exact H1|]. constructor; [exact Hk|constructor].
  - apply map_set_values; assumption.
  - rewrite map_set_keys. apply keys_after_update. exact H3.
Qed.

Lemma wf_obj_set h members :
  wf_obj h (Obj (ClsSet members) []) = true <->
  Forall (fun v => value_closed (length h) v = true) members /\ NoDup members.
Proof.
  rewrite wf_obj_iff. unfold obj_values, keys_distinct, view_ok. simpl.
  rewrite bool_decide_eq_true. tauto.
Qed.

Lemma put_member_wf h (x : value) v o :
  wf_obj h o = true -> value_closed (length h) v = true ->
  wf_obj h (put_member x v o) = true.
Proof.
  destruct o as [c ps]. unfold put_member. simpl. intros Ho Hv.
  destruct c; try exact Ho.
  apply wf_obj_parts in Ho as (Hps & Hnd & Hc). apply wf_obj_parts.
  split; [exact Hps|]. split; [exact Hnd|].
  apply wf_obj_set. apply wf_obj_set in Hc as (H1 & H3).
  unfold set_add. destruct (decide (v ∈ members)); [auto|]. split.
  - apply Forall_app. split; [exact H1|]. constructor; [exact Hv|constructor].
  - apply NoDup_snoc_new; assumption.
Qed.

(** ** What a call of [handleCopy] leaves behind *)

(** Whenever the copier returns: the heap has only grown, the result is the
    value or a new object, and a well-formed heap is still well formed. *)
Definition copier_post (rec : value -> M cstate value) : Prop :=
  forall v s v' s', rec v s = Some (v', s') ->
    extends s s' /\
    kept_or_new (length (st_heap s)) (length (st_heap s')) v v' /\
    (wf_heap (st_heap s) = true -> value_closed (length (st_heap s)) v = true ->
     wf_heap (st_heap s') = true).

Section LoopPost.

Context {A : Type}.
Variable g : A -> value.
Variable rec : value -> M cstate value.
Hypothesis Hrec : copier_post rec.
Variable c : loc.
Variable upd : A -> value -> obj -> completion obj.
Variable fin : A -> value -> obj -> obj.
Hypothesis upd_fin : forall x v o o', upd x v o = Normal o' -> o' = fin x v o.

Lemma body_inv x s s' :
  body g rec c upd x s = Some (tt, s') ->
  exists v' s1 o,
    rec (g x) s = Some (v', s1) /\ st_heap s1 !! c = Some o /\
    s' = CState (<[c := fin x v' o]> (st_heap s1)) (st_cache s1).
Proof.
  unfold body. intros H. apply bind_inv in H as (v' & s1 & Hrun & H).
  apply update_inv in H as (o & o' & Hc & Hupd & ->).
  apply upd_fin in Hupd as ->. exists v', s1, o. auto.
Qed.

(** The clone under construction holds what the loop put into it. *)
Lemma forEach_shape xs : forall s s' o,
  forEach (body g rec c upd) xs s = Some (tt, s') ->
  st_heap s !! c = Some o ->
  frame_except c s s' /\
  exists vs, st_heap s' !! c = Some (built fin xs vs o) /\
             copied g (length (st_heap s)) (length (st_heap s')) xs vs.
Proof.
  induction xs as [|x xs IH]; intros s s' o Hrun Hc.
  - injection Hrun as <-. split.
    + split; [lia|]. split; [auto|reflexivity].
    + exists []. split; [exact Hc|]. constructor. lia.
  - simpl in Hrun. apply bind_inv in Hrun as ([] & s2 & Hbody & Hrun).
    apply body_inv in Hbody as (v' & s1 & o1 & Hcall & Hc1 & ->).
    destruct (Hrec _ _ _ _ Hcall) as ((Hlen1 & Hfr1 & Hca1) & Hk & _).
    assert (Hclt : c < length (st_heap s)) by (eapply lookup_lt_Some; eauto).
    assert (o1 = o) as -> by (rewrite Hfr1 in Hc1 by exact Hclt; congruence).
    edestruct IH as (Hfr & vs & Hc' & Hcop); [exact Hrun| |].
    { simpl. apply list_lookup_insert_eq. lia. }
    destruct Hfr as (Hlen & Hfr & Hca). simpl in Hlen, Hfr, Hca, Hcop, Hc'.
    rewrite length_insert in Hlen, Hfr, Hcop.
    split.
    + split; [lia|]. split.
      * intros l Hl Hne. rewrite Hfr by (auto; lia).
        rewrite list_lookup_insert_ne by auto. apply Hfr1. exact Hl.
      * etrans; [exact Hca1|exact Hca].
    + exists (v' :: vs). split; [exact Hc'|].
      econstructor; [exact Hlen1|exact Hk|exact Hcop].
Qed.

Variable cl : nat -> A -> Prop.
Hypothesis cl_mono : forall n n' x, n <= n' -> cl n x -> cl n' x.
Hypothesis cl_g : forall n x, cl n x -> value_closed n (g x) = true.
Hypothesis upd_wf : forall h x v o,
  wf_obj h o = true -> cl (length h) x -> value_closed (length h) v = true ->
  wf_obj h (fin x v o) = true.
Hypothesis upd_buffer : forall x v o, is_buffer o = true -> is_buffer (fin x v o) = true.

(** The loop keeps the heap well formed. *)
Lemma forEach_wf xs : forall s s',
  forEach (body g rec c upd) xs s = Some (tt, s') ->
  wf_heap (st_heap s) = true -> Forall (cl (length (st_heap s))) xs ->
  wf_heap (st_heap s') = true.
Proof.
  induction xs as [|x xs IH]; intros s s' Hrun Hwf Hcl.
  - injection Hrun as <-. exact Hwf.
  - apply Forall_cons in Hcl as [Hx Hcl].
    simpl in Hrun. apply bind_inv in Hrun as ([] & s2 & Hbody & Hrun).
    apply body_inv in Hbody as (v' & s1 & o1 & Hcall & Hc1 & ->).
    destruct (Hrec _ _ _ _ Hcall) as ((Hlen1 & Hfr1 & Hca1) & Hk & Hwf1).
    specialize (Hwf1 Hwf (cl_g _ _ Hx)).
    eapply IH; [exact Hrun| |].
    + simpl. eapply wf_heap_insert; [exact Hwf1|exact Hc1| |apply upd_buffer].
      apply upd_wf.
      * eapply wf_heap_lookup; eauto.
      * eapply cl_mono; [|exact Hx]. exact Hlen1.
      * eapply kept_or_new_closed; [exact Hlen1|exact Hk|]. apply cl_g. exact Hx.
    + simpl. rewrite length_insert. eapply Forall_impl; [exact Hcl|].
      intros y. apply cl_mono. exact Hlen1.
Qed.

End LoopPost.

Lemma built_app {A} (upd : A -> value -> obj -> obj) xs ys vs ws o :
  length vs = length xs ->
  built upd (xs ++ ys) (vs ++ ws) o = built upd ys ws (built upd xs vs o).
Proof.
  intros Hlen. unfold built.
  rewrite zip_with_app by (symmetry; exact Hlen). apply fold_left_app.
Qed.

Lemma wf_obj_props h o :
  wf_obj h o = true ->
  Forall (fun kd : pkey * descriptor => value_closed (length h) (dvalue kd.2) = true) (props o) /\
  NoDup (props o).*1.
Proof. destruct o as [c ps]. intros H. apply wf_obj_parts in H as (H1 & H2 & _). auto. Qed.

Lemma wf_obj_cls h o : wf_obj h o = true -> wf_obj h (Obj (cls o) []) = true.
Proof. destruct o as [c ps]. intros H. apply wf_obj_parts in H as (_ & _ & H). exact H. Qed.

Lemma create_prototype_inv o clean :
  create_prototype o = Normal clean -> clean = Obj (cls o) [].
Proof.
  unfold create_prototype.
  destruct (own_property o "__proto__") as [v|]; [destruct (truthy v); [destruct v; discriminate|]|];
    destruct (cls o); intros [= <-] || discriminate; reflexivity.
Qed.

Lemma self_contained_inv own :
  self_contained own = true ->
  Forall (fun kd : pkey * descriptor => is_object (dvalue kd.2) = false) own /\ NoDup own.*1.
Proof.
  unfold self_contained. rewrite andb_true_iff, bool_decide_eq_true.
  intros [Hprim Hnd]. split; [|exact Hnd].
  rewrite forallb_forall in Hprim. apply Forall_forall. intros kd Hkd.
  apply list_elem_of_In in Hkd. specialize (Hprim _ Hkd).
  destruct (dvalue kd.2); try reflexivity. discriminate Hprim.
Qed.

(** A clean clone is empty, but for the own properties an instance comes
    with. *)
Lemma getCleanClone_inv o clean :
  getCleanClone o = Normal clean ->
  clean = Obj ClsNull [] \/ clean = Obj (cls o) [] \/ clean = Obj (blank (cls o)) [] \/
  exists k own, cls o = ClsCustom k (NativeGives own) /\ self_contained own = true /\
                clean = Obj (cls o) own.
Proof.
  unfold getCleanClone. intros H.
  destruct (constructor_of o) as [|v].
  - destruct (cls o) as [| |k n| | | | | | | | | | | |] eqn:Hc;
      try (injection H as <-; auto; fail);
      try (apply create_prototype_inv in H; rewrite Hc in H; auto; fail).
    destruct n as [| |own]; try (apply create_prototype_inv in H; rewrite Hc in H; auto; fail).
    destruct (self_contained own) eqn:Hs; [|discriminate].
    injection H as <-. right. right. right. eauto.
  - destruct (negb (truthy v)).
    + destruct (is_array o); [discriminate|]. injection H as <-. auto.
    + destruct v; try discriminate. apply create_prototype_inv in H. auto.
Qed.

Lemma getCleanClone_wf h o clean :
  wf_obj h o = true -> getCleanClone o = Normal clean -> wf_obj h clean = true.
Proof.
  intros Ho H. pose proof (wf_obj_cls _ _ Ho) as Hsame.
  apply getCleanClone_inv in H as [->| [->| [->|(k & own & Hc & Hs & ->)]]].
  - reflexivity.
  - exact Hsame.
  - destruct (cls o); try exact Hsame; reflexivity.
  - apply self_contained_inv in Hs as [Hprim Hnd]. apply wf_obj_parts.
    split; [|split; [exact Hnd|exact Hsame]].
    eapply Forall_impl; [exact Hprim|]. intros kd. cbv beta.
    destruct (dvalue kd.2); simpl; intros Hkd; try reflexivity. discriminate Hkd.
Qed.

Lemma put_assigned k v o o' : put k v o = Normal o' -> o' = assigned k v o.
Proof.
  unfold put. destruct (runs_proto_setter k o).
  - destruct v; intros [= <-] || discriminate; reflexivity.
  - destruct (getOwnPropertyDescriptor (props o) k) as [d|]; [|intros [= <-]; reflexivity].
    destruct (accessor d); [discriminate|].
    destruct (writable d); [intros [= <-]; reflexivity|discriminate].
Qed.

Lemma define_defined k d o o' : define k d o = Normal o' -> o' = define_property k d o.
Proof.
  unfold define. destruct (accessor d); [discriminate|].
  destruct (getOwnPropertyDescriptor (props o) k) as [d0|]; [|intros [= <-]; reflexivity].
  destruct (configurable d0 || accepts d0 d); [intros [= <-]; reflexivity|discriminate].
Qed.

Lemma always_fin {A} (f : A -> value -> obj -> obj) x v o o' :
  always f x v o = Normal o' -> o' = f x v o.
Proof. intros [= <-]. reflexivity. Qed.

Lemma assigned_wf h k v o :
  wf_obj h o = true -> value_closed (length h) v = true ->
  wf_obj h (assigned k v o) = true.
Proof.
  intros Ho Hv. unfold assigned. destruct (runs_proto_setter k o); [exact Ho|].
  apply set_property_wf; assumption.
Qed.

Lemma assigned_buffer k v o : is_buffer o = true -> is_buffer (assigned k v o) = true.
Proof. unfold assigned. destruct (runs_proto_setter k o); auto. Qed.

Lemma wf_heap_new h o :
  wf_heap h = true -> wf_obj h o = true -> wf_heap (h ++ [o]) = true.
Proof.
  intros Hwf Ho. apply wf_heap_alloc; [exact Hwf|].
  eapply wf_obj_stable; [| |exact Ho].
  - rewrite length_app. lia.
  - intros l b Hl Hb. exists b. split; [|exact Hb].
    rewrite lookup_app_l; [exact Hl|]. eapply lookup_lt_Some; eauto.
Qed.

Lemma lookup_new (h : list obj) o : (h ++ [o]) !! length h = Some o.
Proof. rewrite lookup_app_r by lia. rewrite Nat.sub_diag. reflexivity. Qed.

Lemma props_closed_sublist n (ps qs : list (pkey * descriptor)) :
  sublist qs ps ->
  Forall (fun kd : pkey * descriptor => value_closed n (dvalue kd.2) = true) ps ->
  Forall (fun kd : pkey * descriptor => value_closed n (dvalue kd.2) = true) qs.
Proof.
  intros Hs Hps. rewrite Forall_forall in *. intros x Hx. apply Hps.
  eapply elem_of_sublist; eauto.
Qed.

Lemma props_closed_subset n (ps qs : list (pkey * descriptor)) :
  (forall x, x ∈ qs -> x ∈ ps) ->
  Forall (fun kd : pkey * descriptor => value_closed n (dvalue kd.2) = true) ps ->
  Forall (fun kd : pkey * descriptor => value_closed n (dvalue kd.2) = true) qs.
Proof. intros Hs Hps. rewrite Forall_forall in *. auto. Qed.

Lemma props_closed_mono n n' (ps : list (pkey * descriptor)) :
  n <= n' ->
  Forall (fun kd : pkey * descriptor => value_closed n (dvalue kd.2) = true) ps ->
  Forall (fun kd : pkey * descriptor => value_closed n' (dvalue kd.2) = true) ps.
Proof.
  intros Hn Hps. eapply Forall_impl; [exact Hps|].
  intros kd. apply value_closed_mono. exact Hn.
Qed.

Lemma loose_keys_sublist ps :
  sublist (filter (fun kd : pkey * descriptor => enumerable kd.2 = true) (getOwnPropertyNames ps)) ps /\
  sublist (filter (fun kd : pkey * descriptor => enumerable kd.2 = true) (getOwnPropertySymbols ps)) ps.
Proof. split; (etrans; [apply sublist_filter|apply sublist_filter]). Qed.

Section ClonePost.

Variable rec : value -> M cstate value.
Hypothesis Hrec : copier_post rec.

(** [getObjectCloneLoose]: the clone is a clean clone filled with the own
    enumerable properties, names first. *)
Lemma getObjectCloneLoose_post l o s v' s' :
  st_heap s !! l = Some o ->
  getObjectCloneLoose l rec s = Some (v', s') ->
  v' = VObject (length (st_heap s)) /\ extends s s' /\
  length (st_heap s) < length (st_heap s') /\
  (exists clean vs,
     getCleanClone o = Normal clean /\
     st_heap s' !! length (st_heap s) =
       Some (built (fun kd v => assigned kd.1 v) (loose_keys (props o)) vs clean) /\
     copied (fun kd : pkey * descriptor => dvalue kd.2)
            (S (length (st_heap s))) (length (st_heap s')) (loose_keys (props o)) vs) /\
  (wf_heap (st_heap s) = true -> wf_heap (st_heap s') = true).
Proof.
  intros Hl H. unfold getObjectCloneLoose in H.
  apply bind_inv in H as (o' & s0 & Hload & H).
  unfold load in Hload. rewrite Hl in Hload. injection Hload as <- <-.
  apply bind_inv in H as (clean & s0 & Hclean & H). apply complete_inv in Hclean as [Hclean ->].
  apply bind_inv in H as (c & t & Halloc & H). injection Halloc as <- <-.
  set (c := length (st_heap s)) in *.
  set (t := CState (st_heap s ++ [clean]) (st_cache s)) in *.
  apply bind_inv in H as ([] & t1 & Hrun1 & H).
  apply bind_inv in H as ([] & t2 & Hrun2 & H). injection H as <- <-.
  assert (Hct : st_heap t !! c = Some clean) by apply lookup_new.
  assert (Hlent : length (st_heap t) = S c).
  { unfold t, c. simpl. rewrite length_app. simpl. lia. }
  assert (Hfin : forall (x : pkey * descriptor) v o o',
             put x.1 v o = Normal o' -> o' = assigned x.1 v o)
    by (intros; apply put_assigned; assumption).
  pose proof Hrun1 as Hsh1.
  apply (forEach_shape (fun kd : pkey * descriptor => dvalue kd.2) rec Hrec c
           (fun kd v => put kd.1 v) (fun kd v => assigned kd.1 v) Hfin) with (o := clean) in Hsh1;
    [|exact Hct].
  destruct Hsh1 as (Hfr1 & vs1 & Hc1 & Hcop1).
  pose proof Hrun2 as Hsh2.
  eapply (forEach_shape (fun kd : pkey * descriptor => dvalue kd.2) rec Hrec c
            (fun kd v => put kd.1 v) (fun kd v => assigned kd.1 v) Hfin) in Hsh2; [|exact Hc1].
  destruct Hsh2 as (Hfr2 & vs2 & Hc2 & Hcop2).
  pose proof (frame_except_trans _ _ _ _ Hfr1 Hfr2) as Hfr.
  split; [reflexivity|]. split; [apply frame_extends with (o := clean); exact Hfr|].
  split; [destruct Hfr as (Hlen & _); lia|]. split.
  - exists clean, (vs1 ++ vs2). split; [exact Hclean|]. unfold loose_keys. split.
    + rewrite built_app by (eapply copied_length; eauto). exact Hc2.
    + rewrite <- Hlent. eapply copied_app; eauto.
  - intros Hwf.
    pose proof (wf_heap_lookup _ _ _ Hwf Hl) as Ho.
    destruct (wf_obj_props _ _ Ho) as (Hps & _).
    destruct (loose_keys_sublist (props o)) as (Hs1 & Hs2).
    assert (Hwft : wf_heap (st_heap t) = true).
    { apply wf_heap_new; [exact Hwf|]. eapply getCleanClone_wf; eauto. }
    assert (Hwf1 : wf_heap (st_heap t1) = true).
    { eapply (forEach_wf (fun kd : pkey * descriptor => dvalue kd.2) rec Hrec c
                (fun kd v => put kd.1 v) (fun kd v => assigned kd.1 v) Hfin
                (fun n kd => value_closed n (dvalue kd.2) = true)); [| | | |exact Hrun1|exact Hwft|].
      - intros n n' x Hn. apply value_closed_mono. exact Hn.
      - auto.
      - intros h x v o' Ho' _ Hv. apply assigned_wf; assumption.
      - intros x v o'. apply assigned_buffer.
      - eapply props_closed_mono; [|eapply props_closed_sublist; [exact Hs1|exact Hps]]. lia. }
    eapply (forEach_wf (fun kd : pkey * descriptor => dvalue kd.2) rec Hrec c
              (fun kd v => put kd.1 v) (fun kd v => assigned kd.1 v) Hfin
              (fun n kd => value_closed n (dvalue kd.2) = true)); [| | | |exact Hrun2|exact Hwf1|].
    + intros n n' x Hn. apply value_closed_mono. exact Hn.
    + auto.
    + intros h x v o' Ho' _ Hv. apply assigned_wf; assumption.
    + intros x v o'. apply assigned_buffer.
    + eapply props_closed_mono; [|eapply props_closed_sublist; [exact Hs2|exact Hps]].
      destruct Hfr1 as (Hlen & _). lia.
Qed.

Lemma wf_obj_elements h o :
  wf_obj h o = true ->
  Forall (fun ix : nat * value => value_closed (length h) ix.2 = true) (indexed_elements o).
Proof.
  intros Ho. apply wf_obj_iff in Ho as (Hv & _). unfold obj_values in Hv.
  apply Forall_app in Hv as [_ Hv]. unfold indexed_elements.
  destruct (cls o); try constructor. apply imap_closed, Hv.
Qed.

Lemma set_index_buffer i v o : is_buffer o = true -> is_buffer (set_index i v o) = true.
Proof. destruct o as [c ps]. destruct c; simpl; auto. Qed.

Lemma set_length_buffer n o : is_buffer o = true -> is_buffer (set_length n o) = true.
Proof. destruct o as [c ps]. destruct c; simpl; auto. Qed.

(** [getObjectCloneStrict]: the clone is a clean clone filled with the
    elements, then with every own property but [callee] and [caller], each
    with the flags of the original. *)
Lemma getObjectCloneStrict_post l o s v' s' :
  st_heap s !! l = Some o ->
  getObjectCloneStrict l rec s = Some (v', s') ->
  v' = VObject (length (st_heap s)) /\ extends s s' /\
  length (st_heap s) < length (st_heap s') /\
  (exists clean vs1 vs3,
     getCleanClone o = Normal clean /\
     st_heap s' !! length (st_heap s) =
       Some (built (fun kd v => define_property kd.1 (with_value kd.2 v))
                   (strict_keys (props o)) vs3
               (with_length o
                  (built (fun ix v => set_index ix.1 v) (indexed_elements o) vs1 clean))) /\
    Forall2 (fun (ix : nat * value) v' =>
                kept_or_new (S (length (st_heap s))) (length (st_heap s')) ix.2 v')
             (indexed_elements o) vs1 /\
    Forall2 (fun (kd : pkey * descriptor) v' =>
                kept_or_new (S (length (st_heap s))) (length (st_heap s')) (dvalue kd.2) v')
             (strict_keys (props o)) vs3) /\
 (wf_heap (st_heap s) = true -> wf_heap (st_heap s') = true).
Proof.
  intros Hl H. unfold getObjectCloneStrict in H.
  apply bind_inv in H as (o' & s0 & Hload & H).
  unfold load in Hload. rewrite Hl in Hload. injection Hload as <- <-.
  apply bind_inv in H as (clean & s0 & Hclean & H). apply complete_inv in Hclean as [Hclean ->].
  apply bind_inv in H as (c & t & Halloc & H). injection Halloc as <- <-.
  set (c := length (st_heap s)) in *.
  set (t := CState (st_heap s ++ [clean]) (st_cache s)) in *.
  apply bind_inv in H as ([] & t1 & Hrun1 & H).
  apply bind_inv in H as ([] & t2 & Hrun2 & H).
  apply bind_inv in H as ([] & t3 & Hrun3 & H). injection H as <- <-.
  rewrite forEach_guard in Hrun3. fold (strict_keys (props o)) in Hrun3.
  assert (Hct : st_heap t !! c = Some clean) by apply lookup_new.
  assert (Hlent : length (st_heap t) = S c).
  { unfold t, c. simpl. rewrite length_app. simpl. lia. }
  assert (Hfin1 : forall (x : nat * value) v o o',
             always (fun ix v => set_index ix.1 v) x v o = Normal o' -> o' = set_index x.1 v o)
    by (intros x v o0 o1; apply (always_fin (fun ix v => set_index ix.1 v))).
  assert (Hfin3 : forall (x : pkey * descriptor) v o o',
             define x.1 (with_value x.2 v) o = Normal o' ->
             o' = define_property x.1 (with_value x.2 v) o)
    by (intros; apply define_defined; assumption).
  (* the elements *)
  pose proof Hrun1 as Hsh1.
  eapply (forEach_shape (fun ix : nat * value => ix.2) rec Hrec c
            (always (fun ix v => set_index ix.1 v)) (fun ix v => set_index ix.1 v) Hfin1)
    in Hsh1; [|exact Hct].
  destruct Hsh1 as (Hfr1 & vs1 & Hc1 & Hcop1).
  assert (Hclt : c < length (st_heap t1)) by (eapply lookup_lt_Some; eauto).
  (* the length *)
  assert (Hmid : frame_except c t1 t2 /\
                st_heap t2 !! c = Some (with_length o (built (fun ix v => set_index ix.1 v)
                                                          (indexed_elements o) vs1 clean)) /\
                (wf_heap (st_heap t1) = true -> wf_heap (st_heap t2) = true)).
  { unfold with_length. destruct (is_array o).
    - apply bind_inv in Hrun2 as (v & t1' & Hcall & Hmod).
      destruct (Hrec _ _ _ _ Hcall) as ((Hlen' & Hfr' & Hca') & _ & Hwf').
      unfold modify, update in Hmod. rewrite Hfr' in Hmod by exact Hclt. rewrite Hc1 in Hmod.
      injection Hmod as <-. simpl. split; [|split].
      + split; [simpl; rewrite length_insert; lia|]. split; [|exact Hca'].
        intros l' Hl' Hne. simpl. rewrite list_lookup_insert_ne by auto.
        apply Hfr'. exact Hl'.
      + apply list_lookup_insert_eq. lia.
      + intros Hwf1. specialize (Hwf' Hwf1 eq_refl).
        eapply wf_heap_insert; [exact Hwf'| | |apply set_length_buffer].
        * rewrite Hfr' by exact Hclt. exact Hc1.
        * apply set_length_wf. eapply wf_heap_lookup; [exact Hwf'|].
          rewrite Hfr' by exact Hclt. exact Hc1.
    - injection Hrun2 as <-. split; [|split; [exact Hc1|auto]].
      split; [lia|]. split; [auto|reflexivity]. }
  destruct Hmid as (Hfr2 & Hc2 & Hwf2).
  (* the other properties *)
  pose proof Hrun3 as Hsh3.
  eapply (forEach_shape (fun kd : pkey * descriptor => dvalue kd.2) rec Hrec c
            (fun kd v => define kd.1 (with_value kd.2 v))
            (fun kd v => define_property kd.1 (with_value kd.2 v)) Hfin3)
    in Hsh3; [|exact Hc2].
  destruct Hsh3 as (Hfr3 & vs3 & Hc3 & Hcop3).
  pose proof (frame_except_trans _ _ _ _ (frame_except_trans _ _ _ _ Hfr1 Hfr2) Hfr3) as Hfr.
  pose proof Hfr1 as (Hlen1 & _). pose proof Hfr2 as (Hlen2 & _). pose proof Hfr3 as (Hlen3 & _).
  split; [reflexivity|]. split; [apply frame_extends with (o := clean); exact Hfr|].
  split; [lia|]. split.
  - exists clean, vs1, vs3. split; [exact Hclean|]. split; [exact Hc3|]. split.
    + apply copied_Forall2 in Hcop1. eapply Forall2_impl; [exact Hcop1|].
      intros x y. apply kept_or_new_wider; lia.
    + apply copied_Forall2 in Hcop3. eapply Forall2_impl; [exact Hcop3|].
      intros x y. apply kept_or_new_wider; lia.
  - intros Hwf.
    pose proof (wf_heap_lookup _ _ _ Hwf Hl) as Ho.
    destruct (wf_obj_props _ _ Ho) as (Hps & _).
    assert (Hwft : wf_heap (st_heap t) = true).
    { apply wf_heap_new; [exact Hwf|]. eapply getCleanClone_wf; eauto. }
    assert (Hwf1 : wf_heap (st_heap t1) = true).
    { eapply (forEach_wf (fun ix : nat * value => ix.2) rec Hrec c
                (always (fun ix v => set_index ix.1 v)) (fun ix v => set_index ix.1 v) Hfin1
                (fun n ix => value_closed n ix.2 = true)); [| | | |exact Hrun1|exact Hwft|].
      - intros n n' x Hn. apply value_closed_mono. exact Hn.
      - auto.
      - intros h x v o' Ho' _ Hv. apply set_index_wf; assumption.
      - intros x v o'. apply set_index_buffer.
      - eapply Forall_impl; [apply wf_obj_elements; exact Ho|].
        intros x. apply value_closed_mono. lia. }
    eapply (forEach_wf (fun kd : pkey * descriptor => dvalue kd.2) rec Hrec c
              (fun kd v => define kd.1 (with_value kd.2 v))
              (fun kd v => define_property kd.1 (with_value kd.2 v)) Hfin3
              (fun n kd => value_closed n (dvalue kd.2) = true));
      [| | | |exact Hrun3|exact (Hwf2 Hwf1)|].
    + intros n n' x Hn. apply value_closed_mono. exact Hn.
    + auto.
    + intros h x v o' Ho' _ Hv. apply define_property_wf; assumption.
    + intros x v o' Hb. exact Hb.
    + eapply props_closed_mono; [|eapply props_closed_subset; [|exact Hps]].
      * lia.
      * intros x Hx. apply strict_keys_in_props. exact Hx.
Qed.

End ClonePost.

Lemma put_entry_buffer kv v o : is_buffer o = true -> is_buffer (put_entry kv v o) = true.
Proof. destruct o as [c ps]. destruct c; simpl; auto. Qed.

Lemma put_member_buffer (x : value) v o : is_buffer o = true -> is_buffer (put_member x v o) = true.
Proof. destruct o as [c ps]. destruct c; simpl; auto. Qed.

Lemma extends_length s s' : extends s s' -> length (st_heap s) <= length (st_heap s').
Proof. intros (H & _). exact H. Qed.

(** A clone without values of its own: a date, a regexp, a file, a buffer. *)
Lemma leaf_post s l o' :
  wf_obj (st_heap s) o' = true ->
  extends s (CState (st_heap s ++ [o']) (st_cache s)) /\
  kept_or_new (length (st_heap s))
              (length (st_heap (CState (st_heap s ++ [o']) (st_cache s))))
              (VObject l) (VObject (length (st_heap s))) /\
  (wf_heap (st_heap s) = true -> value_closed (length (st_heap s)) (VObject l) = true ->
   wf_heap (st_heap (CState (st_heap s ++ [o']) (st_cache s))) = true).
Proof.
  intros Ho. split; [apply alloc_extends|]. split.
  - apply new_here. simpl. rewrite length_app. simpl. lia.
  - intros Hwf _. apply wf_heap_new; assumption.
Qed.

Lemma post_cached s l v v' s' :
  extends (CState (st_heap s) (st_cache s ++ [l])) s' /\
  kept_or_new (length (st_heap s)) (length (st_heap s')) v v' /\
  (wf_heap (st_heap s) = true -> wf_heap (st_heap s') = true) ->
  extends s s' /\
  kept_or_new (length (st_heap s)) (length (st_heap s')) v v' /\
  (wf_heap (st_heap s) = true -> value_closed (length (st_heap s)) v = true ->
   wf_heap (st_heap s') = true).
Proof.
  intros (Hext & Hk & Hwf). split; [eapply add_extends; exact Hext|]. auto.
Qed.

Section FillPost.

Context {A : Type}.
Variable g : A -> value.
Variable rec : value -> M cstate value.
Hypothesis Hrec : copier_post rec.
Variable fin : A -> value -> obj -> obj.

(** A new object filled by one loop, its source in the cache. *)
Lemma fill_shape (fresh : obj) xs s l t' :
  forEach (body g rec (length (st_heap s)) (always fin)) xs
          (CState (st_heap s ++ [fresh]) (st_cache s ++ [l])) = Some (tt, t') ->
  extends s t' /\ length (st_heap s) < length (st_heap t') /\
  exists vs, st_heap t' !! length (st_heap s) = Some (built fin xs vs fresh) /\
             copied g (S (length (st_heap s))) (length (st_heap t')) xs vs.
Proof.
  intros Hrun.
  assert (Hlen : length (st_heap s ++ [fresh]) = S (length (st_heap s))).
  { rewrite length_app. simpl. lia. }
  pose proof Hrun as Hsh.
  eapply (forEach_shape g rec Hrec _ (always fin) fin (always_fin fin)) in Hsh;
    [|simpl; apply lookup_new].
  destruct Hsh as (Hfr & vs & Hc & Hcop). simpl in Hcop. rewrite Hlen in Hcop.
  pose proof Hfr as (Hle & _). simpl in Hle. rewrite Hlen in Hle.
  split; [|split; [lia|]].
  - apply add_extends with (l := l).
    apply (frame_extends (CState (st_heap s) (st_cache s ++ [l])) fresh). exact Hfr.
  - exists vs. auto.
Qed.

Variable cl : nat -> A -> Prop.
Hypothesis cl_mono : forall n n' x, n <= n' -> cl n x -> cl n' x.
Hypothesis cl_g : forall n x, cl n x -> value_closed n (g x) = true.
Hypothesis upd_wf : forall h x v o,
  wf_obj h o = true -> cl (length h) x -> value_closed (length h) v = true ->
  wf_obj h (fin x v o) = true.
Hypothesis upd_buffer : forall x v o, is_buffer o = true -> is_buffer (fin x v o) = true.

Lemma fill_post (fresh : obj) xs s l t' :
  forEach (body g rec (length (st_heap s)) (always fin)) xs
          (CState (st_heap s ++ [fresh]) (st_cache s ++ [l])) = Some (tt, t') ->
  extends s t' /\ length (st_heap s) < length (st_heap t') /\
  (wf_heap (st_heap s) = true -> wf_obj (st_heap s) fresh = true ->
   Forall (cl (length (st_heap s))) xs -> wf_heap (st_heap t') = true).
Proof.
  intros Hrun. destruct (fill_shape _ _ _ _ _ Hrun) as (Hext & Hlen & _).
  split; [exact Hext|]. split; [exact Hlen|].
  intros Hwf Hfresh Hxs.
  eapply (forEach_wf g rec Hrec _ (always fin) fin (always_fin fin)
            cl cl_mono cl_g upd_wf upd_buffer); [exact Hrun| |].
  - simpl. apply wf_heap_new; assumption.
  - simpl. rewrite length_app. simpl. eapply Forall_impl; [exact Hxs|].
    intros x. apply cl_mono. lia.
Qed.

End FillPost.

Lemma wf_obj_entries h o entries :
  wf_obj h o = true -> cls o = ClsMap entries ->
  Forall (fun kv : value * value =>
            value_closed (length h) kv.1 = true /\ value_closed (length h) kv.2 = true) entries /\
  NoDup entries.*1.
Proof.
  intros Ho Hc. apply wf_obj_cls in Ho. rewrite Hc in Ho.
  apply wf_obj_map in Ho as (H1 & H2 & H3). split; [|exact H3].
  rewrite Forall_fmap in H1, H2. rewrite Forall_forall in *. intros x Hx. split.
  - apply (H1 x Hx).
  - apply (H2 x Hx).
Qed.

Lemma wf_obj_members h o members :
  wf_obj h o = true -> cls o = ClsSet members ->
  Forall (fun v => value_closed (length h) v = true) members /\ NoDup members.
Proof.
  intros Ho Hc. apply wf_obj_cls in Ho. rewrite Hc in Ho. apply wf_obj_set in Ho. exact Ho.
Qed.

Lemma insert_new (h : list obj) (o o' : obj) : <[length h := o']> (h ++ [o]) = h ++ [o'].
Proof. rewrite insert_app_r_alt by lia. rewrite Nat.sub_diag. reflexivity. Qed.

(** Whenever [handleCopy] returns, the heap has only grown, the result is the
    value itself or an object the call allocated, and a well-formed heap is
    still well formed. *)
Lemma handleCopy_post isStrict fuel : copier_post (handleCopy fuel isStrict).
Proof.
  induction fuel as [|d IH]; intros v s v' s' H; [discriminate|].
  destruct v as [| | | | | | |l];
    try (injection H as <- <-; split; [apply extends_refl|split; [apply kept_here|auto]]).
  cbn [handleCopy] in H.
  apply bind_inv in H as (b & s0 & Hhas & H). injection Hhas as <- <-.
  destruct (bool_decide (l ∈ st_cache s)).
  { injection H as <- <-. split; [apply extends_refl|split; [apply kept_here|auto]]. }
  apply bind_inv in H as (o & s0 & Hload & H).
  unfold load in Hload. destruct (st_heap s !! l) as [o'|] eqn:Hl; [|discriminate].
  injection Hload as <- <-.
  assert (Hclone : forall v' s',
             (cache_add l ;; getObjectClone isStrict l (handleCopy d isStrict)) s = Some (v', s') ->
             extends s s' /\
             kept_or_new (length (st_heap s)) (length (st_heap s')) (VObject l) v' /\
             (wf_heap (st_heap s) = true -> value_closed (length (st_heap s)) (VObject l) = true ->
              wf_heap (st_heap s') = true)).
  { clear H. intros w t H.
    apply bind_inv in H as ([] & s1 & Hadd & H). injection Hadd as <-.
    apply (post_cached s l). unfold getObjectClone in H. destruct isStrict.
    - apply (getObjectCloneStrict_post _ IH l o') in H; [|exact Hl].
      destruct H as (-> & Hext & Hlen & _ & Hwf). simpl in *.
      split; [exact Hext|]. split; [apply new_here; lia|exact Hwf].
    - apply (getObjectCloneLoose_post _ IH l o') in H; [|exact Hl].
      destruct H as (-> & Hext & Hlen & _ & Hwf). simpl in *.
      split; [exact Hext|]. split; [apply new_here; lia|exact Hwf]. }
  assert (Hpass : forall v' s',
             (if has_callable_then o' || bool_decide (cls o' = ClsError)
                 || bool_decide (cls o' = ClsWeakMap) || bool_decide (cls o' = ClsWeakSet)
              then ret (VObject l)
              else cache_add l ;; getObjectClone isStrict l (handleCopy d isStrict)) s
             = Some (v', s') ->
             extends s s' /\
             kept_or_new (length (st_heap s)) (length (st_heap s')) (VObject l) v' /\
             (wf_heap (st_heap s) = true -> value_closed (length (st_heap s)) (VObject l) = true ->
              wf_heap (st_heap s') = true)).
  { clear H. intros w t H.
    destruct (has_callable_then o' || bool_decide (cls o' = ClsError)
              || bool_decide (cls o' = ClsWeakMap) || bool_decide (cls o' = ClsWeakSet)).
    - injection H as <- <-. split; [apply extends_refl|split; [apply kept_here|auto]].
    - apply Hclone. exact H. }
  destruct (constructor_is_Object o'); [apply Hclone; exact H|].
  destruct (cls o') eqn:Hcls; try (apply Hpass; exact H).
  - (* arrays *)
    destruct isStrict; [apply Hclone; exact H|].
    apply bind_inv in H as ([] & s1 & Hadd & H). injection Hadd as <-.
    apply bind_inv in H as ([] & s1 & Hnew & H). apply complete_inv in Hnew as [_ ->].
    apply bind_inv in H as (c & t & Halloc & H). injection Halloc as <- <-. simpl in H.
    apply bind_inv in H as ([] & t' & Hrun & H). injection H as <- <-.
    apply (fill_post (fun ix : nat * value => ix.2) _ IH (fun ix v => set_index ix.1 v)
             (fun n ix => value_closed n ix.2 = true)) in Hrun.
    + destruct Hrun as (Hext & Hlen & Hwf).
      split; [exact Hext|]. split; [apply new_here; lia|].
      intros Hwf0 _. apply Hwf; [exact Hwf0|reflexivity|].
      pose proof (wf_obj_elements _ _ (wf_heap_lookup _ _ _ Hwf0 Hl)) as He.
      unfold indexed_elements in He. rewrite Hcls in He. exact He.
    + intros n n' x Hn. apply value_closed_mono. exact Hn.
    + auto.
    + intros h x v o Ho _ Hv. apply set_index_wf; assumption.
    + intros x v o. apply set_index_buffer.
  - (* dates *)
    apply bind_inv in H as ([] & s1 & Hnew & H). apply complete_inv in Hnew as [_ ->].
    apply bind_inv in H as (c & t & Halloc & H). injection Halloc as <- <-.
    injection H as <- <-. apply leaf_post. reflexivity.
  - (* regexps *)
    apply bind_inv in H as ([] & s1 & Hnew & H). apply complete_inv in Hnew as [_ ->].
    apply bind_inv in H as (c & t & Halloc & H). injection Halloc as <- <-.
    apply bind_inv in H as ([] & t' & Hmod & H). injection H as <- <-.
    unfold modify, update in Hmod. simpl in Hmod. rewrite lookup_new in Hmod.
    injection Hmod as <-. simpl. rewrite insert_new. apply leaf_post. reflexivity.
  - (* maps *)
    apply bind_inv in H as ([] & s1 & Hadd & H). injection Hadd as <-.
    apply bind_inv in H as ([] & s1 & Hnew & H). apply complete_inv in Hnew as [_ ->].
    apply bind_inv in H as (c & t & Halloc & H). injection Halloc as <- <-. simpl in H.
    apply bind_inv in H as ([] & t' & Hrun & H). injection H as <- <-.
    apply (fill_post (fun kv : value * value => kv.2) _ IH put_entry
             (fun n kv => value_closed n kv.1 = true /\ value_closed n kv.2 = true)) in Hrun.
    + destruct Hrun as (Hext & Hlen & Hwf).
      split; [exact Hext|]. split; [apply new_here; lia|].
      intros Hwf0 _. apply Hwf; [exact Hwf0|reflexivity|].
      eapply wf_obj_entries; [|exact Hcls]. eapply wf_heap_lookup; eauto.
    + intros n n' x Hn [H1 H2]. split; eapply value_closed_mono; eauto.
    + intros n x [_ H2]. exact H2.
    + intros h x v o Ho [Hk _] Hv. apply put_entry_wf; assumption.
    + intros x v o. apply put_entry_buffer.
  - (* sets *)
    apply bind_inv in H as ([] & s1 & Hadd & H). injection Hadd as <-.
    apply bind_inv in H as ([] & s1 & Hnew & H). apply complete_inv in Hnew as [_ ->].
    apply bind_inv in H as (c & t & Halloc & H). injection Halloc as <- <-. simpl in H.
    apply bind_inv in H as ([] & t' & Hrun & H). injection H as <- <-.
    apply (fill_post (fun x : value => x) _ IH put_member
             (fun n x => value_closed n x = true)) in Hrun.
    + destruct Hrun as (Hext & Hlen & Hwf).
      split; [exact Hext|]. split; [apply new_here; lia|].
      intros Hwf0 _. apply Hwf; [exact Hwf0|reflexivity|].
      eapply wf_obj_members; [|exact Hcls]. eapply wf_heap_lookup; eauto.
    + intros n n' x Hn. apply value_closed_mono. exact Hn.
    + auto.
    + intros h x v o Ho _ Hv. apply put_member_wf; assumption.
    + intros x v o. apply put_member_buffer.
  - (* files *)
    apply bind_inv in H as ([] & s1 & Hadd & H). injection Hadd as <-.
    apply bind_inv in H as (c & t & Halloc & H). injection Halloc as <- <-.
    injection H as <- <-. apply (post_cached s l).
    destruct (leaf_post (CState (st_heap s) (st_cache s ++ [l])) l
                (Obj (ClsFile name type bits) []) eq_refl) as (Hext & Hk & Hwf).
    simpl in *. split; [exact Hext|]. split; [exact Hk|]. intros Hwf0. apply Hwf; [exact Hwf0|].
    apply bool_decide_eq_true. eapply lookup_lt_Some; eauto.
  - (* views *)
    apply bind_inv in H as ([] & s1 & Hnew & H). apply complete_inv in Hnew as [_ ->].
    apply bind_inv in H as (ob & s1 & Hload & H).
    unfold load in Hload. destruct (st_heap s !! buffer) as [ob'|] eqn:Hb; [|discriminate].
    injection Hload as <- <-.
    destruct (cls ob') eqn:Hbc; try discriminate.
    apply bind_inv in H as (c & t & Halloc & H). injection Halloc as <- <-.
    destruct (bool_decide (length bytes `mod` bytesPerElement = 0)); [|discriminate].
    apply bind_inv in H as (c' & t' & Halloc & H). injection Halloc as <- <-.
    injection H as <- <-. simpl.
    rewrite length_app. simpl. split; [|split].
    + split; [simpl; rewrite !length_app; simpl; lia|]. split; [|reflexivity].
      intros l' Hl'. simpl. rewrite <- app_assoc. apply lookup_app_l. exact Hl'.
    + apply new_here. rewrite !length_app. simpl. lia.
    + intros Hwf _. apply wf_heap_alloc; [apply wf_heap_new; [exact Hwf|reflexivity]|].
      apply wf_obj_iff. split; [constructor|]. split; [|reflexivity].
      apply view_ok_buffer. simpl. exists (Obj (ClsArrayBuffer bytes) []).
      split; [|reflexivity].
      rewrite lookup_app_l by (rewrite length_app; simpl; lia). apply lookup_new.
  - (* array buffers *)
    apply bind_inv in H as (c & t & Halloc & H). injection Halloc as <- <-.
    injection H as <- <-. apply leaf_post. reflexivity.
Qed.

